(** * RedeDisciplinas: a prerequisite graph over course identifiers

    Shallow embedding of [src/ag.py] and verification of its specification.

    Modelling conventions.
    - [self._pre_reqs : Dict[str, Set[str]]] is a [gmap string (gset string)];
      every other dictionary of the program ([in_degree], [reverse_adj],
      [sub_prs]) is a [gmap] too, and every Python [set] is a [gset].
      Iterating over a dictionary is [map_to_list], iterating over a set is
      [elements]: one fixed enumeration, as unspecified to the caller as the
      order the specification calls implementation-defined.
    - A method of the class is a state-passing function from the object to
      an outcome and the object afterwards ([method]).
    - [raise] is the [Raise] outcome.  A [while] loop is a fixpoint on a
      fuel argument which the method itself supplies from the size of the
      graph; running out of fuel is the separate outcome [OutOfFuel], and
      the theorems show it never happens.
    - A Python [list] used as a stack ([pilha.pop()] takes the last
      element) is stored top first: [pilha.extend(xs)] is [reverse xs ++ pilha].
      The [deque] and the result lists are stored in their own order.
    - What a method does to the objects themselves, where two names may
      stand for one set, is the subject of a second embedding of the same
      methods ([Store]): dictionaries and sets are objects in a store,
      updated in place through references. *)

From stdpp Require Import gmap strings list fin_maps relations pretty.

#[local] Set Warnings "-clear-no-such-hyp".

(** ** Outcomes and methods *)

Inductive exn := KeyError | CycleError.

Inductive outcome (A : Type) :=
  | Ret (a : A)
  | Raise (e : exn)
  | OutOfFuel.
Arguments Ret {A} a.
Arguments Raise {A} e.
Arguments OutOfFuel {A}.

#[global] Instance outcome_ret : MRet outcome := λ A a, Ret a.
#[global] Instance outcome_bind : MBind outcome := λ A B k c,
  match c with
  | Ret a => k a
  | Raise e => Raise e
  | OutOfFuel => OutOfFuel
  end.

(** [for x in xs: body], with the loop state threaded through. *)
Fixpoint for_each {A S : Type} (xs : list A) (body : A → S → outcome S)
    (s : S) : outcome S :=
  match xs with
  | [] => Ret s
  | x :: xs' => s' ← body x s; for_each xs' body s'
  end.

Record RedeDisciplinas := Rede { pre_reqs : gmap string (gset string) }.

Definition method (A : Type) : Type :=
  RedeDisciplinas → outcome A * RedeDisciplinas.

Definition unit_m {A} (a : A) : method A := λ self, (Ret a, self).

Definition raise_m {A} (e : exn) : method A := λ self, (Raise e, self).

Definition bind_m {A B} (c : method A) (k : A → method B) : method B :=
  λ self,
    match c self with
    | (Ret a, self') => k a self'
    | (Raise e, self') => (Raise e, self')
    | (OutOfFuel, self') => (OutOfFuel, self')
    end.

(** Reading [self._pre_reqs]. *)
Definition read_pre_reqs : method (gmap string (gset string)) :=
  λ self, (Ret (pre_reqs self), self).

(** Assigning into [self._pre_reqs]. *)
Definition write_pre_reqs (prs : gmap string (gset string)) : method unit :=
  λ _, (Ret (), Rede prs).

(** A computation on local values only. *)
Definition local_m {A} (c : outcome A) : method A := λ self, (c, self).

Notation "x ⇐ c ;; k" := (bind_m c (λ x, k))
  (at level 100, c at next level, right associativity).

(** ** Construction and CRUD *)

Definition adicionar_disciplina (disciplina : string) : method unit :=
  prs ⇐ read_pre_reqs ;;
  match prs !! disciplina with
  | None => write_pre_reqs (<[disciplina := ∅]> prs)
  | Some _ => unit_m ()
  end.

Definition remover_disciplina (disciplina : string) : method unit :=
  prs ⇐ read_pre_reqs ;;
  match prs !! disciplina with
  | None => unit_m ()
  | Some _ =>
      write_pre_reqs ((λ deps, deps ∖ {[disciplina]}) <$> delete disciplina prs)
  end.

Definition adicionar_pre_requisito (pre disciplina : string) : method unit :=
  _ ⇐ adicionar_disciplina pre ;;
  _ ⇐ adicionar_disciplina disciplina ;;
  prs ⇐ read_pre_reqs ;;
  match prs !! disciplina with
  | None => raise_m KeyError
  | Some deps => write_pre_reqs (<[disciplina := {[pre]} ∪ deps]> prs)
  end.

Definition remover_pre_requisito (pre disciplina : string) : method unit :=
  prs ⇐ read_pre_reqs ;;
  match prs !! disciplina with
  | Some deps => write_pre_reqs (<[disciplina := deps ∖ {[pre]}]> prs)
  | None => unit_m ()
  end.

(** [RedeDisciplinas(disciplinas)]: the empty graph, then one
    [adicionar_disciplina] per element. *)
Fixpoint init_loop (disciplinas : list string) : method unit :=
  match disciplinas with
  | [] => unit_m ()
  | d :: ds => _ ⇐ adicionar_disciplina d ;; init_loop ds
  end.

Definition rede_vazia : RedeDisciplinas := Rede ∅.

Definition nova_rede (disciplinas : list string) : RedeDisciplinas :=
  (init_loop disciplinas rede_vazia).2.

(** The constructor with its optional argument: [None] and the empty list
    are both falsy for [if disciplinas:], and the loop is skipped. *)
Definition construir (disciplinas : option (list string)) : RedeDisciplinas :=
  match disciplinas with
  | Some (d :: ds) => (init_loop (d :: ds) rede_vazia).2
  | _ => rede_vazia
  end.

(** ** Queries *)

(** [__repr__]: the number of courses, in decimal, between two fixed texts. *)
Definition repr : method string :=
  prs ⇐ read_pre_reqs ;;
  unit_m ("RedeDisciplinas(" +:+ pretty (size prs) +:+ " disciplinas)")%string.

Definition disciplinas : method (list string) :=
  prs ⇐ read_pre_reqs ;;
  unit_m ((map_to_list prs).*1).

Definition prerequisitos_diretos (disciplina : string) : method (list string) :=
  prs ⇐ read_pre_reqs ;;
  match prs !! disciplina with
  | None => raise_m KeyError
  | Some deps => unit_m (elements deps)
  end.

(** [self._pre_reqs.get(cur, set())] *)
Definition get_prs (prs : gmap string (gset string)) (cur : string) : gset string :=
  default ∅ (prs !! cur).

(** Number of loop iterations granted to the two depth-first searches: the
    initial stack plus one push per edge of the graph. *)
Definition total_prs (prs : gmap string (gset string)) : nat :=
  sum_list_with (λ kv : string * gset string, size kv.2) (map_to_list prs).

Fixpoint todos_loop (fuel : nat) (prs : gmap string (gset string))
    (vistos : gset string) (pilha : list string) : outcome (gset string) :=
  match pilha with
  | [] => Ret vistos
  | cur :: pilha' =>
      match fuel with
      | O => OutOfFuel
      | S fuel' =>
          if decide (cur ∈ vistos) then todos_loop fuel' prs vistos pilha'
          else
            todos_loop fuel' prs ({[cur]} ∪ vistos)
              (reverse (elements (get_prs prs cur)) ++ pilha')
      end
  end.

Definition todos_prerequisitos (disciplina : string) : method (list string) :=
  prs ⇐ read_pre_reqs ;;
  match prs !! disciplina with
  | None => raise_m KeyError
  | Some deps =>
      vistos ⇐ local_m
        (todos_loop (size deps + total_prs prs) prs ∅ (reverse (elements deps))) ;;
      unit_m (elements vistos)
  end.

Fixpoint existe_loop (fuel : nat) (prs : gmap string (gset string))
    (a : string) (visitados : gset string) (pilha : list string)
    : outcome bool :=
  match pilha with
  | [] => Ret false
  | cur :: pilha' =>
      match fuel with
      | O => OutOfFuel
      | S fuel' =>
          if decide (cur = a) then Ret true
          else if decide (cur ∈ visitados) then
            existe_loop fuel' prs a visitados pilha'
          else
            existe_loop fuel' prs a ({[cur]} ∪ visitados)
              (reverse (elements (get_prs prs cur)) ++ pilha')
      end
  end.

Definition existe_dependencia (a b : string) : method bool :=
  prs ⇐ read_pre_reqs ;;
  match prs !! b, prs !! a with
  | Some deps, Some _ =>
      local_m (existe_loop (size deps + total_prs prs) prs a ∅ (reverse (elements deps)))
  | _, _ => unit_m false
  end.

(** ** Kahn's algorithm

    [ordenacao_topologica] runs it on [self._pre_reqs] and
    [plano_de_estudo_para] repeats the same statements on [sub_prs]; the
    statements are embedded once, as [kahn], over the dictionary they run on. *)

(** [{node: len(prs) for node, prs in d.items()}] *)
Definition in_degree_of (prs : gmap string (gset string)) : gmap string Z :=
  (λ ps, Z.of_nat (size ps)) <$> prs.

(** [[n for n, d in in_degree.items() if d == 0]] *)
Definition grau_zero (in_degree : gmap string Z) : list string :=
  (filter (λ nd : string * Z, nd.2 = 0%Z) (map_to_list in_degree)).*1.

(** [reverse_adj[p].add(node)] *)
Definition reverse_add (node p : string) (reverse_adj : gmap string (gset string))
    : outcome (gmap string (gset string)) :=
  match reverse_adj !! p with
  | None => Raise KeyError
  | Some s => Ret (<[p := {[node]} ∪ s]> reverse_adj)
  end.

Definition reverse_adj_of (prs : gmap string (gset string))
    : outcome (gmap string (gset string)) :=
  for_each (map_to_list prs)
    (λ item ra, for_each (elements item.2) (reverse_add item.1) ra)
    ((λ _, ∅) <$> prs).

(** The body of [for m in reverse_adj.get(n, ())]. *)
Definition kahn_visit (m : string) (st : gmap string Z * list string)
    : outcome (gmap string Z * list string) :=
  match st.1 !! m with
  | None => Raise KeyError
  | Some d =>
      let in_degree := <[m := (d - 1)%Z]> st.1 in
      if decide ((d - 1)%Z = 0%Z) then Ret (in_degree, st.2 ++ [m])
      else Ret (in_degree, st.2)
  end.

Fixpoint kahn_loop (fuel : nat) (reverse_adj : gmap string (gset string))
    (in_degree : gmap string Z) (fila ordem : list string)
    : outcome (list string) :=
  match fila with
  | [] => Ret ordem
  | n :: fila' =>
      match fuel with
      | O => OutOfFuel
      | S fuel' =>
          st ← for_each (elements (get_prs reverse_adj n)) kahn_visit
                 (in_degree, fila');
          kahn_loop fuel' reverse_adj st.1 st.2 (ordem ++ [n])
      end
  end.

Definition kahn (prs : gmap string (gset string)) : outcome (list string) :=
  let in_degree := in_degree_of prs in
  let fila := grau_zero in_degree in
  reverse_adj ← reverse_adj_of prs;
  ordem ← kahn_loop (size prs) reverse_adj in_degree fila [];
  if decide (length ordem ≠ size prs) then Raise CycleError else Ret ordem.

Definition ordenacao_topologica : method (list string) :=
  prs ⇐ read_pre_reqs ;;
  local_m (kahn prs).

Definition tem_ciclo : method bool :=
  λ self,
    match ordenacao_topologica self with
    | (Ret _, self') => (Ret false, self')
    | (Raise CycleError, self') => (Ret true, self')
    | (Raise e, self') => (Raise e, self')
    | (OutOfFuel, self') => (OutOfFuel, self')
    end.

(** ** Study plan and level progression *)

(** [{n: {p for p in self._pre_reqs.get(n, set()) if p in necessario}
      for n in necessario}] *)
Definition sub_prs_of (prs : gmap string (gset string))
    (necessario : gset string) : gmap string (gset string) :=
  set_to_map
    (λ node, (node, filter (λ p, p ∈ necessario) (get_prs prs node)))
    necessario.

Definition plano_de_estudo_para (alvo : string) : method (list string) :=
  prs ⇐ read_pre_reqs ;;
  match prs !! alvo with
  | None => raise_m KeyError
  | Some _ =>
      todos ⇐ todos_prerequisitos alvo ;;
      let necessario : gset string := {[alvo]} ∪ list_to_set todos in
      prs ⇐ read_pre_reqs ;;
      local_m (kahn (sub_prs_of prs necessario))
  end.

(** The body of [for m in necessario] inside [for n in disponiveis]. *)
Definition nivel_visit (sub_prs : gmap string (gset string)) (n m : string)
    (st : gmap string Z * gset string) : outcome (gmap string Z * gset string) :=
  if decide (n ∈ get_prs sub_prs m) then
    match st.1 !! m with
    | None => Raise KeyError
    | Some d =>
        let in_degree := <[m := (d - 1)%Z]> st.1 in
        if decide ((d - 1)%Z = 0%Z) then Ret (in_degree, {[m]} ∪ st.2)
        else Ret (in_degree, st.2)
    end
  else Ret st.

(** The body of [for n in disponiveis]; the state is
    [(in_degree, proximos, processados)]. *)
Definition nivel_node (necessario : gset string)
    (sub_prs : gmap string (gset string)) (n : string)
    (st : gmap string Z * gset string * gset string)
    : outcome (gmap string Z * gset string * gset string) :=
  let processados := {[n]} ∪ st.2 in
  st' ← for_each (elements necessario) (nivel_visit sub_prs n) st.1;
  Ret (st', processados).

Fixpoint niveis_loop (fuel : nat) (necessario : gset string)
    (sub_prs : gmap string (gset string)) (in_degree : gmap string Z)
    (disponiveis processados : gset string) (niveis : list (gset string))
    : outcome (list (gset string)) :=
  if decide (disponiveis = ∅) then Ret niveis
  else
    match fuel with
    | O => OutOfFuel
    | S fuel' =>
        st ← for_each (elements disponiveis) (nivel_node necessario sub_prs)
               (in_degree, ∅, processados);
        niveis_loop fuel' necessario sub_prs st.1.1 (st.1.2 ∖ st.2) st.2
          (niveis ++ [disponiveis])
    end.

Definition progressao_por_niveis_para (alvo : string)
    : method (list (gset string)) :=
  ordem ⇐ plano_de_estudo_para alvo ;;
  let necessario : gset string := list_to_set ordem in
  prs ⇐ read_pre_reqs ;;
  let sub_prs := sub_prs_of prs necessario in
  let in_degree := in_degree_of sub_prs in
  let disponiveis : gset string := list_to_set (grau_zero in_degree) in
  local_m
    (niveis_loop (size necessario) necessario sub_prs in_degree disponiveis ∅ []).

(** ** The interface of the class *)

Inductive mutation :=
  | AddCourse (id : string)
  | RemoveCourse (id : string)
  | AddPrerequisite (pre course : string)
  | RemovePrerequisite (pre course : string).

Definition apply_mutation (mu : mutation) : method unit :=
  match mu with
  | AddCourse id => adicionar_disciplina id
  | RemoveCourse id => remover_disciplina id
  | AddPrerequisite pre course => adicionar_pre_requisito pre course
  | RemovePrerequisite pre course => remover_pre_requisito pre course
  end.

Fixpoint apply_mutations (mus : list mutation) : method unit :=
  match mus with
  | [] => unit_m ()
  | mu :: mus' => _ ⇐ apply_mutation mu ;; apply_mutations mus'
  end.

Inductive query :=
  | ListCourses
  | DirectPrerequisites (course : string)
  | AllPrerequisites (course : string)
  | DependsOn (a b : string)
  | HasCycle
  | TopologicalOrder
  | StudyPlan (target : string)
  | LevelProgression (target : string).

Inductive answer :=
  | Courses (l : list string)
  | Truth (b : bool)
  | Levels (l : list (gset string)).

Definition run_query (q : query) : method answer :=
  match q with
  | ListCourses => l ⇐ disciplinas ;; unit_m (Courses l)
  | DirectPrerequisites course => l ⇐ prerequisitos_diretos course ;; unit_m (Courses l)
  | AllPrerequisites course => l ⇐ todos_prerequisitos course ;; unit_m (Courses l)
  | DependsOn a b => r ⇐ existe_dependencia a b ;; unit_m (Truth r)
  | HasCycle => r ⇐ tem_ciclo ;; unit_m (Truth r)
  | TopologicalOrder => l ⇐ ordenacao_topologica ;; unit_m (Courses l)
  | StudyPlan target => l ⇐ plano_de_estudo_para target ;; unit_m (Courses l)
  | LevelProgression target =>
      l ⇐ progressao_por_niveis_para target ;; unit_m (Levels l)
  end.

(** A method that leaves the object as it found it, whatever its outcome. *)
Definition readonly {A} (c : method A) : Prop :=
  ∀ self, (c self).2 = self.

(** ** Examples: the diamond A→B, A→C, B→D, C→D *)

Open Scope string_scope.

Definition diamante : RedeDisciplinas :=
  (( _ ⇐ adicionar_pre_requisito "A" "B" ;;
     _ ⇐ adicionar_pre_requisito "A" "C" ;;
     _ ⇐ adicionar_pre_requisito "B" "D" ;;
     adicionar_pre_requisito "C" "D") rede_vazia).2.

Definition ciclo2 : RedeDisciplinas :=
  (( _ ⇐ adicionar_pre_requisito "A" "B" ;;
     adicionar_pre_requisito "B" "A") rede_vazia).2.

Close Scope string_scope.

(** ** The relations the specification speaks of *)

(** [pre → course]: [pre] is a direct prerequisite of [course]. *)
Definition edge (prs : gmap string (gset string)) (pre course : string) : Prop :=
  ∃ deps, prs !! course = Some deps ∧ pre ∈ deps.

(** [a] is reachable from [b] by one or more prerequisite edges backwards. *)
Definition ancestor (prs : gmap string (gset string)) (a b : string) : Prop :=
  tc (edge prs) a b.

Definition has_cycle (prs : gmap string (gset string)) : Prop :=
  ∃ x, ancestor prs x x.

Definition acyclic (prs : gmap string (gset string)) : Prop :=
  ∀ x, ¬ ancestor prs x x.

(** No dangling edge: every prerequisite is itself a key. *)
Definition closed (prs : gmap string (gset string)) : Prop :=
  ∀ course deps pre, prs !! course = Some deps → pre ∈ deps → is_Some (prs !! pre).

(** [x] occurs strictly before [y] in [l]. *)
Definition before (l : list string) (x y : string) : Prop :=
  ∃ l1 l2, l = l1 ++ y :: l2 ∧ x ∈ l1.

(** The courses needed to reach [alvo]: [alvo] and its ancestors. *)
Definition required (prs : gmap string (gset string)) (alvo x : string) : Prop :=
  x = alvo ∨ ancestor prs x alvo.

(** The sub-graph induced on the nodes satisfying [N]. *)
Definition induced_edge (prs : gmap string (gset string)) (N : string → Prop)
    (pre course : string) : Prop :=
  N pre ∧ N course ∧ edge prs pre course.

Definition induced_cycle (prs : gmap string (gset string)) (N : string → Prop)
    : Prop :=
  ∃ x, tc (induced_edge prs N) x x.

(** The loop variant of both searches: the stack, plus the prerequisites of
    the nodes not yet visited. *)
Definition weight (prs : gmap string (gset string)) (vistos : gset string) : nat :=
  sum_list_with
    (λ kv : string * gset string, if decide (kv.1 ∈ vistos) then 0 else size kv.2)
    (map_to_list prs).

(** Ghost instrumentation of [todos_loop]: the nodes in the order in which
    the loop visits them (the [vistos.add(cur)] branch). *)
Fixpoint todos_visitas (fuel : nat) (prs : gmap string (gset string))
    (vistos : gset string) (pilha : list string) : list string :=
  match pilha with
  | [] => []
  | cur :: pilha' =>
      match fuel with
      | O => []
      | S fuel' =>
          if decide (cur ∈ vistos) then todos_visitas fuel' prs vistos pilha'
          else
            cur :: todos_visitas fuel' prs ({[cur]} ∪ vistos)
                     (reverse (elements (get_prs prs cur)) ++ pilha')
      end
  end.

(** [l] lists every node after all of its direct prerequisites, the nodes
    of [seen] counting as listed before [l] starts. *)
Fixpoint topo_from (prs : gmap string (gset string)) (seen : gset string)
    (l : list string) : Prop :=
  match l with
  | [] => True
  | m :: l' => get_prs prs m ⊆ seen ∧ topo_from prs ({[m]} ∪ seen) l'
  end.

(** The ancestor set of [b], computed by the search of [todos_prerequisitos]. *)
Definition ancestors_of (prs : gmap string (gset string)) (b : string) : gset string :=
  match todos_loop (size (get_prs prs b) + total_prs prs) prs ∅
          (reverse (elements (get_prs prs b))) with
  | Ret V => V
  | _ => ∅
  end.

(** The set [necessario] of [plano_de_estudo_para]. *)
Definition necessario_de (prs : gmap string (gset string)) (alvo : string)
    : gset string :=
  {[alvo]} ∪ ancestors_of prs alvo.

(** Executable tests for the two hypotheses the theorems are stated under. *)
Definition acyclicb (prs : gmap string (gset string)) : bool :=
  bool_decide (set_Forall (λ x, x ∉ ancestors_of prs x) (dom prs)).

Definition closedb (prs : gmap string (gset string)) : bool :=
  bool_decide (map_Forall (λ _ deps, deps ⊆ dom prs) prs).

(** The loop invariant of [kahn_loop] on the dictionary [prs]: the output
    and the queue hold distinct nodes, [in_degree] counts the prerequisites
    not yet output, a node is queued or output exactly when all of its
    prerequisites are output, and the output is sorted. *)
Definition kahn_inv (prs : gmap string (gset string)) (in_degree : gmap string Z)
    (fila ordem : list string) : Prop :=
  NoDup (ordem ++ fila)
  ∧ (∀ m deps, prs !! m = Some deps →
       in_degree !! m = Some (Z.of_nat (size (deps ∖ list_to_set ordem))))
  ∧ (∀ m, m ∈ ordem ++ fila
          ↔ ∃ deps, prs !! m = Some deps ∧ deps ⊆ list_to_set ordem)
  ∧ topo_from prs ∅ ordem.

(** [niveis] is the greedy layering of [prs] above [seen]: each level is
    non-empty and holds exactly the nodes not yet placed whose
    prerequisites are all placed in earlier levels. *)
Fixpoint layers_from (prs : gmap string (gset string)) (seen : gset string)
    (niveis : list (gset string)) : Prop :=
  match niveis with
  | [] => True
  | nivel :: rest =>
      nivel ≠ ∅
      ∧ (∀ m, m ∈ nivel
              ↔ (m ∉ seen) ∧ ∃ deps, prs !! m = Some deps ∧ deps ⊆ seen)
      ∧ layers_from prs (nivel ∪ seen) rest
  end.

(** The invariant of the [while disponiveis] loop of
    [progressao_por_niveis_para], on the dictionary [prs = sub_prs]. *)
Definition niveis_inv (prs : gmap string (gset string)) (in_degree : gmap string Z)
    (disponiveis processados : gset string) (niveis : list (gset string)) : Prop :=
  processados = ⋃ niveis
  ∧ disponiveis ## processados
  ∧ (∀ m deps, prs !! m = Some deps →
       in_degree !! m = Some (Z.of_nat (size (deps ∖ processados))))
  ∧ (∀ m, m ∈ processados ∪ disponiveis
          ↔ ∃ deps, prs !! m = Some deps ∧ deps ⊆ processados)
  ∧ layers_from prs ∅ niveis.

(** The invariant of its [for n in disponiveis] loop; [processados0] is the
    value of [processados] when the [for] loop starts. *)
Definition nivel_inv (prs : gmap string (gset string)) (processados0 : gset string)
    (st : gmap string Z * gset string * gset string) : Prop :=
  processados0 ⊆ st.2
  ∧ (∀ m deps, prs !! m = Some deps →
       st.1.1 !! m = Some (Z.of_nat (size (deps ∖ st.2))))
  ∧ (∀ m, m ∈ st.1.2
          ↔ ∃ deps, prs !! m = Some deps ∧ deps ⊆ st.2 ∧ ¬ deps ⊆ processados0).

(** ** The same class over a store of objects

    The embedding above gives every dictionary and set as a value, so it
    cannot tell a copy from the object itself.  What a method does to the
    objects the graph is made of is read off a second embedding, statement
    by statement from the same source: every dictionary and every set of
    the program is an object in a store, a variable holds a reference, and
    [add], [discard], [d[k] = v] and [del d[k]] update the object in place,
    whoever else refers to it.  Lists and the deque stay values: the graph
    holds none, so none of them can be a part of it under another name.
    An object of the class is the reference held by [self._pre_reqs]. *)
Module Store.

Definition loc := positive.

(** What a dictionary holds under a key: a reference to a set, or a number. *)
Inductive value :=
  | VRef (l : loc)
  | VInt (n : Z).

#[global] Instance value_eq_dec : EqDecision value.
Proof. solve_decision. Defined.

Inductive obj :=
  | OSet (s : gset string)
  | ODict (d : gmap string value).

Abbreviation heap := (gmap loc obj).

(** [Stuck]: an object of the wrong kind was found under a reference. *)
Inductive result (A : Type) :=
  | Ok (a : A)
  | Err (e : exn)
  | Fuel
  | Stuck.
Arguments Ok {A} a.
Arguments Err {A} e.
Arguments Fuel {A}.
Arguments Stuck {A}.

Definition M (A : Type) : Type := heap → result A * heap.

Definition ret {A} (a : A) : M A := λ h, (Ok a, h).

Definition raise {A} (e : exn) : M A := λ h, (Err e, h).

Definition stuck {A} : M A := λ h, (Stuck, h).

Definition out_of_fuel {A} : M A := λ h, (Fuel, h).

Definition bind {A B} (c : M A) (k : A → M B) : M B :=
  λ h,
    match c h with
    | (Ok a, h') => k a h'
    | (Err e, h') => (Err e, h')
    | (Fuel, h') => (Fuel, h')
    | (Stuck, h') => (Stuck, h')
    end.

Notation "x ⇇ c ;; k" := (bind c (λ x, k))
  (at level 100, c at next level, right associativity).

(** [try: c except CycleError: handler] *)
Definition catch_cycle {A} (c : M A) (handler : M A) : M A :=
  λ h,
    match c h with
    | (Err CycleError, h') => handler h'
    | r => r
    end.

(** A new object, at a reference no object is under. *)
Definition alloc (o : obj) : M loc :=
  λ h, let l := fresh (dom h) in (Ok l, <[l := o]> h).

Definition set_get (l : loc) : M (gset string) :=
  λ h, match h !! l with Some (OSet s) => (Ok s, h) | _ => (Stuck, h) end.

(** The set under [l] becomes [s], for every holder of [l]. *)
Definition set_put (l : loc) (s : gset string) : M unit :=
  λ h,
    match h !! l with
    | Some (OSet _) => (Ok (), <[l := OSet s]> h)
    | _ => (Stuck, h)
    end.

Definition dict_get (l : loc) : M (gmap string value) :=
  λ h, match h !! l with Some (ODict d) => (Ok d, h) | _ => (Stuck, h) end.

Definition dict_put (l : loc) (d : gmap string value) : M unit :=
  λ h,
    match h !! l with
    | Some (ODict _) => (Ok (), <[l := ODict d]> h)
    | _ => (Stuck, h)
    end.

(** [s.add(x)], [s.discard(x)], [d[k] = v], [del d[k]] *)
Definition set_add (l : loc) (x : string) : M unit :=
  s ⇇ set_get l ;; set_put l ({[x]} ∪ s).

Definition set_discard (l : loc) (x : string) : M unit :=
  s ⇇ set_get l ;; set_put l (s ∖ {[x]}).

Definition dict_set (l : loc) (k : string) (v : value) : M unit :=
  d ⇇ dict_get l ;; dict_put l (<[k := v]> d).

Definition dict_del (l : loc) (k : string) : M unit :=
  d ⇇ dict_get l ;; dict_put l (delete k d).

Definition as_ref (v : value) : M loc :=
  match v with VRef l => ret l | VInt _ => stuck end.

Definition as_int (v : value) : M Z :=
  match v with VInt n => ret n | VRef _ => stuck end.

Fixpoint for_each {A S : Type} (xs : list A) (body : A → S → M S) (s : S)
    : M S :=
  match xs with
  | [] => ret s
  | x :: xs' => s' ⇇ body x s ;; for_each xs' body s'
  end.

(** [d.get(k, set())]: the reference [d] holds under [k], or one to a new
    empty set. *)
Definition get_or_new (d : loc) (k : string) : M loc :=
  m ⇇ dict_get d ;;
  match m !! k with
  | Some v => as_ref v
  | None => alloc (OSet ∅)
  end.

(** *** The graph a store holds under [self] *)

Definition contents (h : heap) (v : value) : gset string :=
  match v with
  | VRef l => match h !! l with Some (OSet s) => s | _ => ∅ end
  | VInt _ => ∅
  end.

Definition graph_of (h : heap) (self : loc) : gmap string (gset string) :=
  match h !! self with
  | Some (ODict d) => contents h <$> d
  | _ => ∅
  end.

(** The loop bounds are those of the embedding above, read off the store. *)
Definition fuel_of_search (self : loc) (deps : gset string) : M nat :=
  λ h, (Ok (size deps + total_prs (graph_of h self)), h).

(** *** Construction and CRUD *)

Definition adicionar_disciplina (self : loc) (disciplina : string) : M unit :=
  d ⇇ dict_get self ;;
  match d !! disciplina with
  | None => l ⇇ alloc (OSet ∅) ;; dict_set self disciplina (VRef l)
  | Some _ => ret ()
  end.

Definition remover_disciplina (self : loc) (disciplina : string) : M unit :=
  d ⇇ dict_get self ;;
  match d !! disciplina with
  | None => ret ()
  | Some _ =>
      _ ⇇ dict_del self disciplina ;;
      d' ⇇ dict_get self ;;
      for_each (map_to_list d')
        (λ kv _, deps ⇇ as_ref kv.2 ;; set_discard deps disciplina) ()
  end.

Definition adicionar_pre_requisito (self : loc) (pre disciplina : string)
    : M unit :=
  _ ⇇ adicionar_disciplina self pre ;;
  _ ⇇ adicionar_disciplina self disciplina ;;
  d ⇇ dict_get self ;;
  match d !! disciplina with
  | None => raise KeyError
  | Some v => deps ⇇ as_ref v ;; set_add deps pre
  end.

Definition remover_pre_requisito (self : loc) (pre disciplina : string)
    : M unit :=
  d ⇇ dict_get self ;;
  match d !! disciplina with
  | Some v => deps ⇇ as_ref v ;; set_discard deps pre
  | None => ret ()
  end.

(** [RedeDisciplinas()]: a new empty dictionary; the result is the
    reference put in [self._pre_reqs]. *)
Definition nova : M loc := alloc (ODict ∅).

(** *** Queries *)

Definition disciplinas (self : loc) : M (list string) :=
  d ⇇ dict_get self ;;
  ret ((map_to_list d).*1).

Definition prerequisitos_diretos (self : loc) (disciplina : string)
    : M (list string) :=
  d ⇇ dict_get self ;;
  match d !! disciplina with
  | None => raise KeyError
  | Some v => deps ⇇ as_ref v ;; s ⇇ set_get deps ;; ret (elements s)
  end.

Fixpoint todos_loop (fuel : nat) (self vistos : loc) (pilha : list string)
    : M unit :=
  match pilha with
  | [] => ret ()
  | cur :: pilha' =>
      match fuel with
      | O => out_of_fuel
      | S fuel' =>
          v ⇇ set_get vistos ;;
          if decide (cur ∈ v) then todos_loop fuel' self vistos pilha'
          else
            _ ⇇ set_add vistos cur ;;
            r ⇇ get_or_new self cur ;;
            s ⇇ set_get r ;;
            todos_loop fuel' self vistos (reverse (elements s) ++ pilha')
      end
  end.

Definition todos_prerequisitos (self : loc) (disciplina : string)
    : M (list string) :=
  d ⇇ dict_get self ;;
  match d !! disciplina with
  | None => raise KeyError
  | Some v =>
      vistos ⇇ alloc (OSet ∅) ;;
      deps ⇇ as_ref v ;;
      s ⇇ set_get deps ;;
      fuel ⇇ fuel_of_search self s ;;
      _ ⇇ todos_loop fuel self vistos (reverse (elements s)) ;;
      v ⇇ set_get vistos ;;
      ret (elements v)
  end.

Fixpoint existe_loop (fuel : nat) (self : loc) (a : string) (visitados : loc)
    (pilha : list string) : M bool :=
  match pilha with
  | [] => ret false
  | cur :: pilha' =>
      match fuel with
      | O => out_of_fuel
      | S fuel' =>
          if decide (cur = a) then ret true
          else
            v ⇇ set_get visitados ;;
            if decide (cur ∈ v) then existe_loop fuel' self a visitados pilha'
            else
              _ ⇇ set_add visitados cur ;;
              r ⇇ get_or_new self cur ;;
              s ⇇ set_get r ;;
              existe_loop fuel' self a visitados (reverse (elements s) ++ pilha')
      end
  end.

Definition existe_dependencia (self : loc) (a b : string) : M bool :=
  d ⇇ dict_get self ;;
  match d !! b, d !! a with
  | Some v, Some _ =>
      deps ⇇ as_ref v ;;
      s ⇇ set_get deps ;;
      visitados ⇇ alloc (OSet ∅) ;;
      fuel ⇇ fuel_of_search self s ;;
      existe_loop fuel self a visitados (reverse (elements s))
  | _, _ => ret false
  end.

(** [{node: len(prs) for node, prs in d.items()}]: a new dictionary. *)
Definition in_degree_of (prs : loc) : M loc :=
  d ⇇ dict_get prs ;;
  in_degree ⇇ alloc (ODict ∅) ;;
  _ ⇇ for_each (map_to_list d)
        (λ item _,
           deps ⇇ as_ref item.2 ;;
           s ⇇ set_get deps ;;
           dict_set in_degree item.1 (VInt (Z.of_nat (size s)))) () ;;
  ret in_degree.

(** [[n for n, d in in_degree.items() if d == 0]] *)
Definition grau_zero (in_degree : loc) : M (list string) :=
  d ⇇ dict_get in_degree ;;
  ret ((filter (λ nd : string * value, nd.2 = VInt 0) (map_to_list d)).*1).

(** [{node: set() for node in d}]: a new dictionary of new sets. *)
Definition reverse_adj_vazia (prs : loc) : M loc :=
  d ⇇ dict_get prs ;;
  reverse_adj ⇇ alloc (ODict ∅) ;;
  _ ⇇ for_each (map_to_list d)
        (λ item _, s ⇇ alloc (OSet ∅) ;; dict_set reverse_adj item.1 (VRef s)) () ;;
  ret reverse_adj.

(** [reverse_adj[p].add(node)] *)
Definition reverse_add (reverse_adj : loc) (node p : string) (_ : unit)
    : M unit :=
  ra ⇇ dict_get reverse_adj ;;
  match ra !! p with
  | None => raise KeyError
  | Some v => s ⇇ as_ref v ;; set_add s node
  end.

Definition reverse_adj_of (prs : loc) : M loc :=
  reverse_adj ⇇ reverse_adj_vazia prs ;;
  d ⇇ dict_get prs ;;
  _ ⇇ for_each (map_to_list d)
        (λ item _,
           deps ⇇ as_ref item.2 ;;
           s ⇇ set_get deps ;;
           for_each (elements s) (reverse_add reverse_adj item.1) ()) () ;;
  ret reverse_adj.

(** The body of [for m in reverse_adj.get(n, ())]; the state is [fila]. *)
Definition kahn_visit (in_degree : loc) (m : string) (fila : list string)
    : M (list string) :=
  ind ⇇ dict_get in_degree ;;
  match ind !! m with
  | None => raise KeyError
  | Some v =>
      d ⇇ as_int v ;;
      _ ⇇ dict_set in_degree m (VInt (d - 1)) ;;
      if decide ((d - 1)%Z = 0%Z) then ret (fila ++ [m]) else ret fila
  end.

(** [reverse_adj.get(n, ())], iterated: the elements of the set, or none. *)
Definition successors (reverse_adj : loc) (n : string) : M (list string) :=
  ra ⇇ dict_get reverse_adj ;;
  match ra !! n with
  | None => ret []
  | Some v => r ⇇ as_ref v ;; s ⇇ set_get r ;; ret (elements s)
  end.

Fixpoint kahn_loop (fuel : nat) (reverse_adj in_degree : loc)
    (fila ordem : list string) : M (list string) :=
  match fila with
  | [] => ret ordem
  | n :: fila' =>
      match fuel with
      | O => out_of_fuel
      | S fuel' =>
          ms ⇇ successors reverse_adj n ;;
          fila'' ⇇ for_each ms (kahn_visit in_degree) fila' ;;
          kahn_loop fuel' reverse_adj in_degree fila'' (ordem ++ [n])
      end
  end.

(** Kahn's algorithm on the dictionary under [prs]. *)
Definition kahn (prs : loc) : M (list string) :=
  in_degree ⇇ in_degree_of prs ;;
  fila ⇇ grau_zero in_degree ;;
  reverse_adj ⇇ reverse_adj_of prs ;;
  d ⇇ dict_get prs ;;
  ordem ⇇ kahn_loop (size d) reverse_adj in_degree fila [] ;;
  d ⇇ dict_get prs ;;
  if decide (length ordem ≠ size d) then raise CycleError else ret ordem.

Definition ordenacao_topologica (self : loc) : M (list string) := kahn self.

Definition tem_ciclo (self : loc) : M bool :=
  catch_cycle (_ ⇇ ordenacao_topologica self ;; ret false) (ret true).

(** [{n: {p for p in self._pre_reqs.get(n, set()) if p in necessario}
      for n in necessario}]: a new dictionary of new sets. *)
Definition sub_prs_of (self necessario : loc) : M loc :=
  sub_prs ⇇ alloc (ODict ∅) ;;
  nec ⇇ set_get necessario ;;
  _ ⇇ for_each (elements nec)
        (λ node _,
           r ⇇ get_or_new self node ;;
           s ⇇ set_get r ;;
           nec' ⇇ set_get necessario ;;
           novo ⇇ alloc (OSet (filter (λ p, p ∈ nec') s)) ;;
           dict_set sub_prs node (VRef novo)) () ;;
  ret sub_prs.

Definition plano_de_estudo_para (self : loc) (alvo : string) : M (list string) :=
  d ⇇ dict_get self ;;
  match d !! alvo with
  | None => raise KeyError
  | Some _ =>
      todos ⇇ todos_prerequisitos self alvo ;;
      necessario ⇇ alloc (OSet (list_to_set todos)) ;;
      _ ⇇ set_add necessario alvo ;;
      sub_prs ⇇ sub_prs_of self necessario ;;
      kahn sub_prs
  end.

(** The body of [for m in necessario] inside [for n in disponiveis]. *)
Definition nivel_visit (sub_prs in_degree proximos : loc) (n m : string)
    (_ : unit) : M unit :=
  r ⇇ get_or_new sub_prs m ;;
  s ⇇ set_get r ;;
  if decide (n ∈ s) then
    ind ⇇ dict_get in_degree ;;
    match ind !! m with
    | None => raise KeyError
    | Some v =>
        d ⇇ as_int v ;;
        _ ⇇ dict_set in_degree m (VInt (d - 1)) ;;
        if decide ((d - 1)%Z = 0%Z) then set_add proximos m else ret ()
    end
  else ret ().

Definition nivel_node (necessario sub_prs in_degree proximos processados : loc)
    (n : string) (_ : unit) : M unit :=
  _ ⇇ set_add processados n ;;
  nec ⇇ set_get necessario ;;
  for_each (elements nec) (nivel_visit sub_prs in_degree proximos n) ().

(** The state of the [while] loop: the reference [disponiveis] holds and the
    references appended to [niveis]. *)
Fixpoint niveis_loop (fuel : nat)
    (necessario sub_prs in_degree processados disponiveis : loc)
    (niveis : list loc) : M (list loc) :=
  disp ⇇ set_get disponiveis ;;
  if decide (disp = ∅) then ret niveis
  else
    match fuel with
    | O => out_of_fuel
    | S fuel' =>
        nivel ⇇ alloc (OSet disp) ;;
        proximos ⇇ alloc (OSet ∅) ;;
        _ ⇇ for_each (elements disp)
              (nivel_node necessario sub_prs in_degree proximos processados) () ;;
        prox ⇇ set_get proximos ;;
        proc ⇇ set_get processados ;;
        disponiveis' ⇇ alloc (OSet (prox ∖ proc)) ;;
        niveis_loop fuel' necessario sub_prs in_degree processados disponiveis'
          (niveis ++ [nivel])
    end.

(** The sets a list of references leads to. *)
Fixpoint read_sets (ls : list loc) : M (list (gset string)) :=
  match ls with
  | [] => ret []
  | l :: ls' => s ⇇ set_get l ;; ss ⇇ read_sets ls' ;; ret (s :: ss)
  end.

Definition progressao_por_niveis_para (self : loc) (alvo : string)
    : M (list (gset string)) :=
  ordem ⇇ plano_de_estudo_para self alvo ;;
  necessario ⇇ alloc (OSet (list_to_set ordem)) ;;
  sub_prs ⇇ sub_prs_of self necessario ;;
  in_degree ⇇ in_degree_of sub_prs ;;
  zeros ⇇ grau_zero in_degree ;;
  disponiveis ⇇ alloc (OSet (list_to_set zeros)) ;;
  processados ⇇ alloc (OSet ∅) ;;
  nec ⇇ set_get necessario ;;
  niveis ⇇ niveis_loop (size nec) necessario sub_prs in_degree processados
             disponiveis [] ;;
  read_sets niveis.

(** [__repr__] *)
Definition repr (self : loc) : M string :=
  d ⇇ dict_get self ;;
  ret ("RedeDisciplinas(" +:+ pretty (size d) +:+ " disciplinas)")%string.

Definition run_query (self : loc) (q : query) : M answer :=
  match q with
  | ListCourses => l ⇇ disciplinas self ;; ret (Courses l)
  | DirectPrerequisites course =>
      l ⇇ prerequisitos_diretos self course ;; ret (Courses l)
  | AllPrerequisites course =>
      l ⇇ todos_prerequisitos self course ;; ret (Courses l)
  | DependsOn a b => r ⇇ existe_dependencia self a b ;; ret (Truth r)
  | HasCycle => r ⇇ tem_ciclo self ;; ret (Truth r)
  | TopologicalOrder => l ⇇ ordenacao_topologica self ;; ret (Courses l)
  | StudyPlan target => l ⇇ plano_de_estudo_para self target ;; ret (Courses l)
  | LevelProgression target =>
      l ⇇ progressao_por_niveis_para self target ;; ret (Levels l)
  end.

Definition apply_mutation (self : loc) (mu : mutation) : M unit :=
  match mu with
  | AddCourse id => adicionar_disciplina self id
  | RemoveCourse id => remover_disciplina self id
  | AddPrerequisite pre course => adicionar_pre_requisito self pre course
  | RemovePrerequisite pre course => remover_pre_requisito self pre course
  end.

(** *** What a method may do to a store

    [keeps h0 h]: every object of [h0] is in [h], as it was. *)
Definition keeps (h0 h : heap) : Prop :=
  ∀ l o, h0 !! l = Some o → h !! l = Some o.

(** A reference to an object that [h0] does not hold. *)
Definition local (h0 : heap) (l : loc) : Prop := h0 !! l = None.

(** The dictionaries outside [h0] refer to sets outside [h0] only. *)
Definition local_dicts (h0 h : heap) : Prop :=
  ∀ l d k r,
    local h0 l → h !! l = Some (ODict d) → d !! k = Some (VRef r) → local h0 r.

(** [c] changes no object of [h0], however it ends, and its result
    satisfies [post]. *)
Definition frames {A} (h0 : heap) (post : A → Prop) (c : M A) : Prop :=
  ∀ h, keeps h0 h → local_dicts h0 h →
    keeps h0 (c h).2 ∧ local_dicts h0 (c h).2
    ∧ ∀ a, (c h).1 = Ok a → post a.

(** [self._pre_reqs] is a dictionary of sets. *)
Definition is_set_ref (h : heap) (v : value) : Prop :=
  ∃ r s, v = VRef r ∧ h !! r = Some (OSet s).

Definition well_formed (h : heap) (self : loc) : Prop :=
  ∃ d, h !! self = Some (ODict d) ∧ ∀ k v, d !! k = Some v → is_set_ref h v.

(** [c] leaves [self._pre_reqs] a dictionary of sets. *)
Definition preserves {A} (self : loc) (c : M A) : Prop :=
  ∀ h, well_formed h self → well_formed (c h).2 self.

(** [RedeDisciplinas()] in an empty store, then the calls of [arestas] in
    turn: the object and the store it lives in. *)
Definition construir (arestas : list (string * string)) : loc * heap :=
  match nova ∅ with
  | (Ok self, h) =>
      (self,
       (for_each arestas
          (λ a _, adicionar_pre_requisito self a.1 a.2) () h).2)
  | (_, h) => (1%positive, h)
  end.

Definition diamante : loc * heap :=
  construir [("A", "B"); ("A", "C"); ("B", "D"); ("C", "D")]%string.

Definition ciclo2 : loc * heap :=
  construir [("A", "B"); ("B", "A")]%string.

(** The two embeddings give the same outcome. *)
Definition agrees {A} (r : result A) (o : outcome A) : Prop :=
  match r, o with
  | Ok a, Ret b => a = b
  | Err e, Raise e' => e = e'
  | _, _ => False
  end.

End Store.

(** * Verification *)

(** ** Edges and closures *)

Lemma get_prs_Some prs c deps : prs !! c = Some deps → get_prs prs c = deps.
Proof. unfold get_prs. by intros ->. Qed.

Lemma get_prs_None prs c : prs !! c = None → get_prs prs c = ∅.
Proof. unfold get_prs. by intros ->. Qed.

Lemma edge_get_prs prs p c : edge prs p c ↔ p ∈ get_prs prs c.
Proof.
  unfold edge. split.
  - intros (deps & Hl & Hin). by rewrite (get_prs_Some _ _ _ Hl).
  - destruct (prs !! c) as [deps|] eqn:Hl.
    + rewrite (get_prs_Some _ _ _ Hl). eauto.
    + rewrite (get_prs_None _ _ Hl). set_solver.
Qed.

Lemma ancestor_is_key prs a b : ancestor prs a b → is_Some (prs !! b).
Proof.
  induction 1 as [x y (deps & Hl & _)|]; eauto.
Qed.

Lemma ancestor_closed_key prs a b : closed prs → ancestor prs a b → is_Some (prs !! a).
Proof.
  intros Hc. induction 1 as [x y (deps & Hl & Hin)|x y z (deps & Hl & Hin) _ _]; eauto.
Qed.

(** A set that contains the direct prerequisites of [b] and is closed under
    taking prerequisites contains every ancestor of [b]. *)
Lemma ancestor_in_closed_set prs (X : gset string) a b :
  get_prs prs b ⊆ X →
  (∀ v, v ∈ X → get_prs prs v ⊆ X) →
  ancestor prs a b → a ∈ X.
Proof.
  intros Hb HX Hanc. revert Hb.
  induction Hanc as [x y He|x y z He _ IH]; intros Hb.
  - apply Hb. by apply edge_get_prs.
  - apply (HX y); [by apply IH | by apply edge_get_prs].
Qed.

(** ** Termination measure of the searches *)

Lemma weight_empty V : weight ∅ V = 0.
Proof. unfold weight. by rewrite map_to_list_empty. Qed.

Lemma weight_insert prs k deps V :
  prs !! k = None →
  weight (<[k := deps]> prs) V
  = (if decide (k ∈ V) then 0 else size deps) + weight prs V.
Proof.
  intros Hk. unfold weight. by rewrite map_to_list_insert.
Qed.

Lemma weight_visit prs cur V :
  cur ∉ V →
  weight prs ({[cur]} ∪ V) + size (get_prs prs cur) = weight prs V.
Proof.
  intros Hcur. induction prs as [|k deps prs Hk IH] using map_ind.
  - rewrite !weight_empty, get_prs_None by apply lookup_empty.
    by rewrite size_empty.
  - rewrite !weight_insert by done.
    destruct (decide (k = cur)) as [->|Hne].
    + rewrite (get_prs_Some _ _ deps) by apply lookup_insert_eq.
      rewrite get_prs_None, size_empty in IH by done.
      rewrite decide_True by set_solver. rewrite decide_False by done. lia.
    + replace (get_prs (<[k:=deps]> prs) cur) with (get_prs prs cur)
        by (unfold get_prs; by rewrite lookup_insert_ne).
      destruct (decide (k ∈ V)).
      * rewrite decide_True by set_solver. lia.
      * rewrite decide_False by set_solver. lia.
Qed.

Lemma weight_total prs : weight prs ∅ = total_prs prs.
Proof.
  unfold weight, total_prs. induction (map_to_list prs) as [|kv l IH]; [done|].
  simpl. rewrite IH. rewrite decide_False by set_solver. done.
Qed.

(** ** The depth-first searches *)

Lemma todos_loop_total prs fuel V pilha :
  length pilha + weight prs V ≤ fuel →
  ∃ V', todos_loop fuel prs V pilha = Ret V'.
Proof.
  revert V pilha. induction fuel as [|fuel IH]; intros V pilha Hf.
  - destruct pilha; simpl in *; [eauto | lia].
  - destruct pilha as [|cur pilha]; simpl in *; [eauto|].
    case_decide as Hcur.
    + apply IH. lia.
    + apply IH. pose proof (weight_visit prs cur V Hcur) as Hw.
      rewrite length_app, length_reverse.
      change (length (elements (get_prs prs cur))) with (size (get_prs prs cur)).
      lia.
Qed.

Lemma todos_loop_incl prs fuel V pilha V' :
  todos_loop fuel prs V pilha = Ret V' →
  V ⊆ V' ∧ (∀ x, x ∈ pilha → x ∈ V')
  ∧ (∀ v, v ∈ V' → v ∉ V → get_prs prs v ⊆ V').
Proof.
  revert V pilha. induction fuel as [|fuel IH]; intros V pilha Hrun.
  - destruct pilha; simplify_eq/=. set_solver.
  - destruct pilha as [|cur pilha]; simplify_eq/=; [set_solver|].
    case_decide as Hcur.
    + destruct (IH _ _ Hrun) as (HV & Hp & Hcl). split_and!; [done| |done].
      intros x [->|Hx]%elem_of_cons; [set_solver | by apply Hp].
    + destruct (IH _ _ Hrun) as (HV & Hp & Hcl). split_and!.
      * set_solver.
      * intros x [->|Hx]%elem_of_cons; [set_solver|].
        apply Hp. set_solver.
      * intros v Hv HvV. destruct (decide (v = cur)) as [->|Hne].
        -- intros p Hpin. apply Hp. rewrite elem_of_app, elem_of_reverse.
           left. by apply elem_of_elements.
        -- apply Hcl; [done | set_solver].
Qed.

Lemma todos_loop_sound prs (A : string → Prop) fuel V pilha V' :
  (∀ x y, A y → x ∈ get_prs prs y → A x) →
  todos_loop fuel prs V pilha = Ret V' →
  (∀ x, x ∈ V → A x) → (∀ x, x ∈ pilha → A x) →
  ∀ x, x ∈ V' → A x.
Proof.
  intros HA. revert V pilha. induction fuel as [|fuel IH]; intros V pilha Hrun HV Hp.
  - destruct pilha; simplify_eq/=. done.
  - destruct pilha as [|cur pilha]; simplify_eq/=; [done|].
    case_decide as Hcur.
    + eapply IH; [done..|]. intros x Hx. apply Hp. set_solver.
    + eapply IH; [done| |].
      * intros x [->%elem_of_singleton|Hx]%elem_of_union; [|by apply HV].
        apply Hp. set_solver.
      * intros x [Hx%elem_of_reverse%elem_of_elements|Hx]%elem_of_app.
        -- apply (HA x cur); [|done]. apply Hp. set_solver.
        -- apply Hp. set_solver.
Qed.

Lemma todos_visitas_spec prs fuel V pilha V' :
  todos_loop fuel prs V pilha = Ret V' →
  NoDup (todos_visitas fuel prs V pilha)
  ∧ (∀ x, x ∈ todos_visitas fuel prs V pilha → x ∉ V)
  ∧ V' = list_to_set (todos_visitas fuel prs V pilha) ∪ V.
Proof.
  revert V pilha. induction fuel as [|fuel IH]; intros V pilha Hrun.
  - destruct pilha; simplify_eq/=. split_and!; [constructor|set_solver|set_solver].
  - destruct pilha as [|cur pilha]; simplify_eq/=.
    { split_and!; [constructor|set_solver|set_solver]. }
    case_decide as Hcur; [by apply IH|].
    destruct (IH _ _ Hrun) as (Hnd & Hfresh & ->). split_and!.
    + constructor; [|done]. intros Hin. apply Hfresh in Hin. set_solver.
    + intros x [->|Hx]%elem_of_cons; [done|]. apply Hfresh in Hx. set_solver.
    + set_solver.
Qed.

Lemma existe_loop_todos prs a fuel V pilha V' :
  todos_loop fuel prs V pilha = Ret V' →
  a ∉ V →
  existe_loop fuel prs a V pilha = Ret (bool_decide (a ∈ V')).
Proof.
  revert V pilha. induction fuel as [|fuel IH]; intros V pilha Hrun Ha.
  - destruct pilha; simplify_eq/=. by rewrite bool_decide_eq_false_2.
  - destruct pilha as [|cur pilha]; simplify_eq/=.
    { by rewrite bool_decide_eq_false_2. }
    destruct (decide (cur = a)) as [->|Hne].
    + rewrite bool_decide_eq_true_2; [done|].
      apply (todos_loop_incl prs (S fuel) V (a :: pilha)); [done | set_solver].
    + case_decide as Hcur; apply IH; [done..|set_solver].
Qed.

(** The ancestors of [d], as the search computes them. *)
Lemma todos_loop_ancestors prs d deps :
  prs !! d = Some deps →
  ∃ V, todos_loop (size deps + total_prs prs) prs ∅ (reverse (elements deps)) = Ret V
       ∧ ∀ x, x ∈ V ↔ ancestor prs x d.
Proof.
  intros Hd.
  destruct (todos_loop_total prs (size deps + total_prs prs) ∅ (reverse (elements deps)))
    as [V HV].
  { rewrite length_reverse, weight_total. done. }
  exists V. split; [done|]. intros x. split.
  - revert x. eapply todos_loop_sound; [|done|set_solver|].
    + intros x y Hy Hx. eapply tc_l; [|done]. by apply edge_get_prs.
    + intros x Hx%elem_of_reverse%elem_of_elements. apply tc_once. by exists deps.
  - destruct (todos_loop_incl _ _ _ _ _ HV) as (_ & Hp & Hcl).
    apply ancestor_in_closed_set.
    + rewrite (get_prs_Some _ _ _ Hd). intros p Hpin. apply Hp.
      rewrite elem_of_reverse. by apply elem_of_elements.
    + intros v Hv. apply Hcl; [done | set_solver].
Qed.

Lemma ancestors_of_spec prs a b : a ∈ ancestors_of prs b ↔ ancestor prs a b.
Proof.
  unfold ancestors_of. destruct (prs !! b) as [deps|] eqn:Hb.
  - rewrite (get_prs_Some _ _ _ Hb).
    destruct (todos_loop_ancestors prs b deps Hb) as (V & -> & HV). apply HV.
  - rewrite (get_prs_None _ _ Hb), elements_empty, size_empty, reverse_nil.
    assert (∀ fuel, todos_loop fuel prs ∅ [] = Ret ∅) as -> by (by intros []).
    split; [set_solver|]. intros [? ?]%ancestor_is_key. congruence.
Qed.

Lemma acyclicb_spec prs : acyclicb prs = true ↔ acyclic prs.
Proof.
  unfold acyclicb, acyclic. rewrite bool_decide_eq_true. split.
  - intros Hall x Hx. apply (Hall x); [|by apply ancestors_of_spec].
    apply elem_of_dom. by eapply ancestor_is_key.
  - intros Hac x _ Hx%ancestors_of_spec. by apply (Hac x).
Qed.

Lemma closedb_spec prs : closedb prs = true ↔ closed prs.
Proof.
  unfold closedb, closed. rewrite bool_decide_eq_true. split.
  - intros Hall c deps p Hc Hp. apply elem_of_dom. by apply (Hall c deps Hc).
  - intros Hcl c deps Hc p Hp. apply elem_of_dom. by eapply Hcl.
Qed.

Lemma cycle_or_acyclic prs : has_cycle prs ∨ acyclic prs.
Proof.
  destruct (acyclicb prs) eqn:Hb.
  - right. by apply acyclicb_spec.
  - left. unfold acyclicb in Hb. apply bool_decide_eq_false in Hb.
    apply (not_set_Forall_Exists _) in Hb as (x & _ & Hx).
    exists x. apply ancestors_of_spec. by apply dec_stable.
Qed.

Lemma has_cycle_not_acyclic prs : has_cycle prs → ¬ acyclic prs.
Proof. intros [x Hx] Hac. by apply (Hac x). Qed.

Lemma has_cycle_not_acyclic_2 prs : acyclic prs → ¬ has_cycle prs.
Proof. intros Hac [x Hx]. by apply (Hac x). Qed.

(** ** Acyclic relations on a finite set have minimal elements *)

Lemma minimal_element_aux prs n (X : gset string) x :
  acyclic prs → size X ≤ n → x ∈ X →
  ∃ m, m ∈ X ∧ rtc (edge prs) m x ∧ ∀ p, p ∈ get_prs prs m → p ∉ X.
Proof.
  intros Hac. revert X x. induction n as [|n IH]; intros X x Hn Hx.
  - assert (size X ≠ 0); [|lia]. apply size_non_empty_iff. set_solver.
  - destruct (decide (set_Exists (λ p, p ∈ X) (get_prs prs x))) as [(p & Hp & HpX)|Hno].
    + assert (p ≠ x) as Hpx.
      { intros ->. apply (Hac x). apply tc_once. by apply edge_get_prs. }
      destruct (IH (X ∖ {[x]}) p) as (m & Hm & Hmp & Hmin).
      * assert (size (X ∖ {[x]}) = size X - size ({[x]} : gset string)) as Hsz
          by (apply size_difference; set_solver).
        rewrite size_singleton in Hsz. lia.
      * set_solver.
      * exists m. split_and!; [set_solver| |].
        { eapply rtc_r; [done|]. by apply edge_get_prs. }
        intros q Hq HqX. destruct (decide (q = x)) as [->|Hqx].
        -- apply (Hac x). eapply tc_r; [|by apply edge_get_prs].
           eapply tc_rtc_r; [|done]. apply tc_once. by apply edge_get_prs.
        -- apply (Hmin q Hq). set_solver.
    + exists x. split_and!; [done|done|]. intros p Hp HpX. apply Hno. by exists p.
Qed.

Lemma minimal_element prs (X : gset string) :
  acyclic prs → X ≠ ∅ → ∃ m, m ∈ X ∧ ∀ p, p ∈ get_prs prs m → p ∉ X.
Proof.
  intros Hac [x Hx]%set_choose_L.
  destruct (minimal_element_aux prs (size X) X x) as (m & ? & _ & ?); eauto.
Qed.

(** ** Topologically sorted lists *)

Lemma topo_from_app prs seen l1 l2 :
  topo_from prs seen (l1 ++ l2)
  ↔ topo_from prs seen l1 ∧ topo_from prs (list_to_set l1 ∪ seen) l2.
Proof.
  revert seen. induction l1 as [|m l1 IH]; intros seen; simpl.
  - rewrite (left_id_L ∅ (∪)). naive_solver.
  - rewrite IH. replace ({[m]} ∪ list_to_set l1 ∪ seen)
      with (list_to_set l1 ∪ ({[m]} ∪ seen) : gset string) by set_solver.
    naive_solver.
Qed.

Lemma topo_from_edge prs l l1 m l2 p :
  topo_from prs ∅ l → l = l1 ++ m :: l2 → p ∈ get_prs prs m → p ∈ l1.
Proof.
  intros Ht -> Hp. apply topo_from_app in Ht as (_ & Hm & _). set_solver.
Qed.

Lemma topo_from_ancestor prs l p m :
  topo_from prs ∅ l → ancestor prs p m →
  ∀ l1 l2, l = l1 ++ m :: l2 → p ∈ l1.
Proof.
  intros Ht. induction 1 as [p m He|p y m He _ IH]; intros l1 l2 Hl.
  - eapply topo_from_edge; [done..|]. by apply edge_get_prs.
  - pose proof (IH l1 l2 Hl) as Hy.
    apply list_elem_of_split in Hy as (a & b & ->).
    rewrite <-app_assoc in Hl. simpl in Hl.
    assert (p ∈ a); [|set_solver].
    eapply topo_from_edge; [done..|]. by apply edge_get_prs.
Qed.

Lemma topo_from_before prs l p m :
  topo_from prs ∅ l → m ∈ l → ancestor prs p m → before l p m.
Proof.
  intros Ht (l1 & l2 & ->)%list_elem_of_split Hanc.
  exists l1, l2. split; [done|]. by eapply topo_from_ancestor.
Qed.

Lemma topo_from_no_cycle prs l x :
  topo_from prs ∅ l → NoDup l → ancestor prs x x → x ∉ l.
Proof.
  intros Ht Hnd Hx (l1 & l2 & ->)%list_elem_of_split.
  assert (x ∈ l1) by (by eapply topo_from_ancestor).
  apply NoDup_app in Hnd as (_ & Hdisj & _). apply (Hdisj x); set_solver.
Qed.

(** ** Kahn's algorithm: the reverse adjacency *)

Lemma bind_Ret {A B} (a : A) (k : A → outcome B) : (Ret a ≫= k) = k a.
Proof. done. Qed.

Lemma get_prs_insert prs k deps c :
  get_prs (<[k := deps]> prs) c = if decide (k = c) then deps else get_prs prs c.
Proof.
  unfold get_prs. case_decide as Hk.
  - subst. by rewrite lookup_insert_eq.
  - by rewrite lookup_insert_ne.
Qed.

Lemma reverse_add_Some node p ra s :
  ra !! p = Some s → reverse_add node p ra = Ret (<[p := {[node]} ∪ s]> ra).
Proof. unfold reverse_add. by intros ->. Qed.

Lemma reverse_add_loop node ps ra :
  (∀ p, p ∈ ps → is_Some (ra !! p)) →
  ∃ ra', for_each ps (reverse_add node) ra = Ret ra'
    ∧ (∀ k, is_Some (ra' !! k) ↔ is_Some (ra !! k))
    ∧ (∀ k m, m ∈ get_prs ra' k ↔ m ∈ get_prs ra k ∨ (m = node ∧ k ∈ ps)).
Proof.
  revert ra. induction ps as [|p ps IH]; intros ra Hkeys; simpl.
  - exists ra. split_and!; [done|done|]. set_solver.
  - destruct (Hkeys p) as [s Hs]; [set_solver|].
    rewrite (reverse_add_Some _ _ _ _ Hs), bind_Ret.
    destruct (IH (<[p := {[node]} ∪ s]> ra)) as (ra' & Hrun & Hdom & Hmem).
    { intros q Hq. apply lookup_insert_is_Some'. right. apply Hkeys. set_solver. }
    exists ra'. split_and!; [done| |].
    + intros k. rewrite Hdom, lookup_insert_is_Some'. split; [|by right].
      intros [->|?]; [by eexists | done].
    + intros k m. rewrite Hmem, get_prs_insert. case_decide as Hk.
      * subst k. rewrite (get_prs_Some _ _ _ Hs). set_solver.
      * set_solver.
Qed.

Lemma reverse_adj_loop (items : list (string * gset string)) ra :
  (∀ node deps p, (node, deps) ∈ items → p ∈ deps → is_Some (ra !! p)) →
  ∃ ra',
    for_each items
      (λ item ra, for_each (elements item.2) (reverse_add item.1) ra) ra = Ret ra'
    ∧ (∀ k, is_Some (ra' !! k) ↔ is_Some (ra !! k))
    ∧ (∀ k m, m ∈ get_prs ra' k
              ↔ m ∈ get_prs ra k ∨ ∃ deps, (m, deps) ∈ items ∧ k ∈ deps).
Proof.
  revert ra. induction items as [|[node deps] items IH]; intros ra Hkeys; simpl.
  - exists ra. split_and!; [done|done|]. set_solver.
  - destruct (reverse_add_loop node (elements deps) ra) as (ra1 & -> & Hdom1 & Hmem1).
    { intros p Hp%elem_of_elements. apply (Hkeys node deps p); [|done].
      apply elem_of_cons. by left. }
    rewrite bind_Ret.
    destruct (IH ra1) as (ra' & Hrun & Hdom & Hmem).
    { intros n d p Hin Hp. apply Hdom1. apply (Hkeys n d p); [|done].
      apply elem_of_cons. by right. }
    exists ra'. split_and!; [done| |].
    + intros k. by rewrite Hdom, Hdom1.
    + intros k m. rewrite Hmem, Hmem1. setoid_rewrite elem_of_cons.
      setoid_rewrite elem_of_elements. split.
      * intros [[?|[-> ?]]|(d & ? & ?)]; eauto 6.
      * intros [?|(d & [[= -> ->]|?] & ?)]; eauto 6.
Qed.

Lemma reverse_adj_of_spec prs :
  closed prs →
  ∃ ra, reverse_adj_of prs = Ret ra ∧ ∀ n m, m ∈ get_prs ra n ↔ edge prs n m.
Proof.
  intros Hcl. unfold reverse_adj_of.
  destruct (reverse_adj_loop (map_to_list prs) ((λ _, ∅) <$> prs))
    as (ra & Hrun & _ & Hmem).
  { intros node deps p Hin%elem_of_map_to_list Hp.
    rewrite lookup_fmap. apply fmap_is_Some. by eapply Hcl. }
  exists ra. split; [done|]. intros n m. rewrite Hmem.
  assert (get_prs ((λ _ : gset string, (∅ : gset string)) <$> prs) n = ∅) as ->.
  { unfold get_prs. rewrite lookup_fmap. by destruct (prs !! n). }
  unfold edge. setoid_rewrite elem_of_map_to_list. set_solver.
Qed.

(** ** Kahn's algorithm: the loop *)

Lemma filter_ext_elem {A} (P Q : A → Prop) `{∀ x, Decision (P x)}
    `{∀ x, Decision (Q x)} (l : list A) :
  (∀ x, x ∈ l → P x ↔ Q x) → filter P l = filter Q l.
Proof.
  induction l as [|x l IH]; intros Hext; [done|].
  rewrite !filter_cons. rewrite IH by (intros y Hy; apply Hext; set_solver).
  destruct (decide (P x)) as [HP|HP], (decide (Q x)) as [HQ|HQ]; try done.
  - apply Hext in HP; [done | set_solver].
  - apply Hext in HQ; [done | set_solver].
Qed.

Lemma kahn_visit_Some m ind fila d :
  ind !! m = Some d →
  kahn_visit m (ind, fila)
  = Ret (<[m := (d - 1)%Z]> ind, fila ++ filter (λ x, ind !! x = Some 1%Z) [m]).
Proof.
  intros Hd. unfold kahn_visit. simpl. rewrite Hd. rewrite filter_cons, filter_nil.
  case_decide as Hz.
  - rewrite decide_True; [done|]. rewrite Hd. f_equal. lia.
  - rewrite decide_False; [by rewrite app_nil_r|]. rewrite Hd. intros [= ->]. lia.
Qed.

Lemma kahn_visit_loop ms ind fila :
  NoDup ms → (∀ m, m ∈ ms → is_Some (ind !! m)) →
  ∃ ind',
    for_each ms kahn_visit (ind, fila)
    = Ret (ind', fila ++ filter (λ m, ind !! m = Some 1%Z) ms)
    ∧ ∀ k, ind' !! k
           = if decide (k ∈ ms) then (λ d, (d - 1)%Z) <$> ind !! k else ind !! k.
Proof.
  revert ind fila. induction ms as [|m ms IH]; intros ind fila Hnd Hkeys;
    cbn [for_each].
  - exists ind. rewrite filter_nil, app_nil_r. split; [done|].
    intros k. rewrite decide_False; [done | set_solver].
  - apply NoDup_cons in Hnd as [Hm Hnd].
    destruct (Hkeys m) as [d Hd]; [set_solver|].
    rewrite (kahn_visit_Some _ _ _ _ Hd), bind_Ret.
    destruct (IH (<[m := (d - 1)%Z]> ind) (fila ++ filter (λ x, ind !! x = Some 1%Z) [m]))
      as (ind' & -> & Hind'); [done| |].
    { intros x Hx. apply lookup_insert_is_Some'. right. apply Hkeys. set_solver. }
    exists ind'. split.
    + f_equal. f_equal. rewrite <-app_assoc. f_equal.
      rewrite (filter_ext_elem (λ x, <[m := (d - 1)%Z]> ind !! x = Some 1%Z)
                 (λ x, ind !! x = Some 1%Z) ms).
      * by rewrite <-filter_app.
      * intros x Hx. rewrite lookup_insert_ne; [done|]. intros ->. done.
    + intros k. rewrite Hind'. destruct (decide (k = m)) as [->|Hkm].
      * rewrite decide_False by done. rewrite lookup_insert_eq, Hd.
        rewrite decide_True by set_solver. done.
      * rewrite lookup_insert_ne by done.
        destruct (decide (k ∈ ms)).
        -- rewrite decide_True by set_solver. done.
        -- rewrite decide_False by set_solver. done.
Qed.

Lemma size_difference_snoc (deps X : gset string) n :
  n ∉ X → n ∈ deps → size (deps ∖ (X ∪ {[n]})) + 1 = size (deps ∖ X).
Proof.
  intros HnO Hn.
  assert (deps ∖ X = {[n]} ∪ deps ∖ (X ∪ {[n]})) as ->.
  { apply set_eq. intros x. destruct (decide (x = n)); set_solver. }
  rewrite (size_union {[n]} (deps ∖ (X ∪ {[n]}))) by set_solver.
  rewrite size_singleton. lia.
Qed.

Lemma size_difference_zero (deps X : gset string) :
  size (deps ∖ X) = 0 ↔ deps ⊆ X.
Proof.
  rewrite size_empty_iff. split.
  - intros HE x Hx. destruct (decide (x ∈ X)); [done|]. set_solver.
  - set_solver.
Qed.

Lemma keys_length (prs : gmap string (gset string)) (l : list string) :
  NoDup l → (∀ x, x ∈ l → is_Some (prs !! x)) → length l ≤ size prs.
Proof.
  intros Hnd Hkeys. rewrite <-(size_dom (D := gset string) prs).
  change (size (dom prs)) with (length (elements (dom prs : gset string))).
  apply submseteq_length, NoDup_submseteq; [done|].
  intros x Hx. apply elem_of_elements, elem_of_dom. by apply Hkeys.
Qed.

Lemma grau_zero_spec (ind : gmap string Z) m :
  m ∈ grau_zero ind ↔ ind !! m = Some 0%Z.
Proof.
  unfold grau_zero. rewrite list_elem_of_fmap. split.
  - intros ([k d] & -> & [Hd Hin%elem_of_map_to_list]%list_elem_of_filter).
    simpl in *. by subst.
  - intros Hm. exists (m, 0%Z). split; [done|].
    apply list_elem_of_filter. split; [done|]. by apply elem_of_map_to_list.
Qed.

Lemma grau_zero_NoDup (ind : gmap string Z) : NoDup (grau_zero ind).
Proof.
  unfold grau_zero. eapply sublist_NoDup; [apply (NoDup_fst_map_to_list ind)|].
  apply fmap_sublist, sublist_filter.
Qed.

Lemma kahn_inv_init prs :
  kahn_inv prs (in_degree_of prs) (grau_zero (in_degree_of prs)) [].
Proof.
  unfold kahn_inv. rewrite list_to_set_nil. split_and!.
  - apply grau_zero_NoDup.
  - intros m deps Hm. unfold in_degree_of. rewrite lookup_fmap, Hm. simpl.
    do 3 f_equal. set_solver.
  - intros m. rewrite app_nil_l, grau_zero_spec. unfold in_degree_of.
    rewrite lookup_fmap. split.
    + destruct (prs !! m) as [deps|]; [|done]. simpl. intros [= Hsz].
      exists deps. split; [done|].
      assert (size deps = 0) as ->%size_empty_iff by lia. set_solver.
    + intros (deps & -> & Hsub). simpl.
      assert (deps = ∅) as -> by set_solver. by rewrite size_empty.
  - done.
Qed.

Section kahn_correct.
Context (prs ra : gmap string (gset string)).
Hypothesis Hra : ∀ n m, m ∈ get_prs ra n ↔ edge prs n m.

Lemma kahn_inv_step ind n fila ordem :
  kahn_inv prs ind (n :: fila) ordem →
  ∃ st, for_each (elements (get_prs ra n)) kahn_visit (ind, fila) = Ret st
        ∧ kahn_inv prs st.1 st.2 (ordem ++ [n]).
Proof.
  intros (Hnd & Hdeg & Hmem & Htopo).
  set (seen := list_to_set ordem : gset string) in *.
  assert (n ∉ seen) as Hn_seen.
  { apply NoDup_app in Hnd as (_ & Hdisj & _). intros Hn%elem_of_list_to_set.
    apply (Hdisj n Hn). set_solver. }
  assert (∀ m, m ∈ elements (get_prs ra n)
               ↔ ∃ deps, prs !! m = Some deps ∧ n ∈ deps) as Hsucc.
  { intros m. by rewrite elem_of_elements, Hra. }
  destruct (kahn_visit_loop (elements (get_prs ra n)) ind fila)
    as (ind' & Hrun & Hind').
  { apply NoDup_elements. }
  { intros m (deps & Hm & _)%Hsucc. rewrite (Hdeg _ _ Hm). eauto. }
  eexists. split; [exact Hrun|]. simpl.
  set (novos := filter (λ m, ind !! m = Some 1%Z) (elements (get_prs ra n))).
  assert (∀ m, m ∈ novos
               ↔ ∃ deps, prs !! m = Some deps ∧ n ∈ deps ∧ size (deps ∖ seen) = 1)
    as Hnovos.
  { intros m. unfold novos. rewrite list_elem_of_filter, Hsucc. split.
    - intros (Hone & deps & Hm & Hin). exists deps.
      rewrite (Hdeg _ _ Hm) in Hone. split_and!; [done..|].
      injection Hone. lia.
    - intros (deps & Hm & Hin & Hsz). split; [|eauto].
      rewrite (Hdeg _ _ Hm), Hsz. done. }
  assert (list_to_set (ordem ++ [n]) = seen ∪ {[n]}) as Hseen'
    by apply list_to_set_snoc_L.
  assert ((ordem ++ [n]) ++ fila ++ novos = (ordem ++ n :: fila) ++ novos) as Hshape
    by (by rewrite <-!app_assoc).
  unfold kahn_inv. rewrite Hseen', Hshape. split_and!.
  - apply NoDup_app. split_and!; [done| |].
    + intros m [deps [Hm Hsub]]%Hmem (deps' & Hm' & _ & Hsz)%Hnovos.
      simplify_eq. apply size_difference_zero in Hsub. lia.
    + apply NoDup_filter, NoDup_elements.
  - intros m deps Hm. rewrite Hind'. case_decide as Hin.
    + apply Hsucc in Hin as (deps' & Hm' & Hn). simplify_eq.
      rewrite (Hdeg _ _ Hm). simpl. f_equal.
      pose proof (size_difference_snoc deps seen n Hn_seen Hn). lia.
    + rewrite (Hdeg _ _ Hm). do 3 f_equal.
      assert (n ∉ deps) by (intros ?; apply Hin, Hsucc; eauto). set_solver.
  - intros m. rewrite elem_of_app, Hmem, Hnovos. split.
    + intros [(deps & Hm & Hsub)|(deps & Hm & Hn & Hsz)]; exists deps.
      * split; [done | set_solver].
      * split; [done|]. apply size_difference_zero.
        pose proof (size_difference_snoc deps seen n Hn_seen Hn). lia.
    + intros (deps & Hm & Hsub).
      destruct (decide (deps ⊆ seen)) as [?|Hnot]; [left; eauto|].
      right. exists deps.
      assert (n ∈ deps) as Hn.
      { destruct (decide (n ∈ deps)); [done|]. destruct Hnot. set_solver. }
      split_and!; [done..|]. apply size_difference_zero in Hsub.
      pose proof (size_difference_snoc deps seen n Hn_seen Hn). lia.
  - apply topo_from_app. split; [done|]. simpl. split; [|done].
    destruct (Hmem n) as [(deps & Hm & Hsub) _]; [set_solver|].
    rewrite (get_prs_Some _ _ _ Hm). set_solver.
Qed.

Lemma kahn_loop_spec fuel ind fila ordem :
  kahn_inv prs ind fila ordem →
  size prs ≤ fuel + length ordem →
  ∃ ordem' ind',
    kahn_loop fuel ra ind fila ordem = Ret ordem' ∧ kahn_inv prs ind' [] ordem'.
Proof.
  revert ind fila ordem.
  induction fuel as [|fuel IH]; intros ind fila ordem Hinv Hfuel.
  - destruct fila as [|n fila]; [simpl; eauto|]. exfalso.
    destruct Hinv as (Hnd & _ & Hmem & _).
    assert (length (ordem ++ n :: fila) ≤ size prs) as Hlen.
    { apply keys_length; [done|]. intros x (deps & -> & _)%Hmem. eauto. }
    rewrite length_app in Hlen. simpl in *. lia.
  - destruct fila as [|n fila]; [simpl; eauto|]. simpl.
    destruct (kahn_inv_step _ _ _ _ Hinv) as ([ind1 fila1] & -> & Hinv1).
    rewrite bind_Ret. apply (IH _ _ _ Hinv1).
    rewrite length_app. simpl. lia.
Qed.
End kahn_correct.

(** ** Kahn's algorithm: the result *)

Lemma kahn_inv_complete prs ind ordem :
  closed prs → acyclic prs → kahn_inv prs ind [] ordem →
  ∀ x, is_Some (prs !! x) → x ∈ ordem.
Proof.
  intros Hcl Hac (_ & _ & Hmem & _) x Hx.
  destruct (decide (x ∈ ordem)) as [|Hnot]; [done|]. exfalso.
  destruct (minimal_element prs (dom prs ∖ list_to_set ordem) Hac)
    as (m & [Hmd Hmo]%elem_of_difference & Hmin).
  { apply elem_of_dom in Hx. set_solver. }
  apply elem_of_dom in Hmd as [deps Hdeps].
  apply Hmo, elem_of_list_to_set. rewrite <-(app_nil_r ordem). apply Hmem.
  exists deps. split; [done|]. intros p Hp.
  destruct (decide (p ∈ (list_to_set ordem : gset string))) as [|Hp']; [done|].
  exfalso. apply (Hmin p); [by rewrite (get_prs_Some _ _ _ Hdeps)|].
  apply elem_of_difference. split; [|done]. apply elem_of_dom. by eapply Hcl.
Qed.

Lemma kahn_inv_keys prs ind ordem x :
  kahn_inv prs ind [] ordem → x ∈ ordem → is_Some (prs !! x).
Proof.
  intros (_ & _ & Hmem & _) Hx. rewrite <-(app_nil_r ordem) in Hx.
  apply Hmem in Hx as (deps & -> & _). eauto.
Qed.

Lemma kahn_run prs :
  closed prs →
  ∃ ra ordem ind,
    reverse_adj_of prs = Ret ra
    ∧ kahn_loop (size prs) ra (in_degree_of prs) (grau_zero (in_degree_of prs)) []
      = Ret ordem
    ∧ kahn_inv prs ind [] ordem.
Proof.
  intros Hcl. destruct (reverse_adj_of_spec prs Hcl) as (ra & Hra & Hspec).
  destruct (kahn_loop_spec prs ra Hspec (size prs) _ _ _ (kahn_inv_init prs))
    as (ordem & ind & Hrun & Hinv); [simpl; lia|].
  by exists ra, ordem, ind.
Qed.

Lemma kahn_acyclic prs :
  closed prs → acyclic prs →
  ∃ ordem, kahn prs = Ret ordem ∧ NoDup ordem
           ∧ (∀ x, x ∈ ordem ↔ is_Some (prs !! x)) ∧ topo_from prs ∅ ordem.
Proof.
  intros Hcl Hac. destruct (kahn_run prs Hcl) as (ra & ordem & ind & Hra & Hrun & Hinv).
  assert (∀ x, x ∈ ordem ↔ is_Some (prs !! x)) as Hkeys.
  { intros x. split; [by eapply kahn_inv_keys | by eapply kahn_inv_complete]. }
  assert (NoDup ordem) as Hnd.
  { destruct Hinv as (Hnd & _). by rewrite app_nil_r in Hnd. }
  exists ordem. unfold kahn. rewrite Hra, bind_Ret, Hrun, bind_Ret.
  rewrite decide_False; [by destruct Hinv as (_ & _ & _ & ?)|].
  intros Hne. apply Hne, Nat.le_antisymm.
  - apply keys_length; [done|]. intros x. apply Hkeys.
  - rewrite <-(size_dom (D := gset string) prs).
    change (size (dom prs)) with (length (elements (dom prs : gset string))).
    apply submseteq_length, NoDup_submseteq; [apply NoDup_elements|].
    intros x Hx%elem_of_elements%elem_of_dom. by apply Hkeys.
Qed.

Lemma kahn_cyclic prs :
  closed prs → has_cycle prs → kahn prs = Raise CycleError.
Proof.
  intros Hcl [x Hx]. destruct (kahn_run prs Hcl) as (ra & ordem & ind & Hra & Hrun & Hinv).
  unfold kahn. rewrite Hra, bind_Ret, Hrun, bind_Ret.
  rewrite decide_True; [done|].
  assert (NoDup ordem) as Hnd.
  { destruct Hinv as (Hnd & _). by rewrite app_nil_r in Hnd. }
  assert (x ∉ ordem) as Hxo.
  { destruct Hinv as (_ & _ & _ & Htopo). by eapply topo_from_no_cycle. }
  destruct (ancestor_is_key _ _ _ Hx) as [deps Hdeps].
  assert (length ordem ≤ size (delete x prs)) as Hlen.
  { apply keys_length; [done|]. intros y Hy.
    rewrite lookup_delete_ne by (by intros ->). by eapply kahn_inv_keys. }
  rewrite map_size_delete, Hdeps in Hlen.
  assert (size prs ≠ 0); [|lia].
  apply map_size_ne_0_lookup_2 with x. eauto.
Qed.

(** ** The sub-graph of a study plan *)

Lemma tc_iff {A} (R1 R2 : relation A) x y :
  (∀ a b, R1 a b ↔ R2 a b) → tc R1 x y ↔ tc R2 x y.
Proof.
  intros HR. split; induction 1; try (by apply tc_once, HR);
    by (eapply tc_l; [apply HR|]).
Qed.

Lemma necessario_de_spec prs alvo x :
  x ∈ necessario_de prs alvo ↔ required prs alvo x.
Proof.
  unfold necessario_de, required.
  rewrite elem_of_union, elem_of_singleton, ancestors_of_spec. done.
Qed.

Lemma required_down prs alvo p m :
  required prs alvo m → ancestor prs p m → required prs alvo p.
Proof.
  intros [->|Hm] Hp; right; [done|]. by eapply tc_trans.
Qed.

Lemma sub_prs_lookup prs (N : gset string) m :
  sub_prs_of prs N !! m
  = if decide (m ∈ N) then Some (filter (λ p, p ∈ N) (get_prs prs m)) else None.
Proof.
  unfold sub_prs_of. case_decide as Hm.
  - apply lookup_set_to_map; [naive_solver|]. by exists m.
  - apply eq_None_not_Some. intros [deps Hdeps].
    apply lookup_set_to_map in Hdeps as (y & Hy & [= -> _]); naive_solver.
Qed.

Lemma sub_prs_key prs (N : gset string) m :
  is_Some (sub_prs_of prs N !! m) ↔ m ∈ N.
Proof. rewrite sub_prs_lookup. case_decide; naive_solver. Qed.

Lemma sub_prs_edge prs (N : gset string) p m :
  edge (sub_prs_of prs N) p m ↔ induced_edge prs (λ x, x ∈ N) p m.
Proof.
  unfold induced_edge, edge at 1. rewrite sub_prs_lookup. split.
  - intros (deps & Hl & Hp). case_decide; [|done]. simplify_eq.
    apply elem_of_filter in Hp as [? ?%edge_get_prs]. done.
  - intros (Hp & Hm & He%edge_get_prs). rewrite decide_True by done.
    eexists. split; [done|]. by apply elem_of_filter.
Qed.

Lemma sub_prs_closed prs (N : gset string) : closed (sub_prs_of prs N).
Proof.
  intros m deps p Hm Hp. apply sub_prs_key.
  assert (edge (sub_prs_of prs N) p m) as He by (by exists deps).
  by apply sub_prs_edge in He as (? & _).
Qed.

Lemma sub_prs_size prs (N : gset string) : size (sub_prs_of prs N) = size N.
Proof.
  rewrite <-(size_dom (D := gset string)). f_equal. apply set_eq. intros x.
  by rewrite elem_of_dom, sub_prs_key.
Qed.

Lemma sub_prs_cycle prs alvo :
  has_cycle (sub_prs_of prs (necessario_de prs alvo))
  ↔ induced_cycle prs (required prs alvo).
Proof.
  unfold has_cycle, induced_cycle, ancestor. apply exist_proper. intros x.
  apply tc_iff. intros a b. rewrite sub_prs_edge. unfold induced_edge.
  by rewrite !necessario_de_spec.
Qed.

(** Inside the required set the induced sub-graph has all the ancestors. *)
Lemma sub_prs_ancestor prs alvo p m :
  required prs alvo m → ancestor prs p m →
  ancestor (sub_prs_of prs (necessario_de prs alvo)) p m.
Proof.
  intros Hm Hanc. induction Hanc as [p m He|p y m He Hym IH].
  - apply tc_once, sub_prs_edge. split_and!; [|by apply necessario_de_spec|done].
    apply necessario_de_spec. eapply required_down; [done|]. by apply tc_once.
  - eapply tc_l; [|by apply IH]. apply sub_prs_edge.
    assert (required prs alvo y) by (by eapply required_down).
    split_and!; [|by apply necessario_de_spec|done].
    apply necessario_de_spec. eapply required_down; [done|]. by apply tc_once.
Qed.

Lemma sub_prs_ancestor_inv prs (N : gset string) p m :
  ancestor (sub_prs_of prs N) p m → ancestor prs p m.
Proof.
  induction 1 as [p m (_ & _ & He)%sub_prs_edge|p y m (_ & _ & He)%sub_prs_edge _ IH].
  - by apply tc_once.
  - by eapply tc_l.
Qed.

(** What [kahn] returns on the sub-graph of an acyclic study plan. *)
Lemma kahn_sub_prs prs alvo :
  acyclic (sub_prs_of prs (necessario_de prs alvo)) →
  ∃ ordem,
    kahn (sub_prs_of prs (necessario_de prs alvo)) = Ret ordem
    ∧ NoDup ordem
    ∧ (∀ x, x ∈ ordem ↔ required prs alvo x)
    ∧ last ordem = Some alvo
    ∧ (∀ x y, y ∈ ordem → ancestor prs x y → before ordem x y).
Proof.
  intros Hac. set (sub := sub_prs_of prs (necessario_de prs alvo)) in *.
  destruct (kahn_acyclic sub (sub_prs_closed _ _) Hac)
    as (ordem & Hrun & Hnd & Hkeys & Htopo).
  assert (∀ x, x ∈ ordem ↔ required prs alvo x) as Hreq.
  { intros x. rewrite Hkeys. unfold sub. by rewrite sub_prs_key, necessario_de_spec. }
  exists ordem. split_and!; [done..| |].
  - assert (alvo ∈ ordem) as (l1 & l2 & ->)%list_elem_of_split
      by (apply Hreq; by left).
    destruct l2 as [|y l2]; [apply last_snoc|]. exfalso.
    assert (y ≠ alvo ∧ alvo ∉ l1) as [Hy Hl1].
    { apply NoDup_app in Hnd as (_ & Hdisj & [Hy _]%NoDup_cons). split.
      - intros ->. apply Hy. set_solver.
      - intros Hin. apply (Hdisj alvo Hin). set_solver. }
    assert (required prs alvo y) as [?|Hanc] by (apply Hreq; set_solver); [done|].
    assert (y ∈ l1) as Hyl1.
    { eapply (topo_from_ancestor sub); [done| |done].
      apply sub_prs_ancestor; [by left | done]. }
    apply NoDup_app in Hnd as (_ & Hdisj & _). apply (Hdisj y Hyl1). set_solver.
  - intros x y Hy Hxy. eapply (topo_from_before sub); [done..|].
    apply sub_prs_ancestor; [by apply Hreq | done].
Qed.

(** ** Level progression: the loops *)

Lemma nivel_visit_in prs n m ind prox d :
  n ∈ get_prs prs m → ind !! m = Some d →
  nivel_visit prs n m (ind, prox)
  = Ret (<[m := (d - 1)%Z]> ind,
         if decide ((d - 1)%Z = 0%Z) then {[m]} ∪ prox else prox).
Proof.
  intros Hn Hd. unfold nivel_visit. rewrite decide_True by done.
  cbn [fst snd]. rewrite Hd. by case_decide.
Qed.

Lemma nivel_visit_out prs n m st :
  n ∉ get_prs prs m → nivel_visit prs n m st = Ret st.
Proof. intros Hn. unfold nivel_visit. by rewrite decide_False. Qed.

Lemma nivel_visit_loop prs n ms ind prox :
  NoDup ms →
  (∀ m, m ∈ ms → n ∈ get_prs prs m → is_Some (ind !! m)) →
  ∃ ind' prox',
    for_each ms (nivel_visit prs n) (ind, prox) = Ret (ind', prox')
    ∧ (∀ k, ind' !! k
            = if decide (k ∈ ms ∧ n ∈ get_prs prs k)
              then (λ d, (d - 1)%Z) <$> ind !! k else ind !! k)
    ∧ (∀ k, k ∈ prox'
            ↔ k ∈ prox ∨ (k ∈ ms ∧ n ∈ get_prs prs k ∧ ind !! k = Some 1%Z)).
Proof.
  revert ind prox. induction ms as [|m ms IH]; intros ind prox Hnd Hkeys;
    cbn [for_each].
  - exists ind, prox. split_and!; [done| |set_solver].
    intros k. rewrite decide_False; [done | set_solver].
  - apply NoDup_cons in Hnd as [Hm Hnd].
    destruct (decide (n ∈ get_prs prs m)) as [Hn|Hn].
    + destruct (Hkeys m) as [d Hd]; [set_solver|done|].
      rewrite (nivel_visit_in _ _ _ _ _ _ Hn Hd), bind_Ret.
      set (prox1 := if decide ((d - 1)%Z = 0%Z) then {[m]} ∪ prox else prox).
      assert (∀ k, k ∈ prox1 ↔ k ∈ prox ∨ (k = m ∧ d = 1%Z)) as Hprox1.
      { intros k. unfold prox1. case_decide; [|assert (d ≠ 1%Z) by lia]; set_solver by lia. }
      destruct (IH (<[m := (d - 1)%Z]> ind) prox1) as (ind' & prox' & Hrun & Hind' & Hprox');
        [done| |].
      { intros x Hx Hnx. apply lookup_insert_is_Some'. right. apply Hkeys; set_solver. }
      exists ind', prox'. split_and!; [done| |].
      * intros k. rewrite Hind'. destruct (decide (k = m)) as [->|Hkm].
        -- rewrite decide_False by tauto. rewrite lookup_insert_eq, Hd.
           rewrite decide_True by set_solver. done.
        -- rewrite lookup_insert_ne by done.
           destruct (decide (k ∈ ms ∧ n ∈ get_prs prs k)).
           ++ rewrite decide_True by set_solver. done.
           ++ rewrite decide_False by set_solver. done.
      * intros k. rewrite Hprox', Hprox1. destruct (decide (k = m)) as [->|Hkm].
        -- rewrite Hd. split; [|set_solver].
           intros [[?|[_ ->]]|[? _]]; [by left|right; set_solver|done].
        -- rewrite lookup_insert_ne by done. set_solver.
    + rewrite (nivel_visit_out _ _ _ _ Hn), bind_Ret.
      destruct (IH ind prox) as (ind' & prox' & Hrun & Hind' & Hprox'); [done| |].
      { intros x Hx Hnx. apply Hkeys; set_solver. }
      exists ind', prox'. split_and!; [done| |].
      * intros k. rewrite Hind'. destruct (decide (k = m)) as [->|Hkm].
        -- rewrite !decide_False by tauto. done.
        -- destruct (decide (k ∈ ms ∧ n ∈ get_prs prs k)).
           ++ rewrite decide_True by set_solver. done.
           ++ rewrite decide_False by set_solver. done.
      * intros k. rewrite Hprox'. set_solver.
Qed.

Lemma size_non_empty (X : gset string) : X ≠ ∅ → size X ≠ 0.
Proof. intros HX Hz. apply HX, leibniz_equiv, size_empty_iff, Hz. Qed.

Lemma layers_from_app prs seen l1 l2 :
  layers_from prs seen (l1 ++ l2)
  ↔ layers_from prs seen l1 ∧ layers_from prs (⋃ l1 ∪ seen) l2.
Proof.
  revert seen. induction l1 as [|L l1 IH]; intros seen; simpl.
  - rewrite (left_id_L ∅ (∪)). naive_solver.
  - rewrite IH.
    replace (L ∪ ⋃ l1 ∪ seen) with (⋃ l1 ∪ (L ∪ seen)) by set_solver.
    naive_solver.
Qed.

Lemma niveis_inv_init prs :
  niveis_inv prs (in_degree_of prs) (list_to_set (grau_zero (in_degree_of prs)))
    ∅ [].
Proof.
  unfold niveis_inv. split_and!; [done|set_solver| | |done].
  - intros m deps Hm. unfold in_degree_of. rewrite lookup_fmap, Hm. simpl.
    do 3 f_equal. set_solver.
  - intros m. rewrite (left_id_L ∅ (∪)), elem_of_list_to_set, grau_zero_spec.
    unfold in_degree_of. rewrite lookup_fmap. split.
    + destruct (prs !! m) as [deps|]; [|done]. simpl. intros [= Hsz].
      exists deps. split; [done|].
      assert (size deps = 0) as ->%size_empty_iff by lia. set_solver.
    + intros (deps & -> & Hsub). simpl.
      assert (deps = ∅) as -> by set_solver. by rewrite size_empty.
Qed.

Section niveis_correct.
Context (prs : gmap string (gset string)) (necessario : gset string).
Hypothesis Hkeys : ∀ m, m ∈ necessario ↔ is_Some (prs !! m).

Lemma nivel_node_step proc0 ind prox proc n :
  nivel_inv prs proc0 (ind, prox, proc) → n ∉ proc →
  ∃ ind' prox',
    nivel_node necessario prs n (ind, prox, proc)
    = Ret (ind', prox', {[n]} ∪ proc)
    ∧ nivel_inv prs proc0 (ind', prox', {[n]} ∪ proc).
Proof.
  intros (Hsub & Hdeg & Hprox) Hn. cbn [fst snd] in *.
  destruct (nivel_visit_loop prs n (elements necessario) ind prox)
    as (ind' & prox' & Hrun & Hind' & Hprox').
  { apply NoDup_elements. }
  { intros m [deps Hm]%elem_of_elements%Hkeys _. rewrite (Hdeg _ _ Hm). eauto. }
  exists ind', prox'. unfold nivel_node. cbn [fst snd]. rewrite Hrun, bind_Ret.
  split; [done|].
  assert (∀ k deps, prs !! k = Some deps →
            (k ∈ elements necessario ∧ n ∈ get_prs prs k) ↔ n ∈ deps) as Hcond.
  { intros k deps Hk. rewrite elem_of_elements, Hkeys, (get_prs_Some _ _ _ Hk), Hk.
    split; [tauto | eauto]. }
  assert (∀ deps : gset string,
            n ∈ deps → size (deps ∖ ({[n]} ∪ proc)) + 1 = size (deps ∖ proc)) as Hsz.
  { intros deps Hin. rewrite (union_comm_L {[n]} proc).
    by apply size_difference_snoc. }
  unfold nivel_inv. cbn [fst snd]. split_and!.
  - set_solver.
  - intros m deps Hm. rewrite Hind'. case_decide as Hin.
    + apply (Hcond _ _ Hm) in Hin. rewrite (Hdeg _ _ Hm). simpl. f_equal.
      pose proof (Hsz deps Hin). lia.
    + rewrite (Hdeg _ _ Hm). do 3 f_equal.
      assert (n ∉ deps) by (intros ?; by apply Hin, (Hcond _ _ Hm)). set_solver.
  - intros m. rewrite Hprox', Hprox. split.
    + intros [(deps & Hm & Hs1 & Hs2)|(Hin & Hnm & Hone)].
      * exists deps. split_and!; [done|set_solver|done].
      * apply elem_of_elements, Hkeys in Hin as [deps Hm]. exists deps.
        rewrite (get_prs_Some _ _ _ Hm) in Hnm.
        rewrite (Hdeg _ _ Hm) in Hone.
        pose proof (Hsz deps Hnm). split_and!; [done| |].
        -- apply size_difference_zero. injection Hone. lia.
        -- intros Hd0. apply Hn, Hsub, Hd0, Hnm.
    + intros (deps & Hm & Hs1 & Hs2).
      destruct (decide (deps ⊆ proc)) as [?|Hnot]; [left; eauto|].
      right. assert (n ∈ deps) as Hnm.
      { destruct (decide (n ∈ deps)); [done|]. destruct Hnot. set_solver. }
      split_and!.
      * apply elem_of_elements, Hkeys. eauto.
      * by rewrite (get_prs_Some _ _ _ Hm).
      * rewrite (Hdeg _ _ Hm). apply size_difference_zero in Hs1.
        pose proof (Hsz deps Hnm). do 2 f_equal. lia.
Qed.

Lemma nivel_for proc0 ns ind prox proc :
  NoDup ns → (∀ n, n ∈ ns → n ∉ proc) →
  nivel_inv prs proc0 (ind, prox, proc) →
  ∃ ind' prox',
    for_each ns (nivel_node necessario prs) (ind, prox, proc)
    = Ret (ind', prox', list_to_set ns ∪ proc)
    ∧ nivel_inv prs proc0 (ind', prox', list_to_set ns ∪ proc).
Proof.
  revert ind prox proc.
  induction ns as [|n ns IH]; intros ind prox proc Hnd Hfresh Hinv;
    cbn [for_each].
  - exists ind, prox. rewrite list_to_set_nil, (left_id_L ∅ (∪)). done.
  - apply NoDup_cons in Hnd as [Hn Hnd].
    destruct (nivel_node_step proc0 ind prox proc n Hinv)
      as (ind1 & prox1 & -> & Hinv1); [apply Hfresh; set_solver|].
    rewrite bind_Ret.
    destruct (IH ind1 prox1 ({[n]} ∪ proc) Hnd) as (ind' & prox' & Hrun & Hinv');
      [|done|].
    { intros x Hx. assert (x ∉ proc) by (apply Hfresh; set_solver). set_solver. }
    exists ind', prox'.
    replace (list_to_set (n :: ns) ∪ proc)
      with (list_to_set ns ∪ ({[n]} ∪ proc) : gset string) by set_solver.
    done.
Qed.

Lemma niveis_loop_spec fuel ind disp proc niveis :
  niveis_inv prs ind disp proc niveis →
  size necessario ≤ fuel + size proc →
  ∃ niveis' ind',
    niveis_loop fuel necessario prs ind disp proc niveis = Ret niveis'
    ∧ niveis_inv prs ind' ∅ (⋃ niveis') niveis'.
Proof.
  revert ind disp proc niveis.
  induction fuel as [|fuel IH]; intros ind disp proc niveis Hinv Hfuel.
  - simpl. case_decide as Hd.
    + subst disp. exists niveis, ind. split; [done|].
      destruct Hinv as (-> & ?). done.
    + exfalso. destruct Hinv as (_ & Hdisj & _ & Hmem & _).
      assert (proc ∪ disp ⊆ necessario) as Hsub.
      { intros x (deps & Hx & _)%Hmem. apply Hkeys. eauto. }
      apply subseteq_size in Hsub. rewrite size_union in Hsub by set_solver.
      pose proof (size_non_empty disp Hd). lia.
  - simpl. case_decide as Hd.
    + subst disp. exists niveis, ind. split; [done|].
      destruct Hinv as (-> & ?). done.
    + destruct Hinv as (Hproc & Hdisj & Hdeg & Hmem & Hlay).
      destruct (nivel_for proc (elements disp) ind ∅ proc)
        as (ind1 & prox1 & -> & Hsub & Hdeg1 & Hprox1).
      { apply NoDup_elements. }
      { intros n Hn%elem_of_elements. set_solver. }
      { unfold nivel_inv. cbn [fst snd]. split_and!; [done|done|].
        intros m. split; [set_solver|]. intros (deps & _ & ? & ?). done. }
      rewrite bind_Ret. cbn [fst snd] in *.
      rewrite list_to_set_elements_L in *.
      apply IH.
      * unfold niveis_inv. split_and!.
        -- rewrite union_list_app_L, Hproc. simpl. set_solver.
        -- set_solver.
        -- done.
        -- intros m. split.
           ++ intros [[Hm|Hm]%elem_of_union|[Hm _]%elem_of_difference]%elem_of_union.
              ** destruct (Hmem m) as [(deps & ? & ?) _]; [set_solver|].
                 exists deps. split; [done | set_solver].
              ** destruct (Hmem m) as [(deps & ? & ?) _]; [set_solver|].
                 exists deps. split; [done | set_solver].
              ** apply Hprox1 in Hm as (deps & ? & ? & _). eauto.
           ++ intros (deps & Hm & Hs).
              destruct (decide (deps ⊆ proc)) as [Hs0|Hs0].
              ** destruct (Hmem m) as [_ Hin]. set_solver.
              ** assert (m ∈ prox1) by (apply Hprox1; eauto).
                 destruct (decide (m ∈ disp ∪ proc)); set_solver.
        -- apply layers_from_app. split; [done|]. simpl.
           rewrite (right_id_L ∅ (∪)), <-Hproc. split_and!; [done| |done].
           intros m. rewrite <-Hmem. set_solver.
      * rewrite size_union by set_solver.
        pose proof (size_non_empty disp Hd). lia.
Qed.
End niveis_correct.

(** ** Level progression: the result *)

Lemma acyclic_saturated prs (X : gset string) :
  closed prs → acyclic prs →
  (∀ m deps, prs !! m = Some deps → deps ⊆ X → m ∈ X) →
  ∀ x, is_Some (prs !! x) → x ∈ X.
Proof.
  intros Hcl Hac Hsat x Hx.
  destruct (decide (x ∈ X)) as [|Hnot]; [done|]. exfalso.
  destruct (minimal_element prs (dom prs ∖ X) Hac)
    as (m & [Hmd Hmo]%elem_of_difference & Hmin).
  { apply elem_of_dom in Hx. set_solver. }
  apply elem_of_dom in Hmd as [deps Hdeps].
  apply Hmo, (Hsat m deps Hdeps). intros p Hp.
  destruct (decide (p ∈ X)) as [|Hp']; [done|].
  exfalso. apply (Hmin p); [by rewrite (get_prs_Some _ _ _ Hdeps)|].
  apply elem_of_difference. split; [|done]. apply elem_of_dom. by eapply Hcl.
Qed.

Lemma layers_split prs l1 nivel l2 :
  layers_from prs ∅ (l1 ++ nivel :: l2) →
  nivel ≠ ∅
  ∧ ∀ m, m ∈ nivel ↔ (m ∉ ⋃ l1) ∧ ∃ deps, prs !! m = Some deps ∧ deps ⊆ ⋃ l1.
Proof.
  intros (_ & Hne & Hn & _)%layers_from_app.
  rewrite (right_id_L ∅ (∪)) in Hn. done.
Qed.

Lemma layers_ancestor prs niveis p m :
  layers_from prs ∅ niveis → ancestor prs p m →
  ∀ l1 nivel l2, niveis = l1 ++ nivel :: l2 → m ∈ nivel → p ∈ ⋃ l1.
Proof.
  intros Hlay. induction 1 as [p m (deps & Hm & Hp)|p y m (deps & Hy & Hp) _ IH];
    intros l1 nivel l2 -> Hin.
  - destruct (layers_split _ _ _ _ Hlay) as (_ & Hn).
    apply Hn in Hin as (_ & deps' & ? & Hsub). simplify_eq. by apply Hsub.
  - pose proof (IH l1 nivel l2 eq_refl Hin) as (Ly & HLy & HyL)%elem_of_union_list.
    apply list_elem_of_split in HLy as (a & b & ->).
    rewrite <-app_assoc in Hlay. simpl in Hlay.
    destruct (layers_split _ _ _ _ Hlay) as (_ & Hn).
    apply Hn in HyL as (_ & deps' & ? & Hsub). simplify_eq.
    rewrite union_list_app_L. set_solver.
Qed.

(** The levels of an acyclic study plan. *)
Lemma niveis_sub_prs prs alvo :
  let necessario := necessario_de prs alvo in
  let sub := sub_prs_of prs necessario in
  acyclic sub →
  ∃ niveis,
    niveis_loop (size necessario) necessario sub (in_degree_of sub)
      (list_to_set (grau_zero (in_degree_of sub))) ∅ [] = Ret niveis
    ∧ layers_from sub ∅ niveis
    ∧ ⋃ niveis = necessario.
Proof.
  intros necessario sub Hac.
  assert (∀ m, m ∈ necessario ↔ is_Some (sub !! m)) as Hkeys.
  { intros m. unfold sub. by rewrite sub_prs_key. }
  destruct (niveis_loop_spec sub necessario Hkeys (size necessario) _ _ _ _
              (niveis_inv_init sub))
    as (niveis & ind & Hrun & _ & _ & _ & Hmem & Hlay); [lia|].
  exists niveis. split_and!; [done..|].
  apply set_eq. intros x. split.
  - intros Hx. apply Hkeys. destruct (Hmem x) as [(deps & -> & _) _]; [set_solver|eauto].
  - intros Hx%Hkeys. revert x Hx.
    apply acyclic_saturated; [apply sub_prs_closed|done|].
    intros m deps Hm Hsub. destruct (Hmem m) as [_ Hin]. set_solver.
Qed.

(** ** The methods, run on an object *)

Lemma todos_prerequisitos_run self d deps :
  pre_reqs self !! d = Some deps →
  todos_prerequisitos d self
  = (Ret (elements (ancestors_of (pre_reqs self) d)), self).
Proof.
  intros Hd. unfold todos_prerequisitos, bind_m, read_pre_reqs. rewrite Hd.
  unfold local_m, unit_m, ancestors_of. rewrite (get_prs_Some _ _ _ Hd).
  by destruct (todos_loop_ancestors _ _ _ Hd) as (V & -> & _).
Qed.

Lemma plano_de_estudo_para_run self alvo deps :
  pre_reqs self !! alvo = Some deps →
  plano_de_estudo_para alvo self
  = (kahn (sub_prs_of (pre_reqs self) (necessario_de (pre_reqs self) alvo)), self).
Proof.
  intros Hd. unfold plano_de_estudo_para, bind_m at 1, read_pre_reqs at 1.
  rewrite Hd. unfold bind_m at 1. rewrite (todos_prerequisitos_run _ _ _ Hd).
  unfold bind_m, read_pre_reqs, local_m. rewrite list_to_set_elements_L. done.
Qed.

Lemma progressao_por_niveis_para_run self alvo deps ordem :
  pre_reqs self !! alvo = Some deps →
  kahn (sub_prs_of (pre_reqs self) (necessario_de (pre_reqs self) alvo)) = Ret ordem →
  progressao_por_niveis_para alvo self
  = (let necessario : gset string := list_to_set ordem in
     let sub := sub_prs_of (pre_reqs self) necessario in
     niveis_loop (size necessario) necessario sub (in_degree_of sub)
       (list_to_set (grau_zero (in_degree_of sub))) ∅ [], self).
Proof.
  intros Hd Hk. unfold progressao_por_niveis_para, bind_m at 1.
  rewrite (plano_de_estudo_para_run _ _ _ Hd), Hk. done.
Qed.

Lemma plano_de_estudo_para_unknown self alvo :
  pre_reqs self !! alvo = None →
  plano_de_estudo_para alvo self = (Raise KeyError, self).
Proof.
  intros Hd. unfold plano_de_estudo_para, bind_m, read_pre_reqs. by rewrite Hd.
Qed.

(** ** Properties of a greedy layering *)

Lemma elem_of_union_take (niveis : list (gset string)) k x :
  x ∈ ⋃ (take k niveis)
  ↔ ∃ j nivel, j < k ∧ niveis !! j = Some nivel ∧ x ∈ nivel.
Proof.
  rewrite elem_of_union_list. split.
  - intros (nivel & [j Hj]%list_elem_of_lookup & Hx).
    apply lookup_take_Some in Hj as [Hj ?]. eauto 6.
  - intros (j & nivel & Hlt & Hj & Hx). exists nivel. split; [|done].
    apply list_elem_of_lookup. exists j. by apply lookup_take_Some.
Qed.

Lemma layers_lookup prs niveis k nivel :
  layers_from prs ∅ niveis → niveis !! k = Some nivel →
  nivel ≠ ∅
  ∧ ∀ m, m ∈ nivel
         ↔ (m ∉ ⋃ (take k niveis))
           ∧ ∃ deps, prs !! m = Some deps ∧ deps ⊆ ⋃ (take k niveis).
Proof.
  intros Hlay Hk. apply take_drop_middle in Hk. rewrite <-Hk in Hlay.
  by apply layers_split in Hlay.
Qed.

Lemma layers_disjoint prs niveis i j ni nj :
  layers_from prs ∅ niveis → i ≠ j →
  niveis !! i = Some ni → niveis !! j = Some nj → ni ## nj.
Proof.
  intros Hlay Hij Hi Hj x Hxi Hxj.
  destruct (layers_lookup _ _ _ _ Hlay Hi) as (_ & Hni).
  destruct (layers_lookup _ _ _ _ Hlay Hj) as (_ & Hnj).
  pose proof (proj1 (Hni x) Hxi) as [Hxi' _].
  pose proof (proj1 (Hnj x) Hxj) as [Hxj' _].
  destruct (decide (i < j)).
  - apply Hxj', elem_of_union_take. by exists i, ni.
  - apply Hxi', elem_of_union_take. exists j, nj. split_and!; [lia|done..].
Qed.

Lemma layers_last prs alvo niveis :
  let necessario := necessario_de prs alvo in
  layers_from (sub_prs_of prs necessario) ∅ niveis →
  ⋃ niveis = necessario →
  last niveis = Some {[alvo]}.
Proof.
  intros necessario Hlay Hall.
  assert (alvo ∈ ⋃ niveis) as (nivel & (l1 & l2 & ->)%list_elem_of_split & Halvo)
    %elem_of_union_list.
  { rewrite Hall. apply necessario_de_spec. by left. }
  assert (∀ x, x ∈ necessario → x ≠ alvo → x ∈ ⋃ l1) as Hbefore.
  { intros x [?|Hanc]%necessario_de_spec Hne; [done|].
    eapply layers_ancestor; [done| |done|done].
    apply sub_prs_ancestor; [by left | done]. }
  assert (nivel = {[alvo]}) as ->.
  { destruct (layers_split _ _ _ _ Hlay) as (_ & Hn).
    apply set_eq. intros x. rewrite elem_of_singleton. split; [|by intros ->].
    intros Hx. destruct (decide (x = alvo)) as [|Hne]; [done|]. exfalso.
    apply Hn in Hx as Hx'. destruct Hx' as (Hx' & _). apply Hx', Hbefore; [|done].
    rewrite <-Hall, union_list_app_L. set_solver. }
  destruct l2 as [|nivel' l2]; [apply last_snoc|]. exfalso.
  rewrite cons_middle, (assoc_L (++) l1 [{[alvo]}] (nivel' :: l2)) in Hlay, Hall.
  destruct (layers_split _ _ _ _ Hlay) as (Hne & Hn).
  apply set_choose_L in Hne as [x Hx]. apply Hn in Hx as Hx'.
  destruct Hx' as (Hx' & _). apply Hx'. rewrite union_list_app_L.
  destruct (decide (x = alvo)) as [->|Hxa]; [set_solver|].
  apply elem_of_union. left. apply Hbefore; [|done].
  rewrite <-Hall, union_list_app_L. set_solver.
Qed.

(** ** Methods that only read *)

Lemma readonly_unit {A} (a : A) : readonly (unit_m a).
Proof. done. Qed.

Lemma readonly_raise {A} e : readonly (raise_m (A := A) e).
Proof. done. Qed.

Lemma readonly_local {A} (c : outcome A) : readonly (local_m c).
Proof. done. Qed.

Lemma readonly_read : readonly read_pre_reqs.
Proof. done. Qed.

Lemma readonly_bind {A B} (c : method A) (k : A → method B) :
  readonly c → (∀ a, readonly (k a)) → readonly (bind_m c k).
Proof.
  intros Hc Hk self. unfold bind_m. specialize (Hc self).
  destruct (c self) as [[a| |] self']; simpl in *; subst; [apply Hk|done..].
Qed.

Lemma readonly_disciplinas : readonly disciplinas.
Proof. apply readonly_bind; [apply readonly_read|]. intros. apply readonly_unit. Qed.

Lemma readonly_prerequisitos_diretos d : readonly (prerequisitos_diretos d).
Proof.
  apply readonly_bind; [apply readonly_read|]. intros prs.
  destruct (prs !! d); [apply readonly_unit | apply readonly_raise].
Qed.

Lemma readonly_todos_prerequisitos d : readonly (todos_prerequisitos d).
Proof.
  apply readonly_bind; [apply readonly_read|]. intros prs.
  destruct (prs !! d); [|apply readonly_raise].
  apply readonly_bind; [apply readonly_local|]. intros. apply readonly_unit.
Qed.

Lemma readonly_existe_dependencia a b : readonly (existe_dependencia a b).
Proof.
  apply readonly_bind; [apply readonly_read|]. intros prs.
  destruct (prs !! b), (prs !! a);
    first [apply readonly_local | apply readonly_unit].
Qed.

Lemma readonly_ordenacao_topologica : readonly ordenacao_topologica.
Proof. apply readonly_bind; [apply readonly_read|]. intros. apply readonly_local. Qed.

Lemma readonly_tem_ciclo : readonly tem_ciclo.
Proof.
  intros self. unfold tem_ciclo. pose proof (readonly_ordenacao_topologica self) as Hro.
  destruct (ordenacao_topologica self) as [[?|[]|] self']; done.
Qed.

Lemma readonly_plano_de_estudo_para alvo : readonly (plano_de_estudo_para alvo).
Proof.
  apply readonly_bind; [apply readonly_read|]. intros prs.
  destruct (prs !! alvo); [|apply readonly_raise].
  apply readonly_bind; [apply readonly_todos_prerequisitos|]. intros todos.
  apply readonly_bind; [apply readonly_read|]. intros. apply readonly_local.
Qed.

Lemma readonly_progressao_por_niveis_para alvo :
  readonly (progressao_por_niveis_para alvo).
Proof.
  apply readonly_bind; [apply readonly_plano_de_estudo_para|]. intros ordem.
  apply readonly_bind; [apply readonly_read|]. intros. apply readonly_local.
Qed.

Lemma readonly_run_query q : readonly (run_query q).
Proof.
  destruct q; simpl; (apply readonly_bind; [|intros; apply readonly_unit]).
  - apply readonly_disciplinas.
  - apply readonly_prerequisitos_diretos.
  - apply readonly_todos_prerequisitos.
  - apply readonly_existe_dependencia.
  - apply readonly_tem_ciclo.
  - apply readonly_ordenacao_topologica.
  - apply readonly_plano_de_estudo_para.
  - apply readonly_progressao_por_niveis_para.
Qed.

(** ** The mutations keep the graph closed *)

Lemma adicionar_disciplina_run self d :
  adicionar_disciplina d self
  = (Ret (), Rede (match pre_reqs self !! d with
                   | None => <[d := ∅]> (pre_reqs self)
                   | Some _ => pre_reqs self
                   end)).
Proof.
  destruct self as [prs]. unfold adicionar_disciplina, bind_m, read_pre_reqs. simpl.
  by destruct (prs !! d).
Qed.

Lemma remover_disciplina_run self d :
  remover_disciplina d self
  = (Ret (), Rede (match pre_reqs self !! d with
                   | None => pre_reqs self
                   | Some _ => (λ deps, deps ∖ {[d]}) <$> delete d (pre_reqs self)
                   end)).
Proof.
  destruct self as [prs]. unfold remover_disciplina, bind_m, read_pre_reqs. simpl.
  by destruct (prs !! d).
Qed.

Lemma remover_pre_requisito_run self pre d :
  remover_pre_requisito pre d self
  = (Ret (), Rede (match pre_reqs self !! d with
                   | None => pre_reqs self
                   | Some deps => <[d := deps ∖ {[pre]}]> (pre_reqs self)
                   end)).
Proof.
  destruct self as [prs]. unfold remover_pre_requisito, bind_m, read_pre_reqs. simpl.
  by destruct (prs !! d).
Qed.

Lemma adicionar_pre_requisito_run self pre d :
  ∃ prs deps,
    adicionar_pre_requisito pre d self = (Ret (), Rede (<[d := {[pre]} ∪ deps]> prs))
    ∧ prs !! d = Some deps
    ∧ is_Some (prs !! pre)
    ∧ (∀ k, is_Some (prs !! k) ↔ k = pre ∨ k = d ∨ is_Some (pre_reqs self !! k))
    ∧ (∀ k, get_prs prs k = get_prs (pre_reqs self) k).
Proof.
  unfold adicionar_pre_requisito, bind_m at 1. rewrite adicionar_disciplina_run.
  unfold bind_m at 1. rewrite adicionar_disciplina_run. cbn [pre_reqs].
  set (prs1 := match pre_reqs self !! pre with
               | None => <[pre := ∅]> (pre_reqs self) | Some _ => pre_reqs self end).
  set (prs2 := match prs1 !! d with None => <[d := ∅]> prs1 | Some _ => prs1 end).
  assert (∀ k, is_Some (prs1 !! k) ↔ k = pre ∨ is_Some (pre_reqs self !! k)) as Hk1.
  { intros k. unfold prs1. destruct (pre_reqs self !! pre) eqn:Hp.
    - split; [by right|]. intros [->|?]; [by rewrite Hp | done].
    - rewrite lookup_insert_is_Some'. naive_solver. }
  assert (∀ k, get_prs prs1 k = get_prs (pre_reqs self) k) as Hg1.
  { intros k. unfold prs1. destruct (pre_reqs self !! pre) eqn:Hp; [done|].
    rewrite get_prs_insert. case_decide; [subst; by rewrite get_prs_None|done]. }
  assert (∀ k, is_Some (prs2 !! k) ↔ k = d ∨ is_Some (prs1 !! k)) as Hk2.
  { intros k. unfold prs2. destruct (prs1 !! d) eqn:Hp.
    - split; [by right|]. intros [->|?]; [by rewrite Hp | done].
    - rewrite lookup_insert_is_Some'. naive_solver. }
  assert (∀ k, get_prs prs2 k = get_prs prs1 k) as Hg2.
  { intros k. unfold prs2. destruct (prs1 !! d) eqn:Hp; [done|].
    rewrite get_prs_insert. case_decide; [subst; by rewrite get_prs_None|done]. }
  destruct (proj2 (Hk2 d)) as [deps Hdeps]; [by left|].
  exists prs2, deps. unfold bind_m, read_pre_reqs, write_pre_reqs. cbn [pre_reqs].
  rewrite Hdeps. split_and!; [done|done| | |].
  - apply Hk2. right. apply Hk1. by left.
  - intros k. rewrite Hk2, Hk1. naive_solver.
  - intros k. by rewrite Hg2, Hg1.
Qed.

Lemma closed_get_prs prs :
  closed prs ↔ ∀ c p, p ∈ get_prs prs c → is_Some (prs !! p).
Proof.
  split.
  - intros Hcl c p (deps & ? & ?)%edge_get_prs. by eapply Hcl.
  - intros Hcl c deps p Hc Hp. apply (Hcl c). by rewrite (get_prs_Some _ _ _ Hc).
Qed.

Lemma apply_mutation_closed mu self :
  closed (pre_reqs self) →
  ∃ self', apply_mutation mu self = (Ret (), self') ∧ closed (pre_reqs self').
Proof.
  intros Hcl. destruct mu as [d|d|pre d|pre d]; simpl.
  - rewrite adicionar_disciplina_run. eexists. split; [done|]. simpl.
    destruct (pre_reqs self !! d) eqn:Hd; [done|].
    intros c deps p Hc Hp. apply lookup_insert_is_Some'.
    destruct (decide (d = c)) as [->|Hne].
    + rewrite lookup_insert_eq in Hc. set_solver.
    + rewrite lookup_insert_ne in Hc by done. right. by eapply Hcl.
  - rewrite remover_disciplina_run. eexists. split; [done|]. simpl.
    destruct (pre_reqs self !! d) eqn:Hd; [|done].
    intros c deps p Hc Hp. rewrite lookup_fmap in *.
    destruct (decide (d = c)) as [->|Hne].
    + by rewrite lookup_delete_eq in Hc.
    + rewrite lookup_delete_ne in Hc by done.
      destruct (pre_reqs self !! c) as [deps'|] eqn:Hc'; [|done].
      simpl in Hc. simplify_eq. apply elem_of_difference in Hp as [Hp Hpd].
      rewrite lookup_delete_ne by set_solver. apply fmap_is_Some. by eapply Hcl.
  - destruct (adicionar_pre_requisito_run self pre d)
      as (prs & deps & -> & Hd & Hpre & Hkeys & Hget).
    eexists. split; [done|]. simpl. apply closed_get_prs. intros c p.
    rewrite get_prs_insert, lookup_insert_is_Some', Hkeys. case_decide.
    + intros [->%elem_of_singleton|Hp]%elem_of_union; [tauto|].
      right. right. right. apply (proj1 (closed_get_prs _) Hcl d).
      by rewrite <-Hget, (get_prs_Some _ _ _ Hd).
    + rewrite Hget. intros Hp. right. right. right.
      by apply (proj1 (closed_get_prs _) Hcl c).
  - rewrite remover_pre_requisito_run. eexists. split; [done|]. simpl.
    destruct (pre_reqs self !! d) as [deps|] eqn:Hd; [|done].
    apply closed_get_prs. intros c p. rewrite get_prs_insert, lookup_insert_is_Some'.
    pose proof (proj1 (closed_get_prs _) Hcl) as Hcl'. case_decide.
    + intros [Hp _]%elem_of_difference. right. apply (Hcl' d).
      by rewrite (get_prs_Some _ _ _ Hd).
    + intros Hp. right. by apply (Hcl' c).
Qed.

Lemma apply_mutations_closed mus self :
  closed (pre_reqs self) →
  ∃ self', apply_mutations mus self = (Ret (), self') ∧ closed (pre_reqs self').
Proof.
  revert self. induction mus as [|mu mus IH]; intros self Hcl; simpl.
  - by exists self.
  - destruct (apply_mutation_closed mu self Hcl) as (self1 & Hrun & Hcl1).
    unfold bind_m. rewrite Hrun. by apply IH.
Qed.

Lemma closed_empty : closed ∅.
Proof. intros c deps p Hc. by rewrite lookup_empty in Hc. Qed.

(** The constructor is a sequence of mutations too. *)
Lemma init_loop_mutations ds self :
  init_loop ds self = apply_mutations (AddCourse <$> ds) self.
Proof.
  revert self. induction ds as [|d ds IH]; intros self; [done|].
  simpl. unfold bind_m. destruct (adicionar_disciplina d self) as [[[]| |] self'];
    [apply IH|done..].
Qed.

Lemma nova_rede_closed ds : closed (pre_reqs (nova_rede ds)).
Proof.
  unfold nova_rede. rewrite init_loop_mutations.
  by destruct (apply_mutations_closed (AddCourse <$> ds) rede_vazia closed_empty)
    as (self & -> & Hcl).
Qed.

(** ** The queries, run on an object *)

Lemma existe_dependencia_run self a b deps deps' :
  pre_reqs self !! b = Some deps → pre_reqs self !! a = Some deps' →
  existe_dependencia a b self
  = (Ret (bool_decide (a ∈ ancestors_of (pre_reqs self) b)), self).
Proof.
  intros Hb Ha. unfold existe_dependencia, bind_m, read_pre_reqs. rewrite Hb, Ha.
  unfold local_m, ancestors_of. rewrite (get_prs_Some _ _ _ Hb).
  destruct (todos_loop_ancestors _ _ _ Hb) as (V & HV & _). rewrite HV.
  by rewrite (existe_loop_todos _ _ _ _ _ _ HV).
Qed.

Lemma existe_dependencia_unknown self a b :
  pre_reqs self !! a = None ∨ pre_reqs self !! b = None →
  existe_dependencia a b self = (Ret false, self).
Proof.
  intros Hab. unfold existe_dependencia, bind_m, read_pre_reqs.
  destruct (pre_reqs self !! b), (pre_reqs self !! a); naive_solver.
Qed.

Lemma existe_dependencia_ancestor self a b :
  closed (pre_reqs self) →
  existe_dependencia a b self = (Ret true, self) ↔ ancestor (pre_reqs self) a b.
Proof.
  intros Hcl. destruct (pre_reqs self !! b) as [deps|] eqn:Hb.
  - destruct (pre_reqs self !! a) as [deps'|] eqn:Ha.
    + rewrite (existe_dependencia_run _ _ _ _ _ Hb Ha), <-ancestors_of_spec.
      split; [intros [= ?%bool_decide_eq_true]; done|].
      intros ?. by rewrite bool_decide_eq_true_2.
    + rewrite existe_dependencia_unknown by auto. split; [done|].
      intros [? ?]%ancestor_closed_key; [congruence | done].
  - rewrite existe_dependencia_unknown by auto. split; [done|].
    intros [? ?]%ancestor_is_key. congruence.
Qed.

Lemma keys_Permutation (prs : gmap string (gset string)) (l : list string) :
  NoDup l → (∀ x, x ∈ l ↔ is_Some (prs !! x)) → l ≡ₚ (map_to_list prs).*1.
Proof.
  intros Hnd Hl. apply NoDup_Permutation; [done|apply NoDup_fst_map_to_list|].
  intros x. rewrite Hl, list_elem_of_fmap. split.
  - intros [deps Hx]. exists (x, deps). split; [done|]. by apply elem_of_map_to_list.
  - intros ([k deps] & -> & Hx%elem_of_map_to_list). eauto.
Qed.

(** ** The fuel is no part of the result

    A loop that returns or raises with some fuel does the same with any
    larger amount. *)

Lemma todos_loop_fuel prs fuel fuel' V pilha V' :
  todos_loop fuel prs V pilha = Ret V' → fuel ≤ fuel' →
  todos_loop fuel' prs V pilha = Ret V'.
Proof.
  revert fuel' V pilha. induction fuel as [|fuel IH]; intros fuel' V pilha Hrun Hle.
  - destruct pilha; [|done]. by destruct fuel'.
  - destruct fuel' as [|fuel']; [lia|]. destruct pilha as [|cur pilha]; [done|].
    simpl in *. case_decide; apply IH; (done || lia).
Qed.

Lemma existe_loop_fuel prs a fuel fuel' V pilha r :
  existe_loop fuel prs a V pilha = Ret r → fuel ≤ fuel' →
  existe_loop fuel' prs a V pilha = Ret r.
Proof.
  revert fuel' V pilha. induction fuel as [|fuel IH]; intros fuel' V pilha Hrun Hle.
  - destruct pilha; [|done]. by destruct fuel'.
  - destruct fuel' as [|fuel']; [lia|]. destruct pilha as [|cur pilha]; [done|].
    simpl in *. repeat case_decide; [done|apply IH; (done || lia)..].
Qed.

Lemma kahn_loop_fuel ra fuel fuel' ind fila ordem r :
  kahn_loop fuel ra ind fila ordem = r → r ≠ OutOfFuel → fuel ≤ fuel' →
  kahn_loop fuel' ra ind fila ordem = r.
Proof.
  revert fuel' ind fila ordem.
  induction fuel as [|fuel IH]; intros fuel' ind fila ordem Hrun Hr Hle.
  - destruct fila; [|by subst]. by destruct fuel'.
  - destruct fuel' as [|fuel']; [lia|]. destruct fila as [|n fila]; [done|].
    simpl in *.
    destruct (for_each (elements (get_prs ra n)) kahn_visit (ind, fila)) as [st|e|];
      [|done..].
    rewrite bind_Ret in *. apply IH; (done || lia).
Qed.

Lemma niveis_loop_fuel necessario prs fuel fuel' ind disp proc niveis r :
  niveis_loop fuel necessario prs ind disp proc niveis = r → r ≠ OutOfFuel →
  fuel ≤ fuel' →
  niveis_loop fuel' necessario prs ind disp proc niveis = r.
Proof.
  revert fuel' ind disp proc niveis.
  induction fuel as [|fuel IH]; intros fuel' ind disp proc niveis Hrun Hr Hle.
  - simpl in Hrun. destruct fuel'; simpl; case_decide; (done || by subst).
  - destruct fuel' as [|fuel']; [lia|]. simpl in *. case_decide; [done|].
    destruct (for_each (elements disp) (nivel_node necessario prs) (ind, ∅, proc))
      as [st|e|]; [|done..].
    rewrite bind_Ret in *. apply IH; (done || lia).
Qed.

(** ** The store: what a method may change *)

Section frame.
Import Store.
Variable h0 : heap.

Lemma frames_ret {A} (post : A → Prop) a : post a → frames h0 post (ret a).
Proof. intros Ha h Hk Hd. repeat split; try done. by intros ? [= <-]. Qed.

Lemma frames_raise {A} (post : A → Prop) e : frames h0 post (raise e).
Proof. intros h Hk Hd. repeat split; done. Qed.

Lemma frames_stuck {A} (post : A → Prop) : frames h0 post stuck.
Proof. intros h Hk Hd. repeat split; done. Qed.

Lemma frames_out_of_fuel {A} (post : A → Prop) : frames h0 post out_of_fuel.
Proof. intros h Hk Hd. repeat split; done. Qed.

Lemma frames_bind {A B} (mid : A → Prop) (post : B → Prop) c k :
  frames h0 mid c → (∀ a, mid a → frames h0 post (k a)) →
  frames h0 post (bind c k).
Proof.
  intros Hc Hk h Hkeep Hd. unfold bind.
  destruct (Hc h Hkeep Hd) as (Hkeep' & Hd' & Hmid).
  destruct (c h) as [[a|e| |] h']; simpl in *; try by repeat split.
  apply Hk; auto.
Qed.

Lemma frames_weaken {A} (mid post : A → Prop) c :
  frames h0 mid c → (∀ a, mid a → post a) → frames h0 post c.
Proof.
  intros Hc Hw h Hkeep Hd. destruct (Hc h Hkeep Hd) as (? & ? & ?).
  repeat split; auto.
Qed.

Lemma frames_catch_cycle {A} (post : A → Prop) c handler :
  frames h0 post c → frames h0 post handler →
  frames h0 post (catch_cycle c handler).
Proof.
  intros Hc Hh h Hkeep Hd. unfold catch_cycle.
  destruct (Hc h Hkeep Hd) as (Hkeep' & Hd' & Hpost).
  destruct (c h) as [[a|[]| |] h']; simpl in *; try by repeat split.
  apply Hh; auto.
Qed.

(** A new object is outside [h0]. *)
Lemma frames_alloc o :
  (∀ d k r, o = ODict d → d !! k = Some (VRef r) → local h0 r) →
  frames h0 (local h0) (alloc o).
Proof.
  intros Ho h Hkeep Hd. unfold alloc. simpl.
  assert (Hfresh : h !! fresh (dom h) = None).
  { apply not_elem_of_dom. apply is_fresh. }
  assert (Hloc : local h0 (fresh (dom h))).
  { unfold local. destruct (h0 !! fresh (dom h)) as [o'|] eqn:Heq; [|done].
    apply Hkeep in Heq. congruence. }
  split; [|split].
  - intros l o' Hl. rewrite lookup_insert_ne; [by apply Hkeep|].
    intros <-. unfold local in Hloc. congruence.
  - intros l d k r Hl Hlook Hr.
    destruct (decide (l = fresh (dom h))) as [->|Hne].
    + rewrite lookup_insert_eq in Hlook. injection Hlook as ->. by eapply Ho.
    + rewrite lookup_insert_ne in Hlook by done. by eapply Hd.
  - by intros a [= <-].
Qed.

Lemma frames_alloc_set s : frames h0 (local h0) (alloc (OSet s)).
Proof. apply frames_alloc. intros; discriminate. Qed.

Lemma frames_alloc_dict : frames h0 (local h0) (alloc (ODict ∅)).
Proof. apply frames_alloc. intros d k r [= <-]. by rewrite lookup_empty. Qed.

(** Reading changes nothing, whatever the reference. *)
Lemma frames_set_get l : frames h0 (λ _, True) (set_get l).
Proof.
  intros h Hkeep Hd. unfold set_get.
  destruct (h !! l) as [[]|]; repeat split; done.
Qed.

Lemma frames_dict_get l : frames h0 (λ _, True) (dict_get l).
Proof.
  intros h Hkeep Hd. unfold dict_get.
  destruct (h !! l) as [[]|]; repeat split; done.
Qed.

(** A dictionary outside [h0] holds references to sets outside [h0]. *)
Lemma frames_dict_get_local l :
  local h0 l →
  frames h0 (λ d, ∀ k r, d !! k = Some (VRef r) → local h0 r) (dict_get l).
Proof.
  intros Hl h Hkeep Hd. unfold dict_get.
  destruct (h !! l) as [[]|] eqn:Heq; repeat split; try done.
  intros a [= <-] k r Hk. by eapply Hd.
Qed.

(** Writing is to objects outside [h0]. *)
Lemma frames_set_put l s : local h0 l → frames h0 (λ _, True) (set_put l s).
Proof.
  intros Hl h Hkeep Hd. unfold set_put.
  destruct (h !! l) as [[]|] eqn:Heq; try by repeat split.
  simpl. split; [|split; [|done]].
  - intros l' o Hl'. rewrite lookup_insert_ne; [by apply Hkeep|].
    intros <-. unfold local in Hl. congruence.
  - intros l' d k r Hl' Hlook Hr.
    destruct (decide (l' = l)) as [->|Hne].
    + rewrite lookup_insert_eq in Hlook. discriminate.
    + rewrite lookup_insert_ne in Hlook by done. by eapply Hd.
Qed.

Lemma frames_dict_put l d :
  local h0 l → (∀ k r, d !! k = Some (VRef r) → local h0 r) →
  frames h0 (λ _, True) (dict_put l d).
Proof.
  intros Hl Hrefs h Hkeep Hd. unfold dict_put.
  destruct (h !! l) as [[]|] eqn:Heq; try by repeat split.
  simpl. split; [|split; [|done]].
  - intros l' o Hl'. rewrite lookup_insert_ne; [by apply Hkeep|].
    intros <-. unfold local in Hl. congruence.
  - intros l' d' k r Hl' Hlook Hr.
    destruct (decide (l' = l)) as [->|Hne].
    + rewrite lookup_insert_eq in Hlook. injection Hlook as <-. by eapply Hrefs.
    + rewrite lookup_insert_ne in Hlook by done. by eapply Hd.
Qed.

Lemma frames_set_add l x : local h0 l → frames h0 (λ _, True) (set_add l x).
Proof.
  intros Hl. eapply frames_bind; [apply frames_set_get|].
  intros s _. by apply frames_set_put.
Qed.

Lemma frames_dict_set_int l k n :
  local h0 l → frames h0 (λ _, True) (dict_set l k (VInt n)).
Proof.
  intros Hl. eapply frames_bind; [by apply frames_dict_get_local|].
  intros d Hd. apply frames_dict_put; [done|].
  intros k' r. destruct (decide (k' = k)) as [->|Hne].
  - by rewrite lookup_insert_eq.
  - rewrite lookup_insert_ne by done. apply Hd.
Qed.

Lemma frames_dict_set_ref l k r :
  local h0 l → local h0 r → frames h0 (λ _, True) (dict_set l k (VRef r)).
Proof.
  intros Hl Hr. eapply frames_bind; [by apply frames_dict_get_local|].
  intros d Hd. apply frames_dict_put; [done|].
  intros k' r'. destruct (decide (k' = k)) as [->|Hne].
  - rewrite lookup_insert_eq. by intros [= <-].
  - rewrite lookup_insert_ne by done. apply Hd.
Qed.

Lemma frames_as_ref v : frames h0 (λ r, v = VRef r) (as_ref v).
Proof. destruct v; [by apply frames_ret | apply frames_stuck]. Qed.

Lemma frames_as_int v : frames h0 (λ _, True) (as_int v).
Proof. destruct v; [apply frames_stuck | by apply frames_ret]. Qed.

Lemma frames_for_each {A S} (I : S → Prop) (xs : list A) body s :
  (∀ x s, I s → frames h0 I (body x s)) → I s →
  frames h0 I (for_each xs body s).
Proof.
  intros Hbody. revert s. induction xs as [|x xs IH]; intros s Hs; simpl.
  - by apply frames_ret.
  - eapply frames_bind; [by apply Hbody|]. apply IH.
Qed.

(** [d.get(k, set())]: the set found may be one of [h0]; it is one outside
    [h0] when [d] is. *)
Lemma frames_get_or_new d k : frames h0 (λ _, True) (get_or_new d k).
Proof.
  eapply frames_bind; [apply frames_dict_get|]. intros m _.
  destruct (m !! k).
  - eapply frames_weaken; [apply frames_as_ref|done].
  - eapply frames_weaken; [apply frames_alloc_set|done].
Qed.

Lemma frames_get_or_new_local d k :
  local h0 d → frames h0 (local h0) (get_or_new d k).
Proof.
  intros Hd. eapply frames_bind; [by apply frames_dict_get_local|].
  intros m Hm. destruct (m !! k) as [v|] eqn:Hk.
  - eapply frames_weaken; [apply frames_as_ref|].
    intros r ->. by eapply Hm.
  - apply frames_alloc_set.
Qed.

Lemma frames_fuel_of_search self deps :
  frames h0 (λ _, True) (fuel_of_search self deps).
Proof. intros h Hkeep Hd. repeat split; done. Qed.

(** One statement after another: the first by [rule], the rest with its
    result named. *)
Ltac seq rule := eapply frames_bind; [rule|].

(** *** The queries *)

Lemma frames_disciplinas self : frames h0 (λ _, True) (disciplinas self).
Proof.
  seq ltac:(apply frames_dict_get). intros d _. by apply frames_ret.
Qed.

Lemma frames_prerequisitos_diretos self disciplina :
  frames h0 (λ _, True) (prerequisitos_diretos self disciplina).
Proof.
  seq ltac:(apply frames_dict_get). intros d _.
  destruct (d !! disciplina); [|apply frames_raise].
  seq ltac:(apply frames_as_ref). intros deps _.
  seq ltac:(apply frames_set_get). intros s _. by apply frames_ret.
Qed.

Lemma frames_todos_loop fuel self vistos pilha :
  local h0 vistos → frames h0 (λ _, True) (todos_loop fuel self vistos pilha).
Proof.
  intros Hv. revert pilha.
  induction fuel as [|fuel IH]; intros [|cur pilha]; simpl;
    try by (apply frames_ret || apply frames_out_of_fuel).
  seq ltac:(apply frames_set_get). intros v _.
  destruct (decide (cur ∈ v)); [apply IH|].
  seq ltac:(by apply frames_set_add). intros _ _.
  seq ltac:(apply frames_get_or_new). intros r _.
  seq ltac:(apply frames_set_get). intros s _. apply IH.
Qed.

Lemma frames_todos_prerequisitos self disciplina :
  frames h0 (λ _, True) (todos_prerequisitos self disciplina).
Proof.
  seq ltac:(apply frames_dict_get). intros d _.
  destruct (d !! disciplina); [|apply frames_raise].
  seq ltac:(apply frames_alloc_set). intros vistos Hv.
  seq ltac:(apply frames_as_ref). intros deps _.
  seq ltac:(apply frames_set_get). intros s _.
  seq ltac:(apply frames_fuel_of_search). intros fuel _.
  seq ltac:(by apply frames_todos_loop). intros _ _.
  seq ltac:(apply frames_set_get). intros found _. by apply frames_ret.
Qed.

Lemma frames_existe_loop fuel self a visitados pilha :
  local h0 visitados →
  frames h0 (λ _, True) (existe_loop fuel self a visitados pilha).
Proof.
  intros Hv. revert pilha.
  induction fuel as [|fuel IH]; intros [|cur pilha]; simpl;
    try by (apply frames_ret || apply frames_out_of_fuel).
  destruct (decide (cur = a)); [by apply frames_ret|].
  seq ltac:(apply frames_set_get). intros v _.
  destruct (decide (cur ∈ v)); [apply IH|].
  seq ltac:(by apply frames_set_add). intros _ _.
  seq ltac:(apply frames_get_or_new). intros r _.
  seq ltac:(apply frames_set_get). intros s _. apply IH.
Qed.

Lemma frames_existe_dependencia self a b :
  frames h0 (λ _, True) (existe_dependencia self a b).
Proof.
  seq ltac:(apply frames_dict_get). intros d _.
  destruct (d !! b); [|by apply frames_ret].
  destruct (d !! a); [|by apply frames_ret].
  seq ltac:(apply frames_as_ref). intros deps _.
  seq ltac:(apply frames_set_get). intros s _.
  seq ltac:(apply frames_alloc_set). intros visitados Hv.
  seq ltac:(apply frames_fuel_of_search). intros fuel _.
  by apply frames_existe_loop.
Qed.

Lemma frames_in_degree_of prs : frames h0 (local h0) (in_degree_of prs).
Proof.
  seq ltac:(apply frames_dict_get). intros d _.
  seq ltac:(apply frames_alloc_dict). intros in_degree Hin.
  eapply frames_bind with (mid := λ _, True); [|intros; by apply frames_ret].
  apply frames_for_each; [|done]. intros item _ _.
  seq ltac:(apply frames_as_ref). intros deps _.
  seq ltac:(apply frames_set_get). intros s _.
  by apply frames_dict_set_int.
Qed.

Lemma frames_grau_zero in_degree :
  frames h0 (λ _, True) (grau_zero in_degree).
Proof.
  seq ltac:(apply frames_dict_get). intros d _. by apply frames_ret.
Qed.

Lemma frames_reverse_adj_vazia prs :
  frames h0 (local h0) (reverse_adj_vazia prs).
Proof.
  seq ltac:(apply frames_dict_get). intros d _.
  seq ltac:(apply frames_alloc_dict). intros reverse_adj Hra.
  eapply frames_bind with (mid := λ _, True); [|intros; by apply frames_ret].
  apply frames_for_each; [|done]. intros item _ _.
  seq ltac:(apply frames_alloc_set). intros s Hs.
  by apply frames_dict_set_ref.
Qed.

(** [reverse_adj[p].add(node)] adds to a set made by [reverse_adj_vazia],
    never to one of the graph. *)
Lemma frames_reverse_add reverse_adj node p u :
  local h0 reverse_adj →
  frames h0 (λ _, True) (reverse_add reverse_adj node p u).
Proof.
  intros Hra. seq ltac:(by apply frames_dict_get_local). intros ra Hrefs.
  destruct (ra !! p) as [v|] eqn:Hp; [|apply frames_raise].
  seq ltac:(apply frames_as_ref). intros s ->.
  apply frames_set_add. by eapply Hrefs.
Qed.

Lemma frames_reverse_adj_of prs : frames h0 (local h0) (reverse_adj_of prs).
Proof.
  seq ltac:(apply frames_reverse_adj_vazia). intros reverse_adj Hra.
  seq ltac:(apply frames_dict_get). intros d _.
  eapply frames_bind with (mid := λ _, True); [|intros; by apply frames_ret].
  apply frames_for_each; [|done]. intros item _ _.
  seq ltac:(apply frames_as_ref). intros deps _.
  seq ltac:(apply frames_set_get). intros s _.
  apply frames_for_each; [|done]. intros p u _.
  by apply frames_reverse_add.
Qed.

Lemma frames_kahn_visit in_degree m fila :
  local h0 in_degree → frames h0 (λ _, True) (kahn_visit in_degree m fila).
Proof.
  intros Hin. seq ltac:(apply frames_dict_get). intros ind _.
  destruct (ind !! m); [|apply frames_raise].
  seq ltac:(apply frames_as_int). intros d _.
  seq ltac:(by apply frames_dict_set_int). intros _ _.
  destruct (decide _); by apply frames_ret.
Qed.

Lemma frames_successors reverse_adj n :
  frames h0 (λ _, True) (successors reverse_adj n).
Proof.
  seq ltac:(apply frames_dict_get). intros ra _.
  destruct (ra !! n); [|by apply frames_ret].
  seq ltac:(apply frames_as_ref). intros r _.
  seq ltac:(apply frames_set_get). intros s _. by apply frames_ret.
Qed.

Lemma frames_kahn_loop fuel reverse_adj in_degree fila ordem :
  local h0 in_degree →
  frames h0 (λ _, True) (kahn_loop fuel reverse_adj in_degree fila ordem).
Proof.
  intros Hin. revert fila ordem.
  induction fuel as [|fuel IH]; intros [|n fila] ordem; simpl;
    try by (apply frames_ret || apply frames_out_of_fuel).
  seq ltac:(apply frames_successors). intros ms _.
  eapply frames_bind with (mid := λ _, True); [|intros; apply IH].
  apply frames_for_each; [|done]. intros m fila' _.
  by apply frames_kahn_visit.
Qed.

(** Kahn's algorithm counts down in its own dictionary and reads [prs],
    whether [prs] is the graph or the sub-graph made for a plan. *)
Lemma frames_kahn prs : frames h0 (λ _, True) (kahn prs).
Proof.
  seq ltac:(apply frames_in_degree_of). intros in_degree Hin.
  seq ltac:(apply frames_grau_zero). intros fila _.
  seq ltac:(apply frames_reverse_adj_of). intros reverse_adj Hra.
  seq ltac:(apply frames_dict_get). intros d _.
  seq ltac:(by apply frames_kahn_loop). intros ordem _.
  seq ltac:(apply frames_dict_get). intros d' _.
  destruct (decide _); [apply frames_raise | by apply frames_ret].
Qed.

Lemma frames_ordenacao_topologica self :
  frames h0 (λ _, True) (ordenacao_topologica self).
Proof. apply frames_kahn. Qed.

Lemma frames_tem_ciclo self : frames h0 (λ _, True) (tem_ciclo self).
Proof.
  apply frames_catch_cycle; [|by apply frames_ret].
  seq ltac:(apply frames_ordenacao_topologica). intros _ _.
  by apply frames_ret.
Qed.

Lemma frames_sub_prs_of self necessario :
  frames h0 (local h0) (sub_prs_of self necessario).
Proof.
  seq ltac:(apply frames_alloc_dict). intros sub_prs Hsub.
  seq ltac:(apply frames_set_get). intros nec _.
  eapply frames_bind with (mid := λ _, True); [|intros; by apply frames_ret].
  apply frames_for_each; [|done]. intros node _ _.
  seq ltac:(apply frames_get_or_new). intros r _.
  seq ltac:(apply frames_set_get). intros s _.
  seq ltac:(apply frames_set_get). intros nec' _.
  seq ltac:(apply frames_alloc_set). intros novo Hnovo.
  by apply frames_dict_set_ref.
Qed.

Lemma frames_plano_de_estudo_para self alvo :
  frames h0 (λ _, True) (plano_de_estudo_para self alvo).
Proof.
  seq ltac:(apply frames_dict_get). intros d _.
  destruct (d !! alvo); [|apply frames_raise].
  seq ltac:(apply frames_todos_prerequisitos). intros todos _.
  seq ltac:(apply frames_alloc_set). intros necessario Hnec.
  seq ltac:(by apply frames_set_add). intros _ _.
  seq ltac:(apply frames_sub_prs_of). intros sub_prs Hsub.
  apply frames_kahn.
Qed.

Lemma frames_nivel_visit sub_prs in_degree proximos n m u :
  local h0 in_degree → local h0 proximos →
  frames h0 (λ _, True) (nivel_visit sub_prs in_degree proximos n m u).
Proof.
  intros Hin Hprox.
  seq ltac:(apply frames_get_or_new). intros r _.
  seq ltac:(apply frames_set_get). intros s _.
  destruct (decide (n ∈ s)); [|by apply frames_ret].
  seq ltac:(apply frames_dict_get). intros ind _.
  destruct (ind !! m); [|apply frames_raise].
  seq ltac:(apply frames_as_int). intros d _.
  seq ltac:(by apply frames_dict_set_int). intros _ _.
  destruct (decide _); [by apply frames_set_add | by apply frames_ret].
Qed.

Lemma frames_nivel_node necessario sub_prs in_degree proximos processados n u :
  local h0 in_degree → local h0 proximos → local h0 processados →
  frames h0 (λ _, True)
    (nivel_node necessario sub_prs in_degree proximos processados n u).
Proof.
  intros Hin Hprox Hproc.
  seq ltac:(by apply frames_set_add). intros _ _.
  seq ltac:(apply frames_set_get). intros nec _.
  apply frames_for_each; [|done]. intros m u' _.
  by apply frames_nivel_visit.
Qed.

Lemma frames_niveis_loop fuel necessario sub_prs in_degree processados
    disponiveis niveis :
  local h0 in_degree → local h0 processados →
  frames h0 (λ _, True)
    (niveis_loop fuel necessario sub_prs in_degree processados disponiveis
       niveis).
Proof.
  intros Hin Hproc. revert disponiveis niveis.
  induction fuel as [|fuel IH]; intros disponiveis niveis; simpl.
  - seq ltac:(apply frames_set_get). intros disp _.
    destruct (decide _); [by apply frames_ret | apply frames_out_of_fuel].
  - seq ltac:(apply frames_set_get). intros disp _.
    destruct (decide _); [by apply frames_ret|].
    seq ltac:(apply frames_alloc_set). intros nivel _.
    seq ltac:(apply frames_alloc_set). intros proximos Hprox.
    eapply frames_bind with (mid := λ _, True).
    { apply frames_for_each; [|done]. intros node u _.
      by apply frames_nivel_node. }
    intros _ _.
    seq ltac:(apply frames_set_get). intros prox _.
    seq ltac:(apply frames_set_get). intros proc _.
    seq ltac:(apply frames_alloc_set). intros disponiveis' _.
    apply IH.
Qed.

Lemma frames_read_sets ls : frames h0 (λ _, True) (read_sets ls).
Proof.
  induction ls as [|l ls IH]; simpl; [by apply frames_ret|].
  seq ltac:(apply frames_set_get). intros s _.
  seq ltac:(apply IH). intros ss _. by apply frames_ret.
Qed.

Lemma frames_progressao_por_niveis_para self alvo :
  frames h0 (λ _, True) (progressao_por_niveis_para self alvo).
Proof.
  seq ltac:(apply frames_plano_de_estudo_para). intros ordem _.
  seq ltac:(apply frames_alloc_set). intros necessario _.
  seq ltac:(apply frames_sub_prs_of). intros sub_prs _.
  seq ltac:(apply frames_in_degree_of). intros in_degree Hin.
  seq ltac:(apply frames_grau_zero). intros zeros _.
  seq ltac:(apply frames_alloc_set). intros disponiveis _.
  seq ltac:(apply frames_alloc_set). intros processados Hproc.
  seq ltac:(apply frames_set_get). intros nec _.
  seq ltac:(by apply frames_niveis_loop). intros niveis _.
  apply frames_read_sets.
Qed.

Lemma frames_repr self : frames h0 (λ _, True) (repr self).
Proof.
  seq ltac:(apply frames_dict_get). intros d _. by apply frames_ret.
Qed.

Lemma frames_run_query self q : frames h0 (λ _, True) (run_query self q).
Proof.
  destruct q; simpl;
    (eapply frames_bind with (mid := λ _, True);
       [|intros; by apply frames_ret]).
  - apply frames_disciplinas.
  - apply frames_prerequisitos_diretos.
  - apply frames_todos_prerequisitos.
  - apply frames_existe_dependencia.
  - apply frames_tem_ciclo.
  - apply frames_ordenacao_topologica.
  - apply frames_plano_de_estudo_para.
  - apply frames_progressao_por_niveis_para.
Qed.

End frame.

(** *** The graph under [self] *)

Lemma keeps_refl (h : gmap Store.loc Store.obj) : Store.keeps h h.
Proof. by intros l o. Qed.

Lemma local_dicts_refl (h : gmap Store.loc Store.obj) : Store.local_dicts h h.
Proof. intros l d k r Hl Hd. unfold Store.local in Hl. congruence. Qed.

Lemma keeps_well_formed h h' self :
  Store.keeps h h' → Store.well_formed h self → Store.well_formed h' self.
Proof.
  intros Hkeep (d & Hself & Hd). exists d. split; [by apply Hkeep|].
  intros k v Hk. destruct (Hd k v Hk) as (r & s & -> & Hr).
  exists r, s. split; [done|]. by apply Hkeep.
Qed.

Lemma keeps_graph_of h h' self :
  Store.keeps h h' → Store.well_formed h self →
  Store.graph_of h' self = Store.graph_of h self.
Proof.
  intros Hkeep (d & Hself & Hd). unfold Store.graph_of.
  rewrite (Hkeep _ _ Hself), Hself. apply map_fmap_ext.
  intros k v Hk. destruct (Hd k v Hk) as (r & s & -> & Hr). simpl.
  by rewrite (Hkeep _ _ Hr), Hr.
Qed.

(** *** The stores the constructor and the mutations build *)

Section well_formed.
Import Store.
Variable self : loc.

Lemma preserves_ret {A} (a : A) : preserves self (ret a).
Proof. by intros h. Qed.

Lemma preserves_raise {A} e : preserves self (raise (A := A) e).
Proof. by intros h. Qed.

Lemma preserves_stuck {A} : preserves self (stuck (A := A)).
Proof. by intros h. Qed.

Lemma preserves_bind {A B} (c : M A) (k : A → M B) :
  preserves self c → (∀ a, preserves self (k a)) → preserves self (bind c k).
Proof.
  intros Hc Hk h Hwf. unfold bind. specialize (Hc h Hwf).
  destruct (c h) as [[a|e| |] h']; simpl in *; try done. by apply Hk.
Qed.

Lemma preserves_for_each {A S} (xs : list A) (body : A → S → M S) s :
  (∀ x s, preserves self (body x s)) → preserves self (for_each xs body s).
Proof.
  intros Hbody. revert s. induction xs as [|x xs IH]; intros s; simpl.
  - apply preserves_ret.
  - apply preserves_bind; [apply Hbody | apply IH].
Qed.

Lemma preserves_set_get l : preserves self (set_get l).
Proof. intros h Hwf. unfold set_get. by destruct (h !! l) as [[]|]. Qed.

Lemma preserves_dict_get l : preserves self (dict_get l).
Proof. intros h Hwf. unfold dict_get. by destruct (h !! l) as [[]|]. Qed.

Lemma preserves_as_ref v : preserves self (as_ref v).
Proof. destruct v; [apply preserves_ret | apply preserves_stuck]. Qed.

(** A set may become any other set. *)
Lemma preserves_set_put l s : preserves self (set_put l s).
Proof.
  intros h (d & Hself & Hd). unfold set_put.
  destruct (h !! l) as [[s0|]|] eqn:Hl; simpl; try by exists d.
  exists d. split.
  - rewrite lookup_insert_ne; [done|]. intros Heq. subst l. congruence.
  - intros k v Hk. destruct (Hd k v Hk) as (r & s' & -> & Hr).
    destruct (decide (r = l)) as [Heq|Hne].
    + subst r. exists l, s. by rewrite lookup_insert_eq.
    + exists r, s'. by rewrite lookup_insert_ne.
Qed.

Lemma preserves_set_add l x : preserves self (set_add l x).
Proof.
  apply preserves_bind; [apply preserves_set_get|].
  intros s. apply preserves_set_put.
Qed.

Lemma preserves_set_discard l x : preserves self (set_discard l x).
Proof.
  apply preserves_bind; [apply preserves_set_get|].
  intros s. apply preserves_set_put.
Qed.

(** A key of [self._pre_reqs] may go. *)
Lemma preserves_dict_del k : preserves self (dict_del self k).
Proof.
  intros h (d & Hself & Hd). unfold dict_del, bind, dict_get, dict_put.
  rewrite Hself. simpl. rewrite Hself. simpl.
  exists (delete k d). split; [by rewrite lookup_insert_eq|].
  intros k' v Hk'. apply lookup_delete_Some in Hk' as [_ Hk'].
  destruct (Hd k' v Hk') as (r & s & -> & Hr). exists r, s. split; [done|].
  rewrite lookup_insert_ne; [done|]. intros ->. congruence.
Qed.

Lemma preserves_adicionar_disciplina disciplina :
  preserves self (adicionar_disciplina self disciplina).
Proof.
  intros h Hwf. pose proof Hwf as (d & Hself & Hd).
  unfold adicionar_disciplina, bind at 1, dict_get. rewrite Hself.
  destruct (d !! disciplina) eqn:Hk; [done|].
  assert (Hfresh : h !! fresh (dom h) = None).
  { apply not_elem_of_dom. apply is_fresh. }
  assert (Hne : fresh (dom h) ≠ self) by (intros Heq; congruence).
  assert (Hself' : <[fresh (dom h) := OSet ∅]> h !! self = Some (ODict d)).
  { by rewrite lookup_insert_ne. }
  unfold bind, alloc, dict_set, bind, dict_get, dict_put. simpl.
  rewrite Hself'. simpl. rewrite Hself'. simpl.
  exists (<[disciplina := VRef (fresh (dom h))]> d).
  split; [by rewrite lookup_insert_eq|].
  intros k v Hv. destruct (decide (k = disciplina)) as [->|Hkne].
  - rewrite lookup_insert_eq in Hv. injection Hv as <-.
    exists (fresh (dom h)), ∅. split; [done|].
    rewrite lookup_insert_ne by done. by rewrite lookup_insert_eq.
  - rewrite lookup_insert_ne in Hv by done.
    destruct (Hd k v Hv) as (r & s & -> & Hr). exists r, s. split; [done|].
    rewrite !lookup_insert_ne; [done| |]; intros Heq; congruence.
Qed.

Lemma preserves_remover_disciplina disciplina :
  preserves self (remover_disciplina self disciplina).
Proof.
  apply preserves_bind; [apply preserves_dict_get|]. intros d.
  destruct (d !! disciplina); [|apply preserves_ret].
  apply preserves_bind; [apply preserves_dict_del|]. intros _.
  apply preserves_bind; [apply preserves_dict_get|]. intros d'.
  apply preserves_for_each. intros kv u.
  apply preserves_bind; [apply preserves_as_ref|]. intros deps.
  apply preserves_set_discard.
Qed.

Lemma preserves_adicionar_pre_requisito pre disciplina :
  preserves self (adicionar_pre_requisito self pre disciplina).
Proof.
  apply preserves_bind; [apply preserves_adicionar_disciplina|]. intros _.
  apply preserves_bind; [apply preserves_adicionar_disciplina|]. intros _.
  apply preserves_bind; [apply preserves_dict_get|]. intros d.
  destruct (d !! disciplina); [|apply preserves_raise].
  apply preserves_bind; [apply preserves_as_ref|]. intros deps.
  apply preserves_set_add.
Qed.

Lemma preserves_remover_pre_requisito pre disciplina :
  preserves self (remover_pre_requisito self pre disciplina).
Proof.
  apply preserves_bind; [apply preserves_dict_get|]. intros d.
  destruct (d !! disciplina); [|apply preserves_ret].
  apply preserves_bind; [apply preserves_as_ref|]. intros deps.
  apply preserves_set_discard.
Qed.

Lemma preserves_apply_mutation mu : preserves self (apply_mutation self mu).
Proof.
  destruct mu; simpl.
  - apply preserves_adicionar_disciplina.
  - apply preserves_remover_disciplina.
  - apply preserves_adicionar_pre_requisito.
  - apply preserves_remover_pre_requisito.
Qed.

End well_formed.

Lemma well_formed_nova (h : gmap Store.loc Store.obj) :
  Store.well_formed (Store.nova h).2 (fresh (dom h)).
Proof.
  exists ∅. split; [apply lookup_insert_eq|]. intros k v. by rewrite lookup_empty.
Qed.

Lemma well_formed_construir arestas :
  Store.well_formed (Store.construir arestas).2 (Store.construir arestas).1.
Proof.
  unfold Store.construir. pose proof (well_formed_nova ∅) as Hwf.
  change (Store.nova ∅) with
    (Store.Ok (fresh (dom (∅ : gmap Store.loc Store.obj))),
     <[fresh (dom (∅ : gmap Store.loc Store.obj)) := Store.ODict ∅]>
       (∅ : gmap Store.loc Store.obj)) in *.
  simpl in *. revert Hwf. apply preserves_for_each. intros a u.
  apply preserves_adicionar_pre_requisito.
Qed.

(** *** The two embeddings on the examples *)

Lemma store_diamante_graph :
  Store.graph_of Store.diamante.2 Store.diamante.1 = pre_reqs diamante.
Proof. vm_compute. reflexivity. Qed.

Lemma store_ciclo2_graph :
  Store.graph_of Store.ciclo2.2 Store.ciclo2.1 = pre_reqs ciclo2.
Proof. vm_compute. reflexivity. Qed.

Lemma store_diamante_agrees :
  Forall (λ q, Store.agrees (Store.run_query Store.diamante.1 q Store.diamante.2).1
                 (run_query q diamante).1)
    [ListCourses; DirectPrerequisites "D"; DirectPrerequisites "Z";
     AllPrerequisites "D"; AllPrerequisites "Z"; DependsOn "A" "D";
     DependsOn "D" "A"; DependsOn "D" "D"; HasCycle; TopologicalOrder;
     StudyPlan "D"; StudyPlan "B"; StudyPlan "Z"; LevelProgression "D";
     LevelProgression "Z"]%string.
Proof.
  repeat (apply Forall_cons_2; [vm_compute; reflexivity|]). apply Forall_nil_2.
Qed.

Lemma store_ciclo2_agrees :
  Forall (λ q, Store.agrees (Store.run_query Store.ciclo2.1 q Store.ciclo2.2).1
                 (run_query q ciclo2).1)
    [ListCourses; DirectPrerequisites "A"; AllPrerequisites "A";
     DependsOn "A" "A"; DependsOn "A" "B"; HasCycle; TopologicalOrder;
     StudyPlan "A"; LevelProgression "B"]%string.
Proof.
  repeat (apply Forall_cons_2; [vm_compute; reflexivity|]). apply Forall_nil_2.
Qed.

(** Both ways a query can fail are outcomes of the store embedding too. *)
Lemma store_queries_raise :
  (Store.run_query Store.diamante.1 (StudyPlan "Z") Store.diamante.2).1
    = Store.Err KeyError
  ∧ (Store.run_query Store.ciclo2.1 TopologicalOrder Store.ciclo2.2).1
    = Store.Err CycleError
  ∧ (Store.run_query Store.ciclo2.1 (LevelProgression "A") Store.ciclo2.2).1
    = Store.Err CycleError.
Proof. vm_compute. repeat split. Qed.

(** Each of the four mutations updates an object of the graph in place. *)
Lemma store_mutations_change_the_graph :
  Forall (λ mu,
            Store.graph_of (Store.apply_mutation Store.diamante.1 mu
                              Store.diamante.2).2 Store.diamante.1
            ≠ Store.graph_of Store.diamante.2 Store.diamante.1)
    [AddCourse "E"; RemoveCourse "A"; AddPrerequisite "A" "D";
     RemovePrerequisite "A" "B"]%string.
Proof.
  repeat (apply Forall_cons_2;
            [apply (bool_decide_eq_false_1 _); vm_compute; reflexivity|]).
  apply Forall_nil_2.
Qed.

(** The set [self._pre_reqs.get(k, set())] gives is the one the graph holds,
    not a copy: adding to it is adding an edge. *)
Lemma store_get_is_no_copy :
  Store.graph_of
    (Store.bind (Store.get_or_new Store.diamante.1 "B")
       (λ r, Store.set_add r "Z") Store.diamante.2).2 Store.diamante.1
  = <["B"%string := {["A"; "Z"]}%string]>
      (Store.graph_of Store.diamante.2 Store.diamante.1).
Proof. vm_compute. reflexivity. Qed.

(** * The claims *)

(** C1. On a graph without dangling edges (the invariant of the data model)
    and without a directed cycle, [ordenacao_topologica] returns a
    permutation of all the nodes of the graph in which, for every edge
    pre→course, [pre] occurs strictly before [course]; the graph is left
    unchanged. *)
Theorem ordenacao_topologica_sorts self :
  closed (pre_reqs self) → acyclic (pre_reqs self) →
  ∃ ordem nodes,
    ordenacao_topologica self = (Ret ordem, self)
    ∧ disciplinas self = (Ret nodes, self)
    ∧ ordem ≡ₚ nodes
    ∧ ∀ pre course, edge (pre_reqs self) pre course → before ordem pre course.
Proof.
  intros Hcl Hac.
  destruct (kahn_acyclic _ Hcl Hac) as (ordem & Hrun & Hnd & Hkeys & Htopo).
  exists ordem, (map_to_list (pre_reqs self)).*1. split_and!.
  - unfold ordenacao_topologica, bind_m, read_pre_reqs, local_m. by rewrite Hrun.
  - done.
  - by apply keys_Permutation.
  - intros pre course He. eapply topo_from_before; [done| |by apply tc_once].
    apply Hkeys. destruct He as (deps & -> & _). eauto.
Qed.

Lemma ordenacao_topologica_sorts_witness :
  ∃ ordem nodes,
    ordenacao_topologica diamante = (Ret ordem, diamante)
    ∧ disciplinas diamante = (Ret nodes, diamante)
    ∧ ordem ≡ₚ nodes
    ∧ ∀ pre course, edge (pre_reqs diamante) pre course → before ordem pre course.
Proof.
  apply ordenacao_topologica_sorts.
  - apply closedb_spec. vm_compute. reflexivity.
  - apply acyclicb_spec. vm_compute. reflexivity.
Defined.

(** C4. On a graph without dangling edges, [ordenacao_topologica] raises
    [CycleError] if and only if the graph has a directed cycle; [tem_ciclo]
    returns [True] if and only if it has one and [False] if and only if it
    has none, never lets [CycleError] through, and answers [False] on the
    empty graph. *)
Theorem tem_ciclo_detects_cycles self :
  closed (pre_reqs self) →
  (ordenacao_topologica self = (Raise CycleError, self) ↔ has_cycle (pre_reqs self))
  ∧ (tem_ciclo self = (Ret true, self) ↔ has_cycle (pre_reqs self))
  ∧ (tem_ciclo self = (Ret false, self) ↔ acyclic (pre_reqs self))
  ∧ (tem_ciclo self).1 ≠ Raise CycleError
  ∧ tem_ciclo rede_vazia = (Ret false, rede_vazia).
Proof.
  intros Hcl.
  assert (ordenacao_topologica self = (kahn (pre_reqs self), self)) as Hord by done.
  unfold tem_ciclo. rewrite Hord.
  destruct (cycle_or_acyclic (pre_reqs self)) as [Hcyc|Hac].
  - rewrite (kahn_cyclic _ Hcl Hcyc). pose proof (has_cycle_not_acyclic _ Hcyc).
    split_and!; [done|done|split; [done|tauto]|done|done].
  - destruct (kahn_acyclic _ Hcl Hac) as (ordem & -> & _).
    assert (¬ has_cycle (pre_reqs self)) by (intros ?%has_cycle_not_acyclic; tauto).
    split_and!; try done; split; try done; tauto.
Qed.

Lemma tem_ciclo_detects_cycles_witness :
  (ordenacao_topologica ciclo2 = (Raise CycleError, ciclo2) ↔ has_cycle (pre_reqs ciclo2))
  ∧ (tem_ciclo ciclo2 = (Ret true, ciclo2) ↔ has_cycle (pre_reqs ciclo2))
  ∧ (tem_ciclo ciclo2 = (Ret false, ciclo2) ↔ acyclic (pre_reqs ciclo2))
  ∧ (tem_ciclo ciclo2).1 ≠ Raise CycleError
  ∧ tem_ciclo rede_vazia = (Ret false, rede_vazia).
Proof.
  apply tem_ciclo_detects_cycles. apply closedb_spec. vm_compute. reflexivity.
Defined.

(** C6. [todos_prerequisitos] raises [KeyError] on an unknown course.  On a
    known one it returns, on every graph (cyclic or not), exactly the courses
    from which [disciplina] is reachable by one or more prerequisite edges,
    each once; the search visits every node at most once, and the visited
    nodes are the result.  On the diamond it returns A, B and C for D. *)
Theorem todos_prerequisitos_ancestors self disciplina :
  (pre_reqs self !! disciplina = None →
     todos_prerequisitos disciplina self = (Raise KeyError, self))
  ∧ (∀ deps, pre_reqs self !! disciplina = Some deps →
     ∃ todos,
       todos_prerequisitos disciplina self = (Ret todos, self)
       ∧ NoDup todos
       ∧ (∀ x, x ∈ todos ↔ ancestor (pre_reqs self) x disciplina)
       ∧ NoDup (todos_visitas (size deps + total_prs (pre_reqs self))
                  (pre_reqs self) ∅ (reverse (elements deps)))
       ∧ todos_visitas (size deps + total_prs (pre_reqs self))
           (pre_reqs self) ∅ (reverse (elements deps)) ≡ₚ todos)
  ∧ ∃ todos, todos_prerequisitos "D" diamante = (Ret todos, diamante)
             ∧ todos ≡ₚ ["A"; "B"; "C"]%string.
Proof.
  split_and!.
  - intros Hd. unfold todos_prerequisitos, bind_m, read_pre_reqs. by rewrite Hd.
  - intros deps Hd. rewrite (todos_prerequisitos_run _ _ _ Hd).
    eexists. split; [done|].
    destruct (todos_loop_ancestors _ _ _ Hd) as (V & HV & Hanc).
    destruct (todos_visitas_spec _ _ _ _ _ HV) as (Hnd & _ & HVeq).
    assert (ancestors_of (pre_reqs self) disciplina = V) as ->.
    { unfold ancestors_of. by rewrite (get_prs_Some _ _ _ Hd), HV. }
    split_and!; [apply NoDup_elements| |done|].
    + intros x. by rewrite elem_of_elements.
    + apply NoDup_Permutation; [done|apply NoDup_elements|].
      intros x. rewrite elem_of_elements, HVeq. set_solver.
  - exists ["C"; "A"; "B"]%string. split; [vm_compute; reflexivity|].
    exact (Permutation_cons_append ["A"; "B"]%string "C"%string).
Qed.

Lemma todos_prerequisitos_ancestors_witness :
  ∃ todos,
    todos_prerequisitos "D" diamante = (Ret todos, diamante)
    ∧ NoDup todos
    ∧ (∀ x, x ∈ todos ↔ ancestor (pre_reqs diamante) x "D").
Proof.
  destruct (proj1 (proj2 (todos_prerequisitos_ancestors diamante "D"))
              (get_prs (pre_reqs diamante) "D"))
    as (todos & Hrun & Hnd & Hanc & _).
  - vm_compute. reflexivity.
  - exists todos. exact (conj Hrun (conj Hnd Hanc)).
Defined.

(** C5, as the code has it.  [existe_dependencia] always returns a boolean,
    [False] when [a] or [b] is not a node; [existe_dependencia a a] is [True]
    exactly when [a] is its own direct or indirect prerequisite, that is when
    [a] lies on a directed cycle, a self-loop being the one-edge case; and on
    a graph without dangling edges, for a known [b], [existe_dependencia a b]
    is [True] if and only if [a] is in [todos_prerequisitos b]. *)
Theorem existe_dependencia_reachability self a b :
  (pre_reqs self !! a = None ∨ pre_reqs self !! b = None →
     existe_dependencia a b self = (Ret false, self))
  ∧ (∃ r, existe_dependencia a b self = (Ret r, self))
  ∧ (existe_dependencia a a self = (Ret true, self) ↔ ancestor (pre_reqs self) a a)
  ∧ (edge (pre_reqs self) a a → existe_dependencia a a self = (Ret true, self))
  ∧ (closed (pre_reqs self) → is_Some (pre_reqs self !! b) →
     ∃ todos, todos_prerequisitos b self = (Ret todos, self)
              ∧ (existe_dependencia a b self = (Ret true, self) ↔ a ∈ todos)).
Proof.
  assert (existe_dependencia a a self = (Ret true, self)
          ↔ ancestor (pre_reqs self) a a) as Hself.
  { destruct (pre_reqs self !! a) as [deps|] eqn:Ha.
    - rewrite (existe_dependencia_run _ _ _ _ _ Ha Ha), <-ancestors_of_spec.
      split; [intros [= ?%bool_decide_eq_true]; done|].
      intros ?. by rewrite bool_decide_eq_true_2.
    - rewrite existe_dependencia_unknown by auto. split; [done|].
      intros [? ?]%ancestor_is_key. congruence. }
  split_and!.
  - apply existe_dependencia_unknown.
  - destruct (pre_reqs self !! b) as [deps|] eqn:Hb;
      [destruct (pre_reqs self !! a) as [deps'|] eqn:Ha|].
    + rewrite (existe_dependencia_run _ _ _ _ _ Hb Ha). eauto.
    + rewrite existe_dependencia_unknown by auto. eauto.
    + rewrite existe_dependencia_unknown by auto. eauto.
  - done.
  - intros He. apply Hself. by apply tc_once.
  - intros Hcl [deps Hb]. rewrite (todos_prerequisitos_run _ _ _ Hb).
    eexists. split; [done|].
    by rewrite existe_dependencia_ancestor, elem_of_elements, ancestors_of_spec.
Qed.

Lemma existe_dependencia_reachability_witness :
  ∃ todos, todos_prerequisitos "D" diamante = (Ret todos, diamante)
           ∧ (existe_dependencia "A" "D" diamante = (Ret true, diamante)
              ↔ "A"%string ∈ todos).
Proof.
  apply (existe_dependencia_reachability diamante "A" "D").
  - apply closedb_spec. vm_compute. reflexivity.
  - exists (get_prs (pre_reqs diamante) "D"). vm_compute. reflexivity.
Defined.

(** C5, as the specification states it, fails on the two-course cycle
    A→B, B→A: [existe_dependencia "A" "A"] is [True] although the graph has
    no self-loop edge on A. *)
Lemma existe_dependencia_self_counterexample :
  existe_dependencia "A" "A" ciclo2 = (Ret true, ciclo2)
  ∧ ¬ edge (pre_reqs ciclo2) "A" "A".
Proof.
  split; [vm_compute; reflexivity|].
  intros He%edge_get_prs.
  assert (bool_decide ("A"%string ∈ get_prs (pre_reqs ciclo2) "A") = false) as Hb
    by (vm_compute; reflexivity).
  by apply bool_decide_eq_false in Hb.
Qed.

(** C2. For a known [alvo], if the sub-graph induced on the courses needed
    for [alvo] has no cycle, [plano_de_estudo_para] returns a duplicate-free
    order of exactly [alvo] and the courses of [todos_prerequisitos alvo],
    ending with [alvo], in which every course of the plan occurs before all
    the courses of the plan that depend on it; and it raises [CycleError] if
    and only if that induced sub-graph has a cycle, whatever the rest of the
    graph holds. *)
Theorem plano_de_estudo_para_correct self alvo :
  is_Some (pre_reqs self !! alvo) →
  (¬ induced_cycle (pre_reqs self) (required (pre_reqs self) alvo) →
   ∃ ordem todos,
     plano_de_estudo_para alvo self = (Ret ordem, self)
     ∧ todos_prerequisitos alvo self = (Ret todos, self)
     ∧ NoDup ordem
     ∧ (∀ x, x ∈ ordem ↔ x = alvo ∨ x ∈ todos)
     ∧ last ordem = Some alvo
     ∧ (∀ x y, x ∈ ordem → y ∈ ordem →
          ancestor (pre_reqs self) x y → before ordem x y))
  ∧ (plano_de_estudo_para alvo self = (Raise CycleError, self)
     ↔ induced_cycle (pre_reqs self) (required (pre_reqs self) alvo)).
Proof.
  intros [deps Hd]. rewrite (plano_de_estudo_para_run _ _ _ Hd).
  rewrite <-sub_prs_cycle.
  set (sub := sub_prs_of (pre_reqs self) (necessario_de (pre_reqs self) alvo)).
  destruct (cycle_or_acyclic sub) as [Hcyc|Hac].
  - rewrite (kahn_cyclic sub (sub_prs_closed _ _) Hcyc). split; [done|].
    split; done.
  - destruct (kahn_sub_prs _ _ Hac) as (ordem & Hrun & Hnd & Hreq & Hlast & Hbef).
    fold sub in Hrun. rewrite Hrun. split.
    + intros _. exists ordem. eexists. rewrite (todos_prerequisitos_run _ _ _ Hd).
      split_and!; [done..| |done|by eauto].
      intros x. rewrite Hreq, elem_of_elements, ancestors_of_spec. done.
    + split; [done|]. intros ?%has_cycle_not_acyclic. done.
Qed.

Lemma plano_de_estudo_para_correct_witness :
  (∃ ordem todos,
     plano_de_estudo_para "D" diamante = (Ret ordem, diamante)
     ∧ todos_prerequisitos "D" diamante = (Ret todos, diamante)
     ∧ NoDup ordem
     ∧ (∀ x, x ∈ ordem ↔ x = "D"%string ∨ x ∈ todos)
     ∧ last ordem = Some "D"%string
     ∧ (∀ x y, x ∈ ordem → y ∈ ordem →
          ancestor (pre_reqs diamante) x y → before ordem x y))
  ∧ (plano_de_estudo_para "A" ciclo2 = (Raise CycleError, ciclo2)
     ↔ induced_cycle (pre_reqs ciclo2) (required (pre_reqs ciclo2) "A")).
Proof.
  split.
  - apply (plano_de_estudo_para_correct diamante "D").
    + exists (get_prs (pre_reqs diamante) "D"). vm_compute. reflexivity.
    + rewrite <-sub_prs_cycle. apply has_cycle_not_acyclic_2, acyclicb_spec.
      vm_compute. reflexivity.
  - apply (plano_de_estudo_para_correct ciclo2 "A").
    exists (get_prs (pre_reqs ciclo2) "A"). vm_compute. reflexivity.
Defined.

(** C3. For a known [alvo] whose required sub-graph has no cycle,
    [progressao_por_niveis_para] returns non-empty levels that are pairwise
    disjoint, whose union is [alvo] with its ancestors, whose level 0 holds
    exactly the required courses without a required prerequisite, in which
    every required prerequisite of a course of level [k] lies in a level
    before [k], and whose last level contains [alvo].  On the diamond the
    levels for D are {A}, {B, C}, {D}. *)
Theorem progressao_por_niveis_para_correct self alvo :
  is_Some (pre_reqs self !! alvo) →
  ¬ induced_cycle (pre_reqs self) (required (pre_reqs self) alvo) →
  ∃ niveis,
    progressao_por_niveis_para alvo self = (Ret niveis, self)
    ∧ (∀ nivel, nivel ∈ niveis → nivel ≠ ∅)
    ∧ (∀ i j ni nj, i ≠ j → niveis !! i = Some ni → niveis !! j = Some nj →
         ni ## nj)
    ∧ (∀ x, (∃ nivel, nivel ∈ niveis ∧ x ∈ nivel)
            ↔ required (pre_reqs self) alvo x)
    ∧ (∃ n0, niveis !! 0 = Some n0
         ∧ ∀ x, x ∈ n0
                ↔ required (pre_reqs self) alvo x
                  ∧ ∀ p, required (pre_reqs self) alvo p →
                         ¬ edge (pre_reqs self) p x)
    ∧ (∀ k nivel x p, niveis !! k = Some nivel → x ∈ nivel →
         required (pre_reqs self) alvo p → edge (pre_reqs self) p x →
         ∃ j nj, j < k ∧ niveis !! j = Some nj ∧ p ∈ nj)
    ∧ (∃ nivel, last niveis = Some nivel ∧ alvo ∈ nivel)
    ∧ progressao_por_niveis_para "D" diamante
      = (Ret [{["A"]}; {["B"; "C"]}; {["D"]}]%string, diamante).
Proof.
  intros [deps Hd] Hac. rewrite <-sub_prs_cycle in Hac.
  assert (acyclic (sub_prs_of (pre_reqs self) (necessario_de (pre_reqs self) alvo)))
    as Hac' by (by destruct (cycle_or_acyclic
                  (sub_prs_of (pre_reqs self) (necessario_de (pre_reqs self) alvo)))).
  destruct (kahn_sub_prs _ _ Hac') as (ordem & Hrun & _ & Hreq & _).
  assert (list_to_set ordem = necessario_de (pre_reqs self) alvo) as HN.
  { apply set_eq. intros x.
    by rewrite elem_of_list_to_set, Hreq, necessario_de_spec. }
  rewrite (progressao_por_niveis_para_run _ _ _ _ Hd Hrun). cbn zeta.
  rewrite HN. destruct (niveis_sub_prs _ _ Hac') as (niveis & Hrunl & Hlay & Hall).
  rewrite Hrunl.
  set (N := necessario_de (pre_reqs self) alvo) in *.
  set (sub := sub_prs_of (pre_reqs self) N) in *.
  assert (∀ x, x ∈ N ↔ required (pre_reqs self) alvo x) as HNreq
    by (intros x; apply necessario_de_spec).
  assert (∀ m ds, sub !! m = Some ds →
            m ∈ N ∧ ∀ p, p ∈ ds ↔ p ∈ N ∧ edge (pre_reqs self) p m) as Hsub.
  { intros m ds Hm. unfold sub in Hm. rewrite sub_prs_lookup in Hm.
    case_decide; [|done]. simplify_eq. split; [done|]. intros p.
    by rewrite elem_of_filter, edge_get_prs. }
  exists niveis. split_and!; [done| | | | | | |vm_compute; reflexivity].
  - intros nivel [k Hk]%list_elem_of_lookup.
    by destruct (layers_lookup _ _ _ _ Hlay Hk).
  - intros i j ni nj. by apply (layers_disjoint sub).
  - intros x. by rewrite <-elem_of_union_list, Hall, HNreq.
  - destruct niveis as [|n0 niveis].
    { exfalso. assert (alvo ∈ N) as Ha by (apply HNreq; by left).
      rewrite <-Hall in Ha. set_solver. }
    exists n0. split; [done|]. intros x.
    destruct (layers_lookup _ _ 0 n0 Hlay eq_refl) as (_ & Hn0).
    rewrite Hn0. simpl. split.
    + intros (_ & ds & Hx & Hds). destruct (Hsub _ _ Hx) as [HxN Hp].
      split; [by apply HNreq|]. intros p Hpreq He.
      assert (p ∈ ds) by (apply Hp; split; [by apply HNreq | done]). set_solver.
    + intros (HxN%HNreq & Hnone). split; [set_solver|].
      destruct (proj2 (sub_prs_key (pre_reqs self) N x) HxN) as [ds Hx].
      exists ds. split; [done|]. intros p [HpN He]%(proj2 (Hsub _ _ Hx)).
      destruct (Hnone p); [by apply HNreq | done].
  - intros k nivel x p Hk Hx Hp He.
    destruct (layers_lookup _ _ _ _ Hlay Hk) as (_ & Hn).
    apply Hn in Hx as (_ & ds & Hxs & Hds). apply elem_of_union_take, Hds.
    apply (Hsub _ _ Hxs). split; [by apply HNreq | done].
  - exists {[alvo]}. split; [|set_solver].
    by apply (layers_last (pre_reqs self) alvo).
Qed.

Lemma progressao_por_niveis_para_correct_witness :
  ∃ niveis,
    progressao_por_niveis_para "D" diamante = (Ret niveis, diamante)
    ∧ (∀ nivel, nivel ∈ niveis → nivel ≠ ∅)
    ∧ (∀ i j ni nj, i ≠ j → niveis !! i = Some ni → niveis !! j = Some nj →
         ni ## nj).
Proof.
  destruct (progressao_por_niveis_para_correct diamante "D")
    as (niveis & Hrun & Hne & Hdisj & _).
  - exists (get_prs (pre_reqs diamante) "D"). vm_compute. reflexivity.
  - rewrite <-sub_prs_cycle. apply has_cycle_not_acyclic_2, acyclicb_spec.
    vm_compute. reflexivity.
  - exists niveis. exact (conj Hrun (conj Hne Hdisj)).
Defined.

(** C9. Whenever [progressao_por_niveis_para] returns, its last level is
    exactly the set that holds [alvo] alone: every level holds required
    courses only, [alvo] is in no level before the last, and every other
    required course lies in a level strictly before the last. *)
Theorem progressao_por_niveis_para_last self alvo niveis :
  (progressao_por_niveis_para alvo self).1 = Ret niveis →
  last niveis = Some {[alvo]}
  ∧ (∀ nivel x, nivel ∈ niveis → x ∈ nivel → required (pre_reqs self) alvo x)
  ∧ (∀ j nivel, S j < length niveis → niveis !! j = Some nivel → alvo ∉ nivel)
  ∧ (∀ x, required (pre_reqs self) alvo x → x ≠ alvo →
       ∃ j nivel, S j < length niveis ∧ niveis !! j = Some nivel ∧ x ∈ nivel).
Proof.
  intros Hret. destruct (pre_reqs self !! alvo) as [deps|] eqn:Hd.
  2:{ unfold progressao_por_niveis_para, bind_m at 1 in Hret.
      by rewrite (plano_de_estudo_para_unknown _ _ Hd) in Hret. }
  set (sub := sub_prs_of (pre_reqs self) (necessario_de (pre_reqs self) alvo)).
  destruct (cycle_or_acyclic sub) as [Hcyc|Hac].
  { unfold progressao_por_niveis_para, bind_m at 1 in Hret.
    rewrite (plano_de_estudo_para_run _ _ _ Hd) in Hret. fold sub in Hret.
    by rewrite (kahn_cyclic sub (sub_prs_closed _ _) Hcyc) in Hret. }
  destruct (kahn_sub_prs _ _ Hac) as (ordem & Hrun & _ & Hreq & _).
  assert (list_to_set ordem = necessario_de (pre_reqs self) alvo) as HN.
  { apply set_eq. intros x.
    by rewrite elem_of_list_to_set, Hreq, necessario_de_spec. }
  rewrite (progressao_por_niveis_para_run _ _ _ _ Hd Hrun) in Hret.
  cbn zeta in Hret. rewrite HN in Hret.
  destruct (niveis_sub_prs _ _ Hac) as (niveis' & Hrun' & Hlay & Hall).
  rewrite Hrun' in Hret. simpl in Hret. simplify_eq.
  pose proof (layers_last (pre_reqs self) alvo _ Hlay Hall) as Hlast.
  assert (∀ j nivel, niveis !! j = Some nivel → S j = length niveis →
            nivel = {[alvo]}) as Hfinal.
  { intros j nivel Hj Hlen. rewrite last_lookup, <-Hlen in Hlast. simpl in Hlast.
    congruence. }
  split_and!; [done| | |].
  - intros nivel x Hn Hx. apply necessario_de_spec. rewrite <-Hall.
    apply elem_of_union_list. eauto.
  - intros j nivel Hlt Hj Ha.
    destruct (proj1 (last_Some niveis {[alvo]}) Hlast) as [l1 Hl1].
    assert (niveis !! length l1 = Some {[alvo]}) as Hk
      by (rewrite Hl1; apply list_lookup_middle; done).
    assert (j ≠ length l1).
    { rewrite Hl1, length_app in Hlt. simpl in Hlt. lia. }
    apply (layers_disjoint sub niveis j (length l1) nivel {[alvo]} Hlay
             H Hj Hk alvo); [done | set_solver].
  - intros x Hx%necessario_de_spec Hne. rewrite <-Hall in Hx.
    apply elem_of_union_list in Hx as (nivel & [j Hj]%list_elem_of_lookup & Hx).
    exists j, nivel. split_and!; [|done..].
    pose proof (lookup_lt_Some _ _ _ Hj) as Hlt.
    destruct (decide (S j = length niveis)) as [Heq|]; [|lia].
    rewrite (Hfinal _ _ Hj Heq) in Hx. set_solver.
Qed.

Lemma progressao_por_niveis_para_last_witness :
  last ([{["A"]}; {["B"; "C"]}; {["D"]}]%string : list (gset string))
  = Some {["D"%string]}
  ∧ (∀ nivel x, nivel ∈ ([{["A"]}; {["B"; "C"]}; {["D"]}]%string : list (gset string)) →
       x ∈ nivel → required (pre_reqs diamante) "D" x)
  ∧ (∀ j nivel,
       S j < length ([{["A"]}; {["B"; "C"]}; {["D"]}]%string : list (gset string)) →
       ([{["A"]}; {["B"; "C"]}; {["D"]}]%string : list (gset string)) !! j
       = Some nivel → "D"%string ∉ nivel)
  ∧ (∀ x, required (pre_reqs diamante) "D" x → x ≠ "D"%string →
       ∃ j nivel,
         S j < length ([{["A"]}; {["B"; "C"]}; {["D"]}]%string : list (gset string))
         ∧ ([{["A"]}; {["B"; "C"]}; {["D"]}]%string : list (gset string)) !! j
           = Some nivel
         ∧ x ∈ nivel).
Proof.
  apply (progressao_por_niveis_para_last diamante "D").
  vm_compute. reflexivity.
Defined.

(** C7. Every sequence of the four mutations, run from the empty graph,
    completes without raising and leaves every identifier of every
    prerequisite set a key of the dictionary; in every such state
    [adicionar_pre_requisito] makes both endpoints nodes and records the
    edge, and [remover_disciplina] leaves no edge out of the removed
    identifier. *)
Theorem mutations_keep_closed mus :
  (apply_mutations mus rede_vazia).1 = Ret ()
  ∧ closed (pre_reqs (apply_mutations mus rede_vazia).2)
  ∧ (∀ pre course,
       (adicionar_pre_requisito pre course (apply_mutations mus rede_vazia).2).1
       = Ret ()
       ∧ is_Some (pre_reqs (adicionar_pre_requisito pre course
                              (apply_mutations mus rede_vazia).2).2 !! pre)
       ∧ is_Some (pre_reqs (adicionar_pre_requisito pre course
                              (apply_mutations mus rede_vazia).2).2 !! course)
       ∧ edge (pre_reqs (adicionar_pre_requisito pre course
                           (apply_mutations mus rede_vazia).2).2) pre course)
  ∧ (∀ x course,
       pre_reqs (remover_disciplina x (apply_mutations mus rede_vazia).2).2 !! x
       = None
       ∧ ¬ edge (pre_reqs (remover_disciplina x
                             (apply_mutations mus rede_vazia).2).2) x course
       ∧ closed (pre_reqs (remover_disciplina x
                             (apply_mutations mus rede_vazia).2).2)).
Proof.
  destruct (apply_mutations_closed mus rede_vazia closed_empty)
    as (self & Hrun & Hcl).
  rewrite Hrun. cbn [fst snd]. split_and!; [done|done| |].
  - intros pre course.
    destruct (adicionar_pre_requisito_run self pre course)
      as (prs & deps & -> & Hd & Hpre & Hkeys & _). cbn [fst snd pre_reqs].
    split_and!; [done| | |].
    + apply lookup_insert_is_Some'. by right.
    + apply lookup_insert_is_Some'. by left.
    + eexists. rewrite lookup_insert_eq. split; [done | set_solver].
  - intros x course.
    destruct (apply_mutation_closed (RemoveCourse x) self Hcl) as (self' & Hrm & Hcl').
    simpl in Hrm. rewrite Hrm. cbn [snd].
    assert (pre_reqs self' !! x = None) as Hx.
    { rewrite remover_disciplina_run in Hrm. simplify_eq/=.
      destruct (pre_reqs self !! x) eqn:Hsx; [|done].
      by rewrite lookup_fmap, lookup_delete_eq. }
    split_and!; [done| |done].
    intros (deps & Hc & Hin). destruct (Hcl' _ _ _ Hc Hin). congruence.
Qed.

(** C8. [remover_disciplina x] changes nothing when [x] is unknown.  After
    it, in every case, [x] is not a node: [prerequisitos_diretos],
    [todos_prerequisitos] and [plano_de_estudo_para] raise [KeyError] on
    [x], [existe_dependencia] is [False] with [x] on either side; and when
    [x] was a node, every other course keeps its prerequisite set less [x],
    so that [x] occurs in no remaining prerequisite set. *)
Theorem remover_disciplina_forgets self x :
  (remover_disciplina x self).1 = Ret ()
  ∧ (pre_reqs self !! x = None → (remover_disciplina x self).2 = self)
  ∧ pre_reqs (remover_disciplina x self).2 !! x = None
  ∧ prerequisitos_diretos x (remover_disciplina x self).2
    = (Raise KeyError, (remover_disciplina x self).2)
  ∧ todos_prerequisitos x (remover_disciplina x self).2
    = (Raise KeyError, (remover_disciplina x self).2)
  ∧ plano_de_estudo_para x (remover_disciplina x self).2
    = (Raise KeyError, (remover_disciplina x self).2)
  ∧ (∀ y, existe_dependencia x y (remover_disciplina x self).2
          = (Ret false, (remover_disciplina x self).2)
          ∧ existe_dependencia y x (remover_disciplina x self).2
            = (Ret false, (remover_disciplina x self).2))
  ∧ (is_Some (pre_reqs self !! x) →
     (∀ course, course ≠ x →
        pre_reqs (remover_disciplina x self).2 !! course
        = (λ deps, deps ∖ {[x]}) <$> pre_reqs self !! course)
     ∧ ∀ course deps,
         pre_reqs (remover_disciplina x self).2 !! course = Some deps → x ∉ deps).
Proof.
  rewrite remover_disciplina_run. cbn [fst snd].
  set (self' := Rede _).
  assert (pre_reqs self' !! x = None) as Hx.
  { unfold self'. simpl. destruct (pre_reqs self !! x) eqn:Hsx; [|done].
    by rewrite lookup_fmap, lookup_delete_eq. }
  split_and!.
  - done.
  - intros Hnone. unfold self'. rewrite Hnone. by destruct self.
  - done.
  - unfold prerequisitos_diretos, bind_m, read_pre_reqs. by rewrite Hx.
  - unfold todos_prerequisitos, bind_m, read_pre_reqs. by rewrite Hx.
  - by apply plano_de_estudo_para_unknown.
  - intros y. split; apply existe_dependencia_unknown; auto.
  - intros [deps0 Hsx].
    assert (∀ course, course ≠ x →
              pre_reqs self' !! course
              = (λ deps, deps ∖ {[x]}) <$> pre_reqs self !! course) as Hother.
    { intros course Hne. unfold self'. simpl. rewrite Hsx.
      by rewrite lookup_fmap, lookup_delete_ne. }
    split; [done|]. intros course deps Hc.
    destruct (decide (course = x)) as [->|Hne]; [congruence|].
    rewrite (Hother _ Hne) in Hc.
    destruct (pre_reqs self !! course); simplify_eq/=. set_solver.
Qed.

Lemma remover_disciplina_forgets_witness :
  "A"%string ∉ get_prs (pre_reqs (remover_disciplina "A" diamante).2) "B".
Proof.
  destruct (remover_disciplina_forgets diamante "A")
    as (_ & _ & _ & _ & _ & _ & _ & Hknown).
  destruct Hknown as [_ Hgone].
  - exists (get_prs (pre_reqs diamante) "A"). vm_compute. reflexivity.
  - apply (Hgone "B"%string). vm_compute. reflexivity.
Defined.

(** C10. In the store of objects, each of the eight queries leaves every
    object that was there before the call as it was, whatever the outcome:
    a result, [KeyError] or [CycleError].  So the dictionary
    [self._pre_reqs] and each of its sets are the same objects with the same
    contents, and the graph they hold is the same: what a query adds to,
    counts down in or assigns is an object it made itself. *)
Theorem queries_keep_the_graph (q : query) (self : Store.loc)
    (h : gmap Store.loc Store.obj) :
  Store.keeps h (Store.run_query self q h).2
  ∧ (Store.well_formed h self →
       Store.well_formed (Store.run_query self q h).2 self
       ∧ Store.graph_of (Store.run_query self q h).2 self
         = Store.graph_of h self).
Proof.
  destruct (frames_run_query h self q h (keeps_refl h) (local_dicts_refl h))
    as (Hkeep & _ & _).
  split; [done|]. intros Hwf.
  split; [by eapply keeps_well_formed | by apply keeps_graph_of].
Qed.


(** * Further properties of the code *)

(** ** Helper lemmas *)

Lemma rede_eq self1 self2 : pre_reqs self1 = pre_reqs self2 → self1 = self2.
Proof. destruct self1, self2. simpl. by intros ->. Qed.

Lemma ancestor_mono prs prs' a b :
  (∀ p c, edge prs p c → edge prs' p c) → ancestor prs a b → ancestor prs' a b.
Proof.
  intros Hsub. induction 1 as [a b He|a y b He _ IH].
  - by apply tc_once, Hsub.
  - eapply tc_l; [by apply Hsub | done].
Qed.

Lemma has_cycle_mono prs prs' :
  (∀ p c, edge prs p c → edge prs' p c) → has_cycle prs → has_cycle prs'.
Proof. intros Hsub [x Hx]. exists x. by eapply ancestor_mono. Qed.

Lemma tem_ciclo_true self :
  closed (pre_reqs self) → has_cycle (pre_reqs self) →
  tem_ciclo self = (Ret true, self).
Proof.
  intros Hcl Hcyc. unfold tem_ciclo.
  assert (ordenacao_topologica self = (kahn (pre_reqs self), self)) as -> by done.
  by rewrite (kahn_cyclic _ Hcl Hcyc).
Qed.

Lemma tem_ciclo_false self :
  closed (pre_reqs self) → acyclic (pre_reqs self) →
  tem_ciclo self = (Ret false, self).
Proof.
  intros Hcl Hac. unfold tem_ciclo.
  assert (ordenacao_topologica self = (kahn (pre_reqs self), self)) as -> by done.
  by destruct (kahn_acyclic _ Hcl Hac) as (ordem & -> & _).
Qed.

Lemma adicionar_disciplina_state self d :
  pre_reqs (adicionar_disciplina d self).2
  = match pre_reqs self !! d with
    | None => <[d := ∅]> (pre_reqs self)
    | Some _ => pre_reqs self
    end.
Proof. by rewrite adicionar_disciplina_run. Qed.

Lemma remover_disciplina_state self d :
  pre_reqs (remover_disciplina d self).2
  = match pre_reqs self !! d with
    | None => pre_reqs self
    | Some _ => (λ deps, deps ∖ {[d]}) <$> delete d (pre_reqs self)
    end.
Proof. by rewrite remover_disciplina_run. Qed.

Lemma remover_pre_requisito_state self pre d :
  pre_reqs (remover_pre_requisito pre d self).2
  = match pre_reqs self !! d with
    | None => pre_reqs self
    | Some deps => <[d := deps ∖ {[pre]}]> (pre_reqs self)
    end.
Proof. by rewrite remover_pre_requisito_run. Qed.

(** The dictionary after [adicionar_pre_requisito pre d], key by key. *)
Lemma adicionar_pre_requisito_lookup self pre d k :
  (adicionar_pre_requisito pre d self).1 = Ret ()
  ∧ pre_reqs (adicionar_pre_requisito pre d self).2 !! k
    = if decide (k = d) then Some ({[pre]} ∪ get_prs (pre_reqs self) d)
      else if decide (k = pre) then Some (get_prs (pre_reqs self) pre)
      else pre_reqs self !! k.
Proof.
  destruct (adicionar_pre_requisito_run self pre d)
    as (prs & deps & -> & Hd & Hpre & Hkeys & Hget).
  split; [done|]. cbn [snd pre_reqs].
  assert (∀ j v, prs !! j = Some v → v = get_prs (pre_reqs self) j) as Hval.
  { intros j v Hj. by rewrite <-Hget, (get_prs_Some _ _ _ Hj). }
  case_decide as Hkd.
  - subst k. rewrite lookup_insert_eq. by rewrite (Hval _ _ Hd).
  - rewrite lookup_insert_ne by done. case_decide as Hkp.
    + subst k. destruct Hpre as [v Hv]. by rewrite Hv, (Hval _ _ Hv).
    + destruct (prs !! k) as [v|] eqn:Hk.
      * assert (is_Some (pre_reqs self !! k)) as [v' Hv'].
        { destruct (proj1 (Hkeys k)) as [?|[?|?]]; [by eauto|done..]. }
        rewrite Hv'. f_equal. rewrite (Hval _ _ Hk). by rewrite (get_prs_Some _ _ _ Hv').
      * destruct (pre_reqs self !! k) as [v'|] eqn:Hv'; [|done].
        assert (is_Some (prs !! k)) as [? ?] by (apply Hkeys; eauto). congruence.
Qed.

Lemma edge_lookup_eq prs prs' :
  (∀ k, get_prs prs' k = get_prs prs k) → ∀ p c, edge prs' p c ↔ edge prs p c.
Proof. intros Hget p c. by rewrite !edge_get_prs, Hget. Qed.

Lemma adicionar_pre_requisito_get self pre d k :
  get_prs (pre_reqs (adicionar_pre_requisito pre d self).2) k
  = if decide (k = d) then {[pre]} ∪ get_prs (pre_reqs self) d
    else get_prs (pre_reqs self) k.
Proof.
  unfold get_prs at 1.
  rewrite (proj2 (adicionar_pre_requisito_lookup self pre d k)).
  repeat case_decide; subst; done.
Qed.

(** ** Courses *)

(** X1. [adicionar_disciplina] never raises.  On a known course it changes
    nothing, so the course keeps its prerequisites; on a new one it adds the
    course with no prerequisite, leaves every other course as it was and
    makes [disciplinas] list that one course more.  Adding the same course
    twice is adding it once. *)
Theorem adicionar_disciplina_extends self d :
  (adicionar_disciplina d self).1 = Ret ()
  ∧ (is_Some (pre_reqs self !! d) → (adicionar_disciplina d self).2 = self)
  ∧ (pre_reqs self !! d = None →
     pre_reqs (adicionar_disciplina d self).2 !! d = Some ∅
     ∧ (∀ c, c ≠ d →
          pre_reqs (adicionar_disciplina d self).2 !! c = pre_reqs self !! c)
     ∧ ∃ antes depois,
         (disciplinas self).1 = Ret antes
         ∧ (disciplinas (adicionar_disciplina d self).2).1 = Ret depois
         ∧ depois ≡ₚ d :: antes)
  ∧ (adicionar_disciplina d (adicionar_disciplina d self).2).2
    = (adicionar_disciplina d self).2.
Proof.
  split_and!.
  - by rewrite adicionar_disciplina_run.
  - intros [deps Hd]. apply rede_eq. by rewrite adicionar_disciplina_state, Hd.
  - intros Hd. rewrite adicionar_disciplina_state, Hd. split_and!.
    + apply lookup_insert_eq.
    + intros c Hc. by rewrite lookup_insert_ne.
    + eexists _, _. split_and!; [done..|].
      cbn [pre_reqs]. rewrite adicionar_disciplina_state, Hd.
      by rewrite map_to_list_insert.
  - apply rede_eq. rewrite !adicionar_disciplina_state.
    destruct (pre_reqs self !! d) eqn:Hd; [by rewrite Hd|].
    by rewrite lookup_insert_eq.
Qed.

Lemma adicionar_disciplina_extends_witness :
  ∃ antes depois,
    (disciplinas diamante).1 = Ret antes
    ∧ (disciplinas (adicionar_disciplina "E" diamante).2).1 = Ret depois
    ∧ depois ≡ₚ "E"%string :: antes.
Proof.
  apply (adicionar_disciplina_extends diamante "E"). vm_compute. reflexivity.
Defined.

(** X2. After [remover_disciplina x] following [adicionar_disciplina x] on a
    course [x] that was unknown, a graph without dangling edges is back to
    what it was. *)
Theorem remover_adicionar_disciplina self x :
  closed (pre_reqs self) → pre_reqs self !! x = None →
  (remover_disciplina x (adicionar_disciplina x self).2).2 = self.
Proof.
  intros Hcl Hx. apply rede_eq.
  rewrite remover_disciplina_state, adicionar_disciplina_state, Hx.
  rewrite lookup_insert_eq, delete_insert_eq, delete_id by done.
  apply map_eq. intros k. rewrite lookup_fmap.
  destruct (pre_reqs self !! k) as [deps|] eqn:Hk; [|done]. simpl. f_equal.
  assert (x ∉ deps); [|set_solver].
  intros Hin. destruct (Hcl _ _ _ Hk Hin). congruence.
Qed.

Lemma remover_adicionar_disciplina_witness :
  (remover_disciplina "E" (adicionar_disciplina "E" diamante).2).2 = diamante.
Proof.
  apply remover_adicionar_disciplina.
  - apply closedb_spec. vm_compute. reflexivity.
  - vm_compute. reflexivity.
Defined.

(** ** Edges *)

(** X3. [adicionar_pre_requisito pre d] never raises; afterwards the nodes
    are the old ones with [pre] and [d], and the edges are the old ones with
    pre→d: a course that existed keeps its other prerequisites. *)
Theorem adicionar_pre_requisito_edges self pre d :
  (adicionar_pre_requisito pre d self).1 = Ret ()
  ∧ (∀ k, is_Some (pre_reqs (adicionar_pre_requisito pre d self).2 !! k)
          ↔ k = pre ∨ k = d ∨ is_Some (pre_reqs self !! k))
  ∧ (∀ p c, edge (pre_reqs (adicionar_pre_requisito pre d self).2) p c
            ↔ edge (pre_reqs self) p c ∨ (p = pre ∧ c = d)).
Proof.
  split_and!.
  - apply (adicionar_pre_requisito_lookup self pre d d).
  - intros k. rewrite (proj2 (adicionar_pre_requisito_lookup self pre d k)).
    repeat case_decide; subst; split; eauto; intros [?|[?|?]]; eauto; done.
  - intros p c. rewrite !edge_get_prs, adicionar_pre_requisito_get.
    case_decide; [subst c|]; set_solver.
Qed.

(** X4. Adding the same edge twice leaves the graph as adding it once. *)
Theorem adicionar_pre_requisito_idempotent self pre d :
  adicionar_pre_requisito pre d (adicionar_pre_requisito pre d self).2
  = (Ret (), (adicionar_pre_requisito pre d self).2).
Proof.
  set (s1 := (adicionar_pre_requisito pre d self).2).
  destruct (adicionar_pre_requisito pre d s1) as [r s2] eqn:Hrun.
  pose proof (adicionar_pre_requisito_lookup s1 pre d) as Hl. rewrite Hrun in Hl.
  cbn [fst snd] in Hl. f_equal; [apply (Hl d)|].
  apply rede_eq, map_eq. intros k. rewrite (proj2 (Hl k)).
  unfold s1. rewrite !adicionar_pre_requisito_get.
  rewrite (proj2 (adicionar_pre_requisito_lookup self pre d k)).
  repeat case_decide; subst; try done; f_equal; set_solver.
Qed.

(** X5. [remover_pre_requisito pre d] never raises and is a no-op when [d]
    is unknown; it keeps every node and removes the edge pre→d and no other. *)
Theorem remover_pre_requisito_edges self pre d :
  (remover_pre_requisito pre d self).1 = Ret ()
  ∧ (pre_reqs self !! d = None → (remover_pre_requisito pre d self).2 = self)
  ∧ (∀ k, is_Some (pre_reqs (remover_pre_requisito pre d self).2 !! k)
          ↔ is_Some (pre_reqs self !! k))
  ∧ (∀ p c, edge (pre_reqs (remover_pre_requisito pre d self).2) p c
            ↔ edge (pre_reqs self) p c ∧ ¬ (p = pre ∧ c = d)).
Proof.
  split_and!.
  - by rewrite remover_pre_requisito_run.
  - intros Hd. apply rede_eq. by rewrite remover_pre_requisito_state, Hd.
  - intros k. rewrite remover_pre_requisito_state.
    destruct (pre_reqs self !! d) as [deps|] eqn:Hd; [|done].
    rewrite lookup_insert_is_Some'. split; [|by right].
    intros [->|?]; [by rewrite Hd | done].
  - intros p c. rewrite !edge_get_prs, remover_pre_requisito_state.
    destruct (pre_reqs self !! d) as [deps|] eqn:Hd.
    + rewrite get_prs_insert. case_decide.
      * subst c. rewrite (get_prs_Some _ _ _ Hd). set_solver.
      * naive_solver.
    + split; [|tauto]. intros Hp. split; [done|]. intros [-> ->].
      rewrite (get_prs_None _ _ Hd) in Hp. set_solver.
Qed.

(** X6. Adding an edge that was absent between two known courses and
    removing it again gives the graph back. *)
Theorem remover_adicionar_pre_requisito self pre d :
  is_Some (pre_reqs self !! pre) → is_Some (pre_reqs self !! d) →
  ¬ edge (pre_reqs self) pre d →
  (remover_pre_requisito pre d (adicionar_pre_requisito pre d self).2).2 = self.
Proof.
  intros [dp Hpre] [deps Hd] Hne. apply rede_eq, map_eq. intros k.
  rewrite remover_pre_requisito_state.
  pose proof (λ j, proj2 (adicionar_pre_requisito_lookup self pre d j)) as Hl.
  rewrite (Hl d), decide_True by done.
  destruct (decide (k = d)) as [->|Hkd].
  - rewrite lookup_insert_eq, Hd, (get_prs_Some _ _ _ Hd). f_equal.
    assert (pre ∉ deps) by (intros ?; apply Hne; by exists deps). set_solver.
  - rewrite lookup_insert_ne, Hl, decide_False by done.
    case_decide; [subst k; by rewrite Hpre, (get_prs_Some _ _ _ Hpre)|done].
Qed.

Lemma remover_adicionar_pre_requisito_witness :
  (remover_pre_requisito "A" "D" (adicionar_pre_requisito "A" "D" diamante).2).2
  = diamante.
Proof.
  apply remover_adicionar_pre_requisito.
  - exists (get_prs (pre_reqs diamante) "A"). vm_compute. reflexivity.
  - exists (get_prs (pre_reqs diamante) "D"). vm_compute. reflexivity.
  - intros He%edge_get_prs.
    assert (bool_decide ("A"%string ∈ get_prs (pre_reqs diamante) "D") = false) as Hb
      by (vm_compute; reflexivity).
    by apply bool_decide_eq_false in Hb.
Defined.

(** X7. Removing an edge that was present and adding it again gives the
    graph back. *)
Theorem adicionar_remover_pre_requisito self pre d :
  closed (pre_reqs self) → edge (pre_reqs self) pre d →
  (adicionar_pre_requisito pre d (remover_pre_requisito pre d self).2).2 = self.
Proof.
  intros Hcl (deps & Hd & Hin). destruct (Hcl _ _ _ Hd Hin) as [dp Hpre].
  apply rede_eq, map_eq. intros k.
  rewrite (proj2 (adicionar_pre_requisito_lookup _ pre d k)).
  rewrite remover_pre_requisito_state, Hd.
  case_decide as Hkd.
  - subst k. rewrite get_prs_insert, decide_True, Hd by done. f_equal.
    apply set_eq. intros x. destruct (decide (x = pre)); set_solver.
  - case_decide as Hkp.
    + subst k. rewrite get_prs_insert, decide_False by done.
      by rewrite Hpre, (get_prs_Some _ _ _ Hpre).
    + by rewrite lookup_insert_ne.
Qed.

Lemma adicionar_remover_pre_requisito_witness :
  (adicionar_pre_requisito "B" "D" (remover_pre_requisito "B" "D" diamante).2).2
  = diamante.
Proof.
  apply adicionar_remover_pre_requisito.
  - apply closedb_spec. vm_compute. reflexivity.
  - apply edge_get_prs.
    assert (bool_decide ("B"%string ∈ get_prs (pre_reqs diamante) "D") = true) as Hb
      by (vm_compute; reflexivity).
    by apply bool_decide_eq_true in Hb.
Defined.

(** ** Direct prerequisites, the constructor and the printed form *)

(** X8. [prerequisitos_diretos] raises [KeyError] on an unknown course; on a
    known one it returns exactly the sources of the edges into it, each
    once, and all of them are among [todos_prerequisitos]. *)
Theorem prerequisitos_diretos_edges self d :
  (pre_reqs self !! d = None →
     prerequisitos_diretos d self = (Raise KeyError, self))
  ∧ (is_Some (pre_reqs self !! d) →
     ∃ diretos todos,
       prerequisitos_diretos d self = (Ret diretos, self)
       ∧ todos_prerequisitos d self = (Ret todos, self)
       ∧ NoDup diretos
       ∧ (∀ x, x ∈ diretos ↔ edge (pre_reqs self) x d)
       ∧ diretos ⊆ todos).
Proof.
  split.
  - intros Hd. unfold prerequisitos_diretos, bind_m, read_pre_reqs. by rewrite Hd.
  - intros [deps Hd]. exists (elements deps). eexists. split_and!.
    + unfold prerequisitos_diretos, bind_m, read_pre_reqs. by rewrite Hd.
    + apply (todos_prerequisitos_run _ _ _ Hd).
    + apply NoDup_elements.
    + intros x. rewrite elem_of_elements, edge_get_prs.
      by rewrite (get_prs_Some _ _ _ Hd).
    + intros x Hx%elem_of_elements. apply elem_of_elements, ancestors_of_spec.
      apply tc_once. by exists deps.
Qed.

Lemma prerequisitos_diretos_edges_witness :
  ∃ diretos todos,
    prerequisitos_diretos "D" diamante = (Ret diretos, diamante)
    ∧ todos_prerequisitos "D" diamante = (Ret todos, diamante)
    ∧ NoDup diretos
    ∧ (∀ x, x ∈ diretos ↔ edge (pre_reqs diamante) x "D")
    ∧ diretos ⊆ todos.
Proof.
  apply (prerequisitos_diretos_edges diamante "D").
  exists (get_prs (pre_reqs diamante) "D"). vm_compute. reflexivity.
Defined.

Lemma init_loop_state ds self :
  (init_loop ds self).1 = Ret ()
  ∧ ∀ k, pre_reqs (init_loop ds self).2 !! k
         = match pre_reqs self !! k with
           | Some deps => Some deps
           | None => if decide (k ∈ ds) then Some ∅ else None
           end.
Proof.
  revert self. induction ds as [|d ds IH]; intros self.
  - split; [done|]. intros k. cbn [init_loop unit_m snd].
    destruct (pre_reqs self !! k); [done|].
    rewrite decide_False; [done | set_solver].
  - cbn [init_loop]. unfold bind_m. rewrite adicionar_disciplina_run.
    set (s1 := Rede _). destruct (IH s1) as [Hr Hl]. split; [done|].
    intros k. rewrite Hl. unfold s1. cbn [pre_reqs].
    destruct (decide (k = d)) as [->|Hkd].
    + destruct (pre_reqs self !! d) as [deps|] eqn:Hd; [by rewrite Hd|].
      rewrite lookup_insert_eq, decide_True; [done | set_solver].
    + assert ((match pre_reqs self !! d with
               | Some _ => pre_reqs self
               | None => <[d:=∅]> (pre_reqs self)
               end) !! k = pre_reqs self !! k) as ->.
      { destruct (pre_reqs self !! d); [done|]. by rewrite lookup_insert_ne. }
      destruct (pre_reqs self !! k); [done|].
      destruct (decide (k ∈ ds)).
      * rewrite decide_True; [done | set_solver].
      * rewrite decide_False; [done | set_solver].
Qed.

Lemma construir_lookup ods k :
  pre_reqs (construir ods) !! k
  = if decide (k ∈ default [] ods) then Some ∅ else None.
Proof.
  destruct ods as [[|d ds]|]; simpl; [done| |done].
  by rewrite (proj2 (init_loop_state (d :: ds) rede_vazia)).
Qed.

(** X9. The constructor makes a node of every identifier it is given, once
    whatever the repetitions, with no prerequisite; no argument and an empty
    one give the empty graph.  The graph it builds has no cycle, and both
    [disciplinas] and [ordenacao_topologica] list the identifiers given. *)
Theorem construir_nodes ods :
  (∀ k, pre_reqs (construir ods) !! k
        = if decide (k ∈ default [] ods) then Some ∅ else None)
  ∧ construir None = rede_vazia
  ∧ construir (Some []) = rede_vazia
  ∧ (∃ l, disciplinas (construir ods) = (Ret l, construir ods)
          ∧ l ≡ₚ remove_dups (default [] ods))
  ∧ tem_ciclo (construir ods) = (Ret false, construir ods)
  ∧ (∃ ordem, ordenacao_topologica (construir ods) = (Ret ordem, construir ods)
              ∧ ordem ≡ₚ remove_dups (default [] ods)).
Proof.
  pose proof (construir_lookup ods) as Hl.
  assert (∀ k, is_Some (pre_reqs (construir ods) !! k) ↔ k ∈ default [] ods) as Hk.
  { intros k. rewrite Hl. case_decide; [by split; eauto|].
    split; [by intros [? ?]|done]. }
  assert (∀ p c, ¬ edge (pre_reqs (construir ods)) p c) as Hne.
  { intros p c (deps & Hc & Hp). rewrite Hl in Hc. case_decide; simplify_eq.
    set_solver. }
  assert (closed (pre_reqs (construir ods))) as Hcl.
  { intros c deps p Hc Hp. destruct (Hne p c). by exists deps. }
  assert (acyclic (pre_reqs (construir ods))) as Hac.
  { intros x Hx. destruct Hx as [? ? He|? ? ? He _]; by apply Hne in He. }
  assert (∀ l, NoDup l → (∀ x, x ∈ l ↔ is_Some (pre_reqs (construir ods) !! x)) →
            l ≡ₚ remove_dups (default [] ods)) as Hperm.
  { intros l Hnd Hin. apply NoDup_Permutation; [done|apply NoDup_remove_dups|].
    intros x. by rewrite Hin, Hk, elem_of_remove_dups. }
  split_and!; [done|done|done| | |].
  - eexists. split; [done|]. apply Hperm; [apply NoDup_fst_map_to_list|].
    intros x. rewrite list_elem_of_fmap. split.
    + intros ([k deps] & -> & Hx%elem_of_map_to_list). eauto.
    + intros [deps Hx]. exists (x, deps). split; [done|].
      by apply elem_of_map_to_list.
  - by apply tem_ciclo_false.
  - destruct (kahn_acyclic _ Hcl Hac) as (ordem & Hrun & Hnd & Hkeys & _).
    exists ordem. split; [|by apply Hperm].
    unfold ordenacao_topologica, bind_m, read_pre_reqs, local_m. by rewrite Hrun.
Qed.

Lemma string_app_length (s t : string) :
  String.length (s +:+ t) = String.length s + String.length t.
Proof. induction s as [|a s IH]; simpl; [done | by rewrite IH]. Qed.

Lemma string_app_inj_r (s1 s2 t : string) : s1 +:+ t = s2 +:+ t → s1 = s2.
Proof.
  revert s2. induction s1 as [|a s1 IH]; intros [|b s2] Heq; simpl in *.
  - done.
  - apply (f_equal String.length) in Heq.
    change (String.length t = S (String.length (s2 +:+ t))) in Heq.
    rewrite string_app_length in Heq. lia.
  - apply (f_equal String.length) in Heq.
    change (S (String.length (s1 +:+ t)) = String.length t) in Heq.
    rewrite string_app_length in Heq. lia.
  - injection Heq as -> Heq. f_equal. by apply IH.
Qed.

(** X10. [__repr__] always returns a text and leaves the graph alone; two
    graphs print the same text exactly when they have the same number of
    courses, whatever their edges.  The empty graph prints
    [RedeDisciplinas(0 disciplinas)]. *)
Theorem repr_counts self1 self2 :
  (∃ r, repr self1 = (Ret r, self1))
  ∧ ((repr self1).1 = (repr self2).1
     ↔ size (pre_reqs self1) = size (pre_reqs self2))
  ∧ repr rede_vazia = (Ret "RedeDisciplinas(0 disciplinas)"%string, rede_vazia).
Proof.
  split_and!; [by eexists| |done].
  unfold repr, bind_m, read_pre_reqs, unit_m. simpl. split.
  - intros [= Heq].
    change (pretty (size (pre_reqs self1)) +:+ " disciplinas)"
            = pretty (size (pre_reqs self2)) +:+ " disciplinas)") in Heq.
    apply string_app_inj_r in Heq. by apply (inj pretty) in Heq.
  - by intros ->.
Qed.

(** ** Mutations against cycles and dependencies *)

Lemma remover_disciplina_edge self x p c :
  edge (pre_reqs (remover_disciplina x self).2) p c → edge (pre_reqs self) p c.
Proof.
  rewrite remover_disciplina_state.
  destruct (pre_reqs self !! x) eqn:Hx; [|done].
  intros (deps & Hc & Hp). rewrite lookup_fmap in Hc.
  destruct (decide (x = c)) as [->|Hne]; [by rewrite lookup_delete_eq in Hc|].
  rewrite lookup_delete_ne in Hc by done.
  destruct (pre_reqs self !! c) as [deps'|] eqn:Hc'; simplify_eq/=.
  exists deps'. split; [done | set_solver].
Qed.

Lemma remover_pre_requisito_edge self pre d p c :
  edge (pre_reqs (remover_pre_requisito pre d self).2) p c →
  edge (pre_reqs self) p c.
Proof.
  rewrite !edge_get_prs, remover_pre_requisito_state.
  destruct (pre_reqs self !! d) as [deps|] eqn:Hd; [|done].
  rewrite get_prs_insert. case_decide; [|done].
  subst c. rewrite (get_prs_Some _ _ _ Hd). set_solver.
Qed.

Lemma adicionar_disciplina_edge self d p c :
  edge (pre_reqs (adicionar_disciplina d self).2) p c ↔ edge (pre_reqs self) p c.
Proof.
  rewrite !edge_get_prs, adicionar_disciplina_state.
  destruct (pre_reqs self !! d) eqn:Hd; [done|].
  rewrite get_prs_insert. case_decide; [|done].
  subst c. rewrite (get_prs_None _ _ Hd). done.
Qed.

Lemma adicionar_pre_requisito_edge self pre d p c :
  edge (pre_reqs self) p c →
  edge (pre_reqs (adicionar_pre_requisito pre d self).2) p c.
Proof.
  rewrite !edge_get_prs, adicionar_pre_requisito_get.
  case_decide; [subst c|]; set_solver.
Qed.

Lemma mutation_closed mu self :
  closed (pre_reqs self) → closed (pre_reqs (apply_mutation mu self).2).
Proof.
  intros Hcl. by destruct (apply_mutation_closed mu self Hcl) as (self' & -> & ?).
Qed.

Lemma acyclic_mono prs prs' :
  (∀ p c, edge prs' p c → edge prs p c) → acyclic prs → acyclic prs'.
Proof. intros Hsub Hac x Hx. apply (Hac x). by eapply ancestor_mono. Qed.

(** X11. [adicionar_pre_requisito] accepts an edge that closes a cycle: on a
    graph without dangling edges, adding pre→d when [pre] is [d] or when [d]
    is already a prerequisite of [pre] returns normally, and [tem_ciclo] is
    [True] afterwards. *)
Theorem adicionar_pre_requisito_cycle self pre d :
  closed (pre_reqs self) →
  pre = d ∨ ancestor (pre_reqs self) d pre →
  (adicionar_pre_requisito pre d self).1 = Ret ()
  ∧ tem_ciclo (adicionar_pre_requisito pre d self).2
    = (Ret true, (adicionar_pre_requisito pre d self).2).
Proof.
  intros Hcl Hback. split; [apply (adicionar_pre_requisito_lookup self pre d d)|].
  apply tem_ciclo_true; [apply (mutation_closed (AddPrerequisite pre d) self Hcl)|].
  assert (edge (pre_reqs (adicionar_pre_requisito pre d self).2) pre d) as Hnew.
  { rewrite edge_get_prs, adicionar_pre_requisito_get, decide_True by done.
    set_solver. }
  exists d. destruct Hback as [->|Hanc]; [by apply tc_once|].
  eapply tc_r; [|done]. eapply ancestor_mono; [|done].
  intros p c. apply adicionar_pre_requisito_edge.
Qed.

Lemma adicionar_pre_requisito_cycle_witness :
  (adicionar_pre_requisito "D" "A" diamante).1 = Ret ()
  ∧ tem_ciclo (adicionar_pre_requisito "D" "A" diamante).2
    = (Ret true, (adicionar_pre_requisito "D" "A" diamante).2).
Proof.
  apply adicionar_pre_requisito_cycle.
  - apply closedb_spec. vm_compute. reflexivity.
  - right. apply ancestors_of_spec.
    assert (bool_decide ("A"%string ∈ ancestors_of (pre_reqs diamante) "D") = true)
      as Hb by (vm_compute; reflexivity).
    by apply bool_decide_eq_true in Hb.
Defined.

(** X12. On a graph without dangling edges and without a cycle, removing a
    course, removing an edge or adding a course never makes [tem_ciclo]
    answer [True]. *)
Theorem tem_ciclo_after_removal self :
  closed (pre_reqs self) → acyclic (pre_reqs self) →
  (∀ x, tem_ciclo (remover_disciplina x self).2
        = (Ret false, (remover_disciplina x self).2))
  ∧ (∀ pre d, tem_ciclo (remover_pre_requisito pre d self).2
              = (Ret false, (remover_pre_requisito pre d self).2))
  ∧ (∀ d, tem_ciclo (adicionar_disciplina d self).2
          = (Ret false, (adicionar_disciplina d self).2)).
Proof.
  intros Hcl Hac. split_and!.
  - intros x. apply tem_ciclo_false; [apply (mutation_closed (RemoveCourse x) _ Hcl)|].
    eapply acyclic_mono; [|done]. intros p c. apply remover_disciplina_edge.
  - intros pre d. apply tem_ciclo_false;
      [apply (mutation_closed (RemovePrerequisite pre d) _ Hcl)|].
    eapply acyclic_mono; [|done]. intros p c. apply remover_pre_requisito_edge.
  - intros d. apply tem_ciclo_false; [apply (mutation_closed (AddCourse d) _ Hcl)|].
    eapply acyclic_mono; [|done]. intros p c. apply adicionar_disciplina_edge.
Qed.

Lemma tem_ciclo_after_removal_witness :
  (∀ x, tem_ciclo (remover_disciplina x diamante).2
        = (Ret false, (remover_disciplina x diamante).2))
  ∧ (∀ pre d, tem_ciclo (remover_pre_requisito pre d diamante).2
              = (Ret false, (remover_pre_requisito pre d diamante).2))
  ∧ (∀ d, tem_ciclo (adicionar_disciplina d diamante).2
          = (Ret false, (adicionar_disciplina d diamante).2)).
Proof.
  apply tem_ciclo_after_removal.
  - apply closedb_spec. vm_compute. reflexivity.
  - apply acyclicb_spec. vm_compute. reflexivity.
Defined.

(** X13. On a graph without dangling edges, adding an edge never loses a
    dependency that [existe_dependencia] reported, and a dependency reported
    after removing a course or an edge was already there before. *)
Theorem existe_dependencia_monotone self a b :
  closed (pre_reqs self) →
  (∀ pre d,
     existe_dependencia a b self = (Ret true, self) →
     existe_dependencia a b (adicionar_pre_requisito pre d self).2
     = (Ret true, (adicionar_pre_requisito pre d self).2))
  ∧ (∀ x,
     existe_dependencia a b (remover_disciplina x self).2
     = (Ret true, (remover_disciplina x self).2) →
     existe_dependencia a b self = (Ret true, self))
  ∧ (∀ pre d,
     existe_dependencia a b (remover_pre_requisito pre d self).2
     = (Ret true, (remover_pre_requisito pre d self).2) →
     existe_dependencia a b self = (Ret true, self)).
Proof.
  intros Hcl. split_and!.
  - intros pre d Hab%existe_dependencia_ancestor; [|done].
    apply existe_dependencia_ancestor;
      [apply (mutation_closed (AddPrerequisite pre d) _ Hcl)|].
    eapply ancestor_mono; [|done]. intros p c. apply adicionar_pre_requisito_edge.
  - intros x Hab%existe_dependencia_ancestor;
      [|apply (mutation_closed (RemoveCourse x) _ Hcl)].
    apply existe_dependencia_ancestor; [done|].
    eapply ancestor_mono; [|done]. intros p c. apply remover_disciplina_edge.
  - intros pre d Hab%existe_dependencia_ancestor;
      [|apply (mutation_closed (RemovePrerequisite pre d) _ Hcl)].
    apply existe_dependencia_ancestor; [done|].
    eapply ancestor_mono; [|done]. intros p c. apply remover_pre_requisito_edge.
Qed.

Lemma existe_dependencia_monotone_witness :
  existe_dependencia "A" "D" (adicionar_pre_requisito "D" "E" diamante).2
  = (Ret true, (adicionar_pre_requisito "D" "E" diamante).2).
Proof.
  apply (existe_dependencia_monotone diamante "A" "D").
  - apply closedb_spec. vm_compute. reflexivity.
  - vm_compute. reflexivity.
Defined.

(** X14. On a graph without dangling edges [existe_dependencia] holds of
    every edge and is transitive; when the graph has no cycle it never holds
    both ways round. *)
Theorem existe_dependencia_order self a b c :
  closed (pre_reqs self) →
  (edge (pre_reqs self) a b → existe_dependencia a b self = (Ret true, self))
  ∧ (existe_dependencia a b self = (Ret true, self) →
     existe_dependencia b c self = (Ret true, self) →
     existe_dependencia a c self = (Ret true, self))
  ∧ (acyclic (pre_reqs self) →
     existe_dependencia a b self = (Ret true, self) →
     existe_dependencia b a self = (Ret false, self)).
Proof.
  intros Hcl. split_and!.
  - intros He. apply existe_dependencia_ancestor; [done | by apply tc_once].
  - intros Hab%existe_dependencia_ancestor Hbc%existe_dependencia_ancestor; [|done..].
    apply existe_dependencia_ancestor; [done | by eapply tc_trans].
  - intros Hac Hab%existe_dependencia_ancestor; [|done].
    destruct (pre_reqs self !! a) as [da|] eqn:Ha;
      [destruct (pre_reqs self !! b) as [db|] eqn:Hb|].
    + rewrite (existe_dependencia_run _ _ _ _ _ Ha Hb). do 2 f_equal.
      apply bool_decide_eq_false. intros Hba%ancestors_of_spec.
      apply (Hac a). by eapply tc_trans.
    + apply existe_dependencia_unknown. auto.
    + apply existe_dependencia_unknown. auto.
Qed.

Lemma existe_dependencia_order_witness :
  existe_dependencia "D" "A" diamante = (Ret false, diamante).
Proof.
  apply (existe_dependencia_order diamante "A" "D" "D").
  - apply closedb_spec. vm_compute. reflexivity.
  - apply acyclicb_spec. vm_compute. reflexivity.
  - vm_compute. reflexivity.
Defined.

(** X15. [todos_prerequisitos] is closed under itself: when [b] is among
    the prerequisites of [c], every prerequisite of [b] is one of [c]. *)
Theorem todos_prerequisitos_transitive self b c tb tc :
  todos_prerequisitos b self = (Ret tb, self) →
  todos_prerequisitos c self = (Ret tc, self) →
  b ∈ tc → tb ⊆ tc.
Proof.
  intros Hb Hc Hin x Hx.
  destruct (pre_reqs self !! b) as [db|] eqn:Hkb.
  2:{ unfold todos_prerequisitos, bind_m, read_pre_reqs in Hb.
      rewrite Hkb in Hb. by simplify_eq. }
  destruct (pre_reqs self !! c) as [dc|] eqn:Hkc.
  2:{ unfold todos_prerequisitos, bind_m, read_pre_reqs in Hc.
      rewrite Hkc in Hc. by simplify_eq. }
  rewrite (todos_prerequisitos_run _ _ _ Hkb) in Hb.
  rewrite (todos_prerequisitos_run _ _ _ Hkc) in Hc. simplify_eq.
  apply elem_of_elements, ancestors_of_spec.
  apply elem_of_elements, ancestors_of_spec in Hin, Hx. by eapply tc_trans.
Qed.

Lemma todos_prerequisitos_transitive_witness :
  "A"%string ∈ elements (ancestors_of (pre_reqs diamante) "D").
Proof.
  apply (todos_prerequisitos_transitive diamante "B" "D"
           (elements (ancestors_of (pre_reqs diamante) "B"))).
  - vm_compute. reflexivity.
  - vm_compute. reflexivity.
  - apply elem_of_elements.
    assert (bool_decide ("B"%string ∈ ancestors_of (pre_reqs diamante) "D") = true)
      as Hb by (vm_compute; reflexivity).
    by apply bool_decide_eq_true in Hb.
  - apply elem_of_elements.
    assert (bool_decide ("A"%string ∈ ancestors_of (pre_reqs diamante) "B") = true)
      as Hb by (vm_compute; reflexivity).
    by apply bool_decide_eq_true in Hb.
Defined.

(** ** Plans, levels and orders *)

(** What a returned plan tells about the graph. *)
Lemma plano_de_estudo_para_Ret self alvo ordem :
  (plano_de_estudo_para alvo self).1 = Ret ordem →
  ∃ deps,
    pre_reqs self !! alvo = Some deps
    ∧ acyclic (sub_prs_of (pre_reqs self) (necessario_de (pre_reqs self) alvo))
    ∧ kahn (sub_prs_of (pre_reqs self) (necessario_de (pre_reqs self) alvo))
      = Ret ordem.
Proof.
  intros Hret. destruct (pre_reqs self !! alvo) as [deps|] eqn:Hd.
  2:{ by rewrite (plano_de_estudo_para_unknown _ _ Hd) in Hret. }
  rewrite (plano_de_estudo_para_run _ _ _ Hd) in Hret. simpl in Hret.
  exists deps. split_and!; [done| |done].
  destruct (cycle_or_acyclic
              (sub_prs_of (pre_reqs self) (necessario_de (pre_reqs self) alvo)))
    as [Hcyc|Hac]; [|done].
  by rewrite (kahn_cyclic _ (sub_prs_closed _ _) Hcyc) in Hret.
Qed.

(** The levels a known target with an acyclic plan gets. *)
Lemma progressao_por_niveis_para_layers self alvo deps :
  pre_reqs self !! alvo = Some deps →
  acyclic (sub_prs_of (pre_reqs self) (necessario_de (pre_reqs self) alvo)) →
  ∃ niveis,
    progressao_por_niveis_para alvo self = (Ret niveis, self)
    ∧ layers_from (sub_prs_of (pre_reqs self) (necessario_de (pre_reqs self) alvo))
        ∅ niveis
    ∧ ⋃ niveis = necessario_de (pre_reqs self) alvo.
Proof.
  intros Hd Hac. destruct (kahn_sub_prs _ _ Hac) as (ordem & Hrun & _ & Hreq & _).
  assert (list_to_set ordem = necessario_de (pre_reqs self) alvo) as HN.
  { apply set_eq. intros x.
    by rewrite elem_of_list_to_set, Hreq, necessario_de_spec. }
  rewrite (progressao_por_niveis_para_run _ _ _ _ Hd Hrun). cbn zeta.
  rewrite HN. destruct (niveis_sub_prs _ _ Hac) as (niveis & -> & Hlay & Hall).
  by exists niveis.
Qed.

Lemma progressao_por_niveis_para_Ret self alvo niveis :
  (progressao_por_niveis_para alvo self).1 = Ret niveis →
  ∃ ordem, (plano_de_estudo_para alvo self).1 = Ret ordem.
Proof.
  unfold progressao_por_niveis_para, bind_m at 1.
  destruct (plano_de_estudo_para alvo self) as [[ordem|e|] s']; [eauto|done..].
Qed.

(** X16. [progressao_por_niveis_para] fails exactly when
    [plano_de_estudo_para] fails, with the same exception, and returns
    exactly when it returns; on every graph and target both end in a result,
    [KeyError] or [CycleError]. *)
Theorem progressao_fails_as_plano self alvo :
  (∀ e, (plano_de_estudo_para alvo self).1 = Raise e
        ↔ (progressao_por_niveis_para alvo self).1 = Raise e)
  ∧ ((∃ ordem, (plano_de_estudo_para alvo self).1 = Ret ordem)
     ↔ (∃ niveis, (progressao_por_niveis_para alvo self).1 = Ret niveis))
  ∧ (plano_de_estudo_para alvo self).1 ≠ OutOfFuel
  ∧ (progressao_por_niveis_para alvo self).1 ≠ OutOfFuel.
Proof.
  destruct (pre_reqs self !! alvo) as [deps|] eqn:Hd.
  - destruct (cycle_or_acyclic
      (sub_prs_of (pre_reqs self) (necessario_de (pre_reqs self) alvo)))
      as [Hcyc|Hac].
    + assert (plano_de_estudo_para alvo self = (Raise CycleError, self)) as Hp.
      { rewrite (plano_de_estudo_para_run _ _ _ Hd).
        by rewrite (kahn_cyclic _ (sub_prs_closed _ _) Hcyc). }
      assert (progressao_por_niveis_para alvo self = (Raise CycleError, self)) as Hn.
      { unfold progressao_por_niveis_para, bind_m at 1. by rewrite Hp. }
      rewrite Hp, Hn. simpl. split_and!; [intros e; split; intros [= <-]; done| |done..].
      split; intros [? ?]; done.
    + destruct (kahn_sub_prs _ _ Hac) as (ordem & Hrun & _).
      destruct (progressao_por_niveis_para_layers _ _ _ Hd Hac) as (niveis & Hn & _).
      rewrite Hn, (plano_de_estudo_para_run _ _ _ Hd), Hrun. simpl.
      split_and!; [intros e; split; done| |done..]. split; eauto.
  - assert (progressao_por_niveis_para alvo self = (Raise KeyError, self)) as Hn.
    { unfold progressao_por_niveis_para, bind_m at 1.
      by rewrite (plano_de_estudo_para_unknown _ _ Hd). }
    rewrite Hn, (plano_de_estudo_para_unknown _ _ Hd). simpl.
    split_and!; [intros e; split; intros [= <-]; done| |done..]. split; intros [? ?]; done.
Qed.


Lemma elem_of_concat_elements (niveis : list (gset string)) x :
  x ∈ concat (elements <$> niveis) ↔ x ∈ ⋃ niveis.
Proof.
  induction niveis as [|nivel niveis IH]; simpl; [set_solver|].
  rewrite elem_of_app, elem_of_elements, IH. set_solver.
Qed.

Lemma layers_concat_NoDup prs seen niveis :
  layers_from prs seen niveis →
  NoDup (concat (elements <$> niveis))
  ∧ ∀ x, x ∈ concat (elements <$> niveis) → x ∉ seen.
Proof.
  revert seen. induction niveis as [|nivel niveis IH]; intros seen Hlay; simpl.
  - split; [constructor | set_solver].
  - destruct Hlay as (_ & Hn & Hrest). destruct (IH _ Hrest) as [Hnd Hfresh].
    split.
    + apply NoDup_app. split_and!; [apply NoDup_elements| |done].
      intros x Hx%elem_of_elements Hx'%Hfresh. set_solver.
    + intros x [Hx%elem_of_elements|Hx%Hfresh]%elem_of_app; [|set_solver].
      by apply Hn in Hx as [? _].
Qed.

(** X17. When both return, the levels of [progressao_por_niveis_para], laid
    end to end, are a rearrangement of the plan of [plano_de_estudo_para]:
    every course of the plan is in one level and once. *)
Theorem niveis_rearrange_plano self alvo ordem niveis :
  (plano_de_estudo_para alvo self).1 = Ret ordem →
  (progressao_por_niveis_para alvo self).1 = Ret niveis →
  concat (elements <$> niveis) ≡ₚ ordem.
Proof.
  intros (deps & Hd & Hac & Hrun)%plano_de_estudo_para_Ret Hn.
  destruct (kahn_sub_prs _ _ Hac) as (ordem' & Hrun' & Hnd & Hreq & _).
  rewrite Hrun in Hrun'. simplify_eq.
  destruct (progressao_por_niveis_para_layers _ _ _ Hd Hac)
    as (niveis' & Hn' & Hlay & Hall).
  rewrite Hn' in Hn. simpl in Hn. simplify_eq.
  apply NoDup_Permutation; [by eapply (layers_concat_NoDup _ ∅)|done|].
  intros x. by rewrite Hreq, <-necessario_de_spec, <-Hall, elem_of_concat_elements.
Qed.

Lemma niveis_rearrange_plano_witness :
  concat (elements <$> ([{["A"]}; {["B"; "C"]}; {["D"]}]%string
                        : list (gset string)))
  ≡ₚ ["A"; "C"; "B"; "D"]%string.
Proof.
  apply (niveis_rearrange_plano diamante "D").
  - vm_compute. reflexivity.
  - vm_compute. reflexivity.
Defined.

Lemma ancestor_last_edge prs a b : ancestor prs a b → ∃ p, edge prs p b.
Proof. induction 1 as [a b He|a y b _ _ IH]; eauto. Qed.

Lemma NoDup_only (l : list string) a :
  NoDup l → (∀ x, x ∈ l ↔ x = a) → l = [a].
Proof.
  intros Hnd Hl. apply Permutation_singleton_r.
  apply NoDup_Permutation; [done|apply NoDup_singleton|].
  intros x. rewrite Hl. set_solver.
Qed.

(** X18. For a course without prerequisites the plan is that course alone
    and the progression is one level that holds it alone. *)
Theorem plano_without_prerequisites self alvo :
  pre_reqs self !! alvo = Some ∅ →
  plano_de_estudo_para alvo self = (Ret [alvo], self)
  ∧ progressao_por_niveis_para alvo self = (Ret [{[alvo]}], self).
Proof.
  intros Hd.
  assert (∀ x, ¬ ancestor (pre_reqs self) x alvo) as Hnone.
  { intros x [p (deps & Hp & Hin)]%ancestor_last_edge. simplify_eq. set_solver. }
  assert (∀ x, required (pre_reqs self) alvo x ↔ x = alvo) as Hreq.
  { intros x. unfold required. specialize (Hnone x). tauto. }
  assert (acyclic (sub_prs_of (pre_reqs self) (necessario_de (pre_reqs self) alvo)))
    as Hac.
  { intros x Hx.
    assert (x = alvo) as ->.
    { apply Hreq, necessario_de_spec.
      apply (proj1 (sub_prs_key (pre_reqs self) _ x)). by eapply ancestor_is_key. }
    by apply sub_prs_ancestor_inv, Hnone in Hx. }
  destruct (kahn_sub_prs _ _ Hac) as (ordem & Hrun & Hnd & Hin & _).
  assert (ordem = [alvo]) as ->.
  { apply NoDup_only; [done|]. intros x. by rewrite Hin, Hreq. }
  split; [by rewrite (plano_de_estudo_para_run _ _ _ Hd), Hrun|].
  destruct (progressao_por_niveis_para_layers _ _ _ Hd Hac)
    as (niveis & -> & Hlay & Hall).
  do 2 f_equal.
  pose proof (layers_last _ _ _ Hlay Hall) as [l1 ->]%last_Some.
  destruct l1 as [|nivel l1]; [done|]. exfalso.
  assert (nivel ≠ ∅) as [x Hx]%set_choose_L by (by destruct Hlay as (? & _)).
  assert (x = alvo) as ->.
  { apply Hreq, necessario_de_spec. rewrite <-Hall. set_solver. }
  eapply (layers_disjoint _ _ 0 (S (length l1)) nivel {[alvo]} Hlay);
    [done|done| |done|set_solver].
  change ((nivel :: l1) ++ [{[alvo]}]) with (nivel :: (l1 ++ [{[alvo]}])).
  simpl. by apply list_lookup_middle.
Qed.

Lemma plano_without_prerequisites_witness :
  plano_de_estudo_para "A" diamante = (Ret ["A"%string], diamante)
  ∧ progressao_por_niveis_para "A" diamante = (Ret [{["A"%string]}], diamante).
Proof.
  apply plano_without_prerequisites. vm_compute. reflexivity.
Defined.

(** X19. On a graph without dangling edges, whenever
    [ordenacao_topologica] returns, every course comes after all the courses
    [existe_dependencia] reports as its direct or indirect prerequisites. *)
Theorem ordenacao_topologica_dependencies self ordem a b :
  closed (pre_reqs self) →
  ordenacao_topologica self = (Ret ordem, self) →
  existe_dependencia a b self = (Ret true, self) →
  before ordem a b.
Proof.
  intros Hcl Hord Hab%existe_dependencia_ancestor; [|done].
  assert (ordenacao_topologica self = (kahn (pre_reqs self), self)) as Hk by done.
  rewrite Hk in Hord.
  destruct (cycle_or_acyclic (pre_reqs self)) as [Hcyc|Hac].
  { rewrite (kahn_cyclic _ Hcl Hcyc) in Hord. done. }
  destruct (kahn_acyclic _ Hcl Hac) as (ordem' & Hrun & _ & Hkeys & Htopo).
  rewrite Hrun in Hord. simplify_eq.
  eapply topo_from_before; [done| |done]. apply Hkeys. by eapply ancestor_is_key.
Qed.

Lemma ordenacao_topologica_dependencies_witness :
  before ["A"; "C"; "B"; "D"]%string "A" "D".
Proof.
  apply (ordenacao_topologica_dependencies diamante).
  - apply closedb_spec. vm_compute. reflexivity.
  - vm_compute. reflexivity.
  - vm_compute. reflexivity.
Defined.

(** X20. On a graph without dangling edges, after [remover_disciplina x]
    the course [x] is in no result of a later query: not in a topological
    order, not among the prerequisites of a course, not in a plan and not in
    a level. *)
Theorem remover_disciplina_results self x :
  closed (pre_reqs self) →
  (∀ ordem, (ordenacao_topologica (remover_disciplina x self).2).1 = Ret ordem →
            x ∉ ordem)
  ∧ (∀ alvo todos,
       (todos_prerequisitos alvo (remover_disciplina x self).2).1 = Ret todos →
       x ∉ todos)
  ∧ (∀ alvo ordem,
       (plano_de_estudo_para alvo (remover_disciplina x self).2).1 = Ret ordem →
       x ∉ ordem)
  ∧ (∀ alvo niveis nivel,
       (progressao_por_niveis_para alvo (remover_disciplina x self).2).1
       = Ret niveis →
       nivel ∈ niveis → x ∉ nivel).
Proof.
  intros Hcl. set (s' := (remover_disciplina x self).2).
  assert (closed (pre_reqs s')) as Hcl'
    by apply (mutation_closed (RemoveCourse x) _ Hcl).
  assert (pre_reqs s' !! x = None) as Hx.
  { unfold s'. rewrite remover_disciplina_state.
    destruct (pre_reqs self !! x) eqn:Hsx; [|done].
    by rewrite lookup_fmap, lookup_delete_eq. }
  assert (∀ alvo, is_Some (pre_reqs s' !! alvo) →
            ¬ required (pre_reqs s') alvo x) as Hreq.
  { intros alvo [deps Ha] [->|Hanc]; [congruence|].
    destruct (ancestor_closed_key _ _ _ Hcl' Hanc). congruence. }
  split_and!.
  - intros ordem Hord.
    assert (ordenacao_topologica s' = (kahn (pre_reqs s'), s')) as Hk by done.
    rewrite Hk in Hord. simpl in Hord.
    destruct (cycle_or_acyclic (pre_reqs s')) as [Hcyc|Hac].
    { by rewrite (kahn_cyclic _ Hcl' Hcyc) in Hord. }
    destruct (kahn_acyclic _ Hcl' Hac) as (ordem' & Hrun & _ & Hkeys & _).
    rewrite Hrun in Hord. simplify_eq. intros [? ?]%Hkeys. congruence.
  - intros alvo todos Htodos.
    destruct (pre_reqs s' !! alvo) as [deps|] eqn:Ha.
    2:{ unfold todos_prerequisitos, bind_m, read_pre_reqs in Htodos.
        by rewrite Ha in Htodos. }
    rewrite (todos_prerequisitos_run _ _ _ Ha) in Htodos. simpl in Htodos.
    simplify_eq. intros Hin%elem_of_elements%ancestors_of_spec.
    apply (Hreq alvo); [eauto | by right].
  - intros alvo ordem (deps & Ha & Hac & Hrun)%plano_de_estudo_para_Ret.
    destruct (kahn_sub_prs _ _ Hac) as (ordem' & Hrun' & _ & Hin & _).
    rewrite Hrun in Hrun'. simplify_eq. intros Hxo%Hin. apply (Hreq alvo); eauto.
  - intros alvo niveis nivel Hn Hnivel Hxn.
    destruct (progressao_por_niveis_para_Ret _ _ _ Hn) as [ordem Hp].
    apply plano_de_estudo_para_Ret in Hp as (deps & Ha & Hac & Hrun).
    destruct (progressao_por_niveis_para_layers _ _ _ Ha Hac)
      as (niveis' & Hn' & _ & Hall).
    rewrite Hn' in Hn. simpl in Hn. simplify_eq.
    apply (Hreq alvo); [eauto|]. apply necessario_de_spec. rewrite <-Hall.
    apply elem_of_union_list. eauto.
Qed.

Lemma remover_disciplina_results_witness :
  (∀ ordem, (ordenacao_topologica (remover_disciplina "B" diamante).2).1 = Ret ordem →
            "B"%string ∉ ordem)
  ∧ (∀ alvo todos,
       (todos_prerequisitos alvo (remover_disciplina "B" diamante).2).1 = Ret todos →
       "B"%string ∉ todos)
  ∧ (∀ alvo ordem,
       (plano_de_estudo_para alvo (remover_disciplina "B" diamante).2).1 = Ret ordem →
       "B"%string ∉ ordem)
  ∧ (∀ alvo niveis nivel,
       (progressao_por_niveis_para alvo (remover_disciplina "B" diamante).2).1
       = Ret niveis →
       nivel ∈ niveis → "B"%string ∉ nivel).
Proof.
  apply remover_disciplina_results. apply closedb_spec. vm_compute. reflexivity.
Defined.

(** ** Cycles seen through the dependency query *)

(** X21. On a graph without dangling edges [tem_ciclo] answers [True]
    exactly when [existe_dependencia] reports some course as a prerequisite
    of itself. *)
Theorem tem_ciclo_self_dependency self :
  closed (pre_reqs self) →
  tem_ciclo self = (Ret true, self)
  ↔ ∃ a, existe_dependencia a a self = (Ret true, self).
Proof.
  intros Hcl. split.
  - intros Ht. destruct (cycle_or_acyclic (pre_reqs self)) as [[a Ha]|Hac].
    + exists a. by apply existe_dependencia_ancestor.
    + by rewrite (tem_ciclo_false _ Hcl Hac) in Ht.
  - intros [a Ha%existe_dependencia_ancestor]; [|done].
    apply tem_ciclo_true; [done | by exists a].
Qed.

Lemma tem_ciclo_self_dependency_witness :
  tem_ciclo ciclo2 = (Ret true, ciclo2)
  ↔ ∃ a, existe_dependencia a a ciclo2 = (Ret true, ciclo2).
Proof.
  apply tem_ciclo_self_dependency. apply closedb_spec. vm_compute. reflexivity.
Defined.

(** X22. On a graph without dangling edges and for a known target,
    [plano_de_estudo_para] raises [CycleError] exactly when the target or
    one of its direct or indirect prerequisites is reported by
    [existe_dependencia] as a prerequisite of itself. *)
Theorem plano_de_estudo_para_cycle self alvo :
  closed (pre_reqs self) → is_Some (pre_reqs self !! alvo) →
  plano_de_estudo_para alvo self = (Raise CycleError, self)
  ↔ ∃ x, (x = alvo ∨ existe_dependencia x alvo self = (Ret true, self))
         ∧ existe_dependencia x x self = (Ret true, self).
Proof.
  intros Hcl [deps Hd]. rewrite (plano_de_estudo_para_run _ _ _ Hd).
  set (sub := sub_prs_of (pre_reqs self) (necessario_de (pre_reqs self) alvo)).
  assert (has_cycle sub
          ↔ ∃ x, required (pre_reqs self) alvo x ∧ ancestor (pre_reqs self) x x)
    as Hcyc.
  { split.
    - intros [x Hx]. exists x. split; [|by eapply sub_prs_ancestor_inv].
      apply necessario_de_spec.
      apply (proj1 (sub_prs_key (pre_reqs self) _ x)). by eapply ancestor_is_key.
    - intros (x & Hreq & Hx). exists x. by apply sub_prs_ancestor. }
  assert ((∃ x, (x = alvo ∨ existe_dependencia x alvo self = (Ret true, self))
                ∧ existe_dependencia x x self = (Ret true, self))
          ↔ has_cycle sub) as ->.
  { rewrite Hcyc. apply exist_proper. intros x. unfold required.
    by rewrite !existe_dependencia_ancestor. }
  destruct (cycle_or_acyclic sub) as [Hc|Hac].
  - by rewrite (kahn_cyclic sub (sub_prs_closed _ _) Hc).
  - destruct (kahn_sub_prs _ _ Hac) as (ordem & Hrun & _). fold sub in Hrun.
    rewrite Hrun. split; [done|]. intros ?%has_cycle_not_acyclic. done.
Qed.

Lemma plano_de_estudo_para_cycle_witness :
  plano_de_estudo_para "A" ciclo2 = (Raise CycleError, ciclo2)
  ↔ ∃ x, (x = "A"%string ∨ existe_dependencia x "A" ciclo2 = (Ret true, ciclo2))
         ∧ existe_dependencia x x ciclo2 = (Ret true, ciclo2).
Proof.
  apply plano_de_estudo_para_cycle.
  - apply closedb_spec. vm_compute. reflexivity.
  - exists (get_prs (pre_reqs ciclo2) "A"). vm_compute. reflexivity.
Defined.
